(** * Crawl scheduler core of the web scraper: a shallow embedding

    The TypeScript sources embedded here are
    - [utils/priority-queue.ts]  (PriorityQueue)
    - [utils/rate-limiter.ts]    (RateLimiter)
    - [utils/robots-parser.ts]   (RobotsParser)
    - [core/url-manager.ts]      (UrlManager)
    - [core/crawler.ts]          (Crawler)
    - [core/parser.ts]           (Parser)
    - [core/job-manager.ts]      (JobManager)

    Conventions.  A JavaScript [number] that the code uses as a counter, a
    priority, a status code or a millisecond clock value is a [Z]; the token
    bucket, whose refill rate [1000 / limit] is fractional, lives in [Q],
    with exact arithmetic in place of doubles.  A method that mutates
    [this] becomes a function from the old object to the new one, paired
    with what the method returns or throws.  An [await] is a point where
    other code may run, so a method that awaits is cut into the pieces
    between its awaits.  What the code reads from outside (the clock,
    generated ids, the network) is an argument of the function.

    The definitions come first, one module per class; the properties
    follow. *)

From Stdlib Require Import ZArith List String Ascii Bool Lia QArith Qround Lqa Sorted.
From stdpp Require Import base list gmap strings pretty.

Open Scope string_scope.
Open Scope Z_scope.

(** ** JavaScript errors and completions *)

(** The fields of a thrown value that the code inspects: [error.code],
    [error.response] (its [status] and [statusText]) and the message. *)
Record JsError := mkError {
  code : option string;
  response : option (Z * string);
  message : string
}.

(** [new Error(msg)] *)
Definition Error (msg : string) : JsError :=
  {| code := None; response := None; message := msg |}.

(** How a call completes: normally with a value, or by throwing. *)
Inductive completion (A : Type) : Type :=
| Normal (a : A)
| Throw (e : JsError).
Arguments Normal {A} a.
Arguments Throw {A} e.

(** ** utils/priority-queue.ts *)

Module PriorityQueue.

Section Queue.
Context {T : Type}.

(** [interface QueueNode<T> { data: T; priority: number }] *)
Record QueueNode := mkNode { data : T; priority : Z }.

(** The two private fields of the class. *)
Record t := mkQueue { items : list QueueNode; maxSize : Z }.

(** [constructor(maxSize)] *)
Definition new (maxSize : Z) : t := {| items := []; maxSize := maxSize |}.

Definition size (q : t) : Z := Z.of_nat (List.length (items q)).
Definition isEmpty (q : t) : bool := size q =? 0.
Definition isFull (q : t) : bool := size q >=? maxSize q.

(** The message of the error thrown by [enqueue] on a full queue. *)
Definition QueueFullError : JsError := Error "Queue is full".

(** The [for] loop of [enqueue] followed by the [if (!added)] push: the
    node is spliced in before the first item whose priority is strictly
    greater, and appended when there is none. *)
Fixpoint splice (node : QueueNode) (its : list QueueNode) : list QueueNode :=
  match its with
  | [] => [node]
  | x :: rest =>
      if priority x >? priority node then node :: x :: rest
      else x :: splice node rest
  end.

Definition enqueue (q : t) (d : T) (p : Z) : t * completion unit :=
  if size q >=? maxSize q then (q, Throw QueueFullError)
  else ({| items := splice (mkNode d p) (items q); maxSize := maxSize q |},
        Normal tt).

(** [items.shift()!.data], or [null] on an empty queue. *)
Definition dequeue (q : t) : t * option T :=
  match items q with
  | [] => (q, None)
  | x :: rest => ({| items := rest; maxSize := maxSize q |}, Some (data x))
  end.

Definition peek (q : t) : option T :=
  match items q with
  | [] => None
  | x :: _ => Some (data x)
  end.

Definition clear (q : t) : t := {| items := []; maxSize := maxSize q |}.

Definition getItems (q : t) : list T := map data (items q).

(** A caller's use of the queue: a sequence of method calls.  A call that
    throws leaves the object as it was and the caller goes on. *)
Inductive op := Enqueue (d : T) (p : Z) | Dequeue | Clear.

Definition step (q : t) (o : op) : t :=
  match o with
  | Enqueue d p => fst (enqueue q d p)
  | Dequeue => fst (dequeue q)
  | Clear => clear q
  end.

Definition run (ops : list op) (q : t) : t := fold_left step ops q.

(** Items in ascending priority order. *)
Definition ordered (its : list QueueNode) : Prop :=
  StronglySorted (fun a b => priority a <= priority b) its.

(** Capacity invariant: the queue holds at most [maxSize] items. *)
Definition within_capacity (q : t) : Prop := size q <= maxSize q.

(** A caller that calls [dequeue] until it answers [null], at most [n]
    times: the data it receives, in the order received. *)
Fixpoint dequeue_all (n : nat) (q : t) : list T :=
  match n with
  | O => []
  | S n' =>
      match dequeue q with
      | (q', Some d) => d :: dequeue_all n' q'
      | (_, None) => []
      end
  end.

(** A caller that enqueues the pairs of a list one after the other. *)
Definition enqueues (l : list (T * Z)) : list op :=
  map (fun dp => Enqueue (fst dp) (snd dp)) l.

End Queue.

Arguments QueueNode T : clear implicits.
Arguments t T : clear implicits.
Arguments op T : clear implicits.

End PriorityQueue.

(** ** The platform's [URL] class *)

Module URL.

(** The fields of a parsed URL that the code reads. *)
Record t := mkURL {
  origin : string;
  hostname : string;
  pathname : string;
  search : string;
  hash : string
}.

(** A URL parser: [new URL(s)], which throws a [TypeError] ([None]) on a
    string that is not a URL.  The classes of the repository take the
    parser as a parameter; [parse] below is the one used to run them. *)
Definition parser := string -> option t.

Definition is_lower (c : ascii) : bool :=
  let n := nat_of_ascii c in (97 <=? n)%nat && (n <=? 122)%nat.
Definition is_upper (c : ascii) : bool :=
  let n := nat_of_ascii c in (65 <=? n)%nat && (n <=? 90)%nat.
Definition is_digit (c : ascii) : bool :=
  let n := nat_of_ascii c in (48 <=? n)%nat && (n <=? 57)%nat.

Definition is_host_char (c : ascii) : bool :=
  is_lower c || is_digit c || Ascii.eqb c "." || Ascii.eqb c "-".

Definition is_path_char (c : ascii) : bool :=
  is_lower c || is_upper c || is_digit c ||
  Ascii.eqb c "/" || Ascii.eqb c "-" || Ascii.eqb c "_" || Ascii.eqb c "~"
  || Ascii.eqb c ".".

Definition is_query_char (c : ascii) : bool :=
  is_path_char c || Ascii.eqb c "=" || Ascii.eqb c "&".

Definition is_hex_digit (c : ascii) : bool :=
  is_digit c || (let n := nat_of_ascii c in (97 <=? n)%nat && (n <=? 102)%nat).

Fixpoint all_chars (p : ascii -> bool) (s : string) : bool :=
  match s with
  | EmptyString => true
  | String c s' => p c && all_chars p s'
  end.

(** [break p s] cuts [s] before its first character satisfying [p]. *)
Fixpoint break (p : ascii -> bool) (s : string) : string * string :=
  match s with
  | EmptyString => (EmptyString, EmptyString)
  | String c s' =>
      if p c then (EmptyString, s)
      else let (a, b) := break p s' in (String c a, b)
  end.

Definition strip_prefix (pre s : string) : option string :=
  if String.prefix pre s
  then Some (String.substring (String.length pre) (String.length s - String.length pre) s)
  else None.

(** The pieces of [s] between the occurrences of [sep]. *)
Fixpoint pieces (sep : ascii) (s : string) : list string :=
  match s with
  | EmptyString => [EmptyString]
  | String c s' =>
      if Ascii.eqb c sep then EmptyString :: pieces sep s'
      else match pieces sep s' with
           | piece :: rest => String c piece :: rest
           | [] => [String c EmptyString]
           end
  end.

(** A label that the platform reads as a number: decimal digits, or [0x]
    and hexadecimal digits. *)
Definition is_number (label : string) : bool :=
  (negb (String.eqb label "") && all_chars is_digit label)
  || match label with
     | String "0" (String "x" rest) => all_chars is_hex_digit rest
     | _ => false
     end.

(** The host ends in a number, its last label, a final dot apart: the
    platform then reads the host as an IPv4 address and rewrites or
    rejects it. *)
Definition ends_in_number (host : string) : bool :=
  match rev (pieces "." host) with
  | EmptyString :: label :: _ => is_number label
  | label :: _ => is_number label
  | [] => false
  end.

(** A label in the form of an internationalized name, which the platform
    decodes and checks. *)
Definition has_encoded_label (host : string) : bool :=
  existsb (String.prefix "xn--") (pieces "." host).

(** The path has a segment [.] or [..], which the platform resolves. *)
Definition has_dot_segment (path : string) : bool :=
  existsb (fun seg => String.eqb seg "." || String.eqb seg "..") (pieces "/" path).

Definition special_schemes : list string := ["https"; "http"; "ws"; "wss"; "ftp"].

Fixpoint first_scheme (schemes : list string) (s : string) : option (string * string) :=
  match schemes with
  | [] => None
  | sch :: rest =>
      match strip_prefix (sch ++ "://") s with
      | Some after => Some (sch, after)
      | None => first_scheme rest s
      end
  end.

(** The parser on the URLs that need no rewriting: a lower-case special
    scheme, [://], a lower-case host name without credentials or port
    that does not end in a number and has no encoded label, a path of
    unreserved characters without dot segments, and an optional query
    and fragment.  The origin of such a URL is [scheme://host], an empty
    path reads as [/].  A string without a scheme is not a URL.  URLs
    that the platform would rewrite (case folding, default ports,
    percent-encoding, dot segments, IPv4 addresses, internationalized
    names) are not covered: the parser answers [None] on them, and
    nothing below runs it on one. *)
Definition parse : parser := fun s =>
  match first_scheme special_schemes s with
  | None => None
  | Some (sch, after) =>
      let (host, rest) :=
        break (fun c => Ascii.eqb c "/" || Ascii.eqb c "?" || Ascii.eqb c "#") after in
      let (path, rest') :=
        break (fun c => Ascii.eqb c "?" || Ascii.eqb c "#") rest in
      let (query, frag) := break (fun c => Ascii.eqb c "#") rest' in
      if negb (String.eqb host "") && all_chars is_host_char host
         && negb (ends_in_number host) && negb (has_encoded_label host)
         && all_chars is_path_char path && negb (has_dot_segment path)
         && all_chars is_query_char (String.substring 1 (String.length query) query)
         && all_chars is_query_char (String.substring 1 (String.length frag) frag)
      then Some {| origin := sch ++ "://" ++ host;
                   hostname := host;
                   pathname := if String.eqb path "" then "/" else path;
                   search := if String.eqb query "?" then "" else query;
                   hash := if String.eqb frag "#" then "" else frag |}
      else None
  end.

End URL.

(** ** core/url-manager.ts *)

(** [interface QueueConfig] of [interfaces.ts] *)
Record QueueConfig := mkQueueConfig {
  cfg_maxSize : Z;
  priorityLevels : Z;
  deduplicationWindow : Z
}.

Module UrlManager.

Section WithParser.
Variable URL_new : URL.parser.

Record t := mkUrlManager {
  queue : PriorityQueue.t string;
  visited : gset string;
  config : QueueConfig
}.

(** [constructor(config)] *)
Definition new (config : QueueConfig) : t :=
  {| queue := PriorityQueue.new (cfg_maxSize config);
     visited := ∅;
     config := config |}.

(** [s.replace(/\/$/, '')]: one slash at the very end of the string goes. *)
Fixpoint strip_trailing_slash (s : string) : string :=
  match s with
  | EmptyString => EmptyString
  | String c EmptyString => if Ascii.eqb c "/" then EmptyString else s
  | String c s' => String c (strip_trailing_slash s')
  end.

(** [normalizeUrl]: origin and path without its trailing slash; a string
    that does not parse is its own key. *)
Definition normalizeUrl (url : string) : string :=
  match URL_new url with
  | Some parsed => URL.origin parsed ++ strip_trailing_slash (URL.pathname parsed)
  | None => url
  end.

Definition shouldEnqueue (um : t) (url : string) : bool :=
  negb (bool_decide (normalizeUrl url ∈ visited um))
  && (PriorityQueue.size (queue um) <? cfg_maxSize (config um)).

(** The default value of [enqueue]'s [priority] parameter. *)
Definition default_priority : Z := 1.

(** [enqueue] up to its [await]: the guard and the call of
    [queue.enqueue].  [None]: the guard failed and the method is over. *)
Definition enqueue_begin (um : t) (url : string) (priority : Z)
  : t * option (completion unit) :=
  if shouldEnqueue um url then
    let (q', c) := PriorityQueue.enqueue (queue um) url priority in
    ({| queue := q'; visited := visited um; config := config um |}, Some c)
  else (um, None).

(** [enqueue] from its [await] on: the rejection of [queue.enqueue] is
    rethrown, otherwise the normalized URL joins the visited set. *)
Definition enqueue_end (um : t) (url : string) (c : completion unit)
  : t * completion unit :=
  match c with
  | Normal _ =>
      ({| queue := queue um;
          visited := {[ normalizeUrl url ]} ∪ visited um;
          config := config um |}, Normal tt)
  | Throw e => (um, Throw e)
  end.

(** [await urlManager.enqueue(url, priority)] with nothing running in
    between. *)
Definition enqueue (um : t) (url : string) (priority : Z) : t * completion unit :=
  match enqueue_begin um url priority with
  | (um1, None) => (um1, Normal tt)
  | (um1, Some c) => enqueue_end um1 url c
  end.

Definition dequeue (um : t) : t * option string :=
  let (q', r) := PriorityQueue.dequeue (queue um) in
  ({| queue := q'; visited := visited um; config := config um |}, r).

Definition clear (um : t) : t :=
  {| queue := PriorityQueue.clear (queue um); visited := ∅; config := config um |}.

Definition getQueueSize (um : t) : Z := PriorityQueue.size (queue um).

Definition isVisited (um : t) (url : string) : bool :=
  bool_decide (normalizeUrl url ∈ visited um).

(** The payloads waiting in the frontier, next one first. *)
Definition queued (um : t) : list string := PriorityQueue.getItems (queue um).

(** The queue was built with the capacity of the configuration, as the
    constructor does. *)
Definition consistent (um : t) : Prop :=
  PriorityQueue.maxSize (queue um) = cfg_maxSize (config um).

(** A caller's use of the frontier: a sequence of awaited method calls. *)
Inductive op := Enqueue (url : string) (priority : Z) | Dequeue | Clear.

Definition step (um : t) (o : op) : t :=
  match o with
  | Enqueue url priority => fst (enqueue um url priority)
  | Dequeue => fst (dequeue um)
  | Clear => clear um
  end.

Definition run (ops : list op) (um : t) : t := fold_left step ops um.

Definition is_clear (o : op) : bool :=
  match o with Clear => true | _ => false end.

(** The keys of the payloads waiting in the frontier. *)
Definition queued_keys (um : t) : list string := map normalizeUrl (queued um).

(** What the frontier keeps: the queue has the configured capacity and
    stays within it, no two queued payloads have the same key, and the
    key of every queued payload is marked visited. *)
Definition tidy (um : t) : Prop :=
  consistent um
  /\ PriorityQueue.size (queue um) <= cfg_maxSize (config um)
  /\ List.NoDup (queued_keys um)
  /\ (forall k, In k (queued_keys um) -> k ∈ visited um).

End WithParser.

End UrlManager.

(** ** utils/rate-limiter.ts *)

Module RateLimiter.

(** [interface TokenBucket { tokens: number; lastRefill: number }] *)
Record TokenBucket := mkBucket { tokens : Q; lastRefill : Q }.

(** The fields of the class.  A limit is a whole number of requests per
    second. *)
Record t := mkRateLimiter {
  buckets : gmap string TokenBucket;
  limits : gmap string Z;
  defaultLimit : Z
}.

(** [constructor(limits, defaultLimit = 1)] *)
Definition new (limits : gmap string Z) (defaultLimit : Z) : t :=
  {| buckets := ∅; limits := limits; defaultLimit := defaultLimit |}.

(** The property names that every object inherits.  Under one of them
    [this.limits[domain]] is not a limit unless the table has an entry
    of its own, so the statements on limits leave these names out. *)
Definition prototype_keys : list string :=
  ["constructor"; "__proto__"; "hasOwnProperty"; "isPrototypeOf";
   "propertyIsEnumerable"; "toLocaleString"; "toString"; "valueOf";
   "__defineGetter__"; "__defineSetter__"; "__lookupGetter__";
   "__lookupSetter__"].

(** [this.limits[domain] || this.defaultLimit]: a missing entry and the
    falsy number 0 both give the default. *)
Definition limit_of (rl : t) (domain : string) : Z :=
  match limits rl !! domain with
  | Some l => if l =? 0 then defaultLimit rl else l
  | None => defaultLimit rl
  end.

(** [Math.min] *)
Definition Qmin' (a b : Q) : Q := if Qle_bool a b then a else b.

(** [Math.floor] is [Qfloor]; [Math.trunc] rounds toward zero. *)
Definition Qtrunc (x : Q) : Z := if Qle_bool 0 x then Qfloor x else Qceiling x.

(** The remainder operator [a % b] of JavaScript: the sign of the result
    is the sign of the dividend. *)
Definition js_rem (a b : Q) : Q := (a - b * inject_Z (Qtrunc (a / b)))%Q.

(** [getBucket(domain)]; [clock] is the value [Date.now()] returns when
    the bucket has to be created. *)
Definition getBucket (rl : t) (domain : string) (clock : Z) : t * TokenBucket :=
  match buckets rl !! domain with
  | Some b => (rl, b)
  | None =>
      let b := {| tokens := inject_Z (limit_of rl domain);
                  lastRefill := inject_Z clock |} in
      ({| buckets := <[domain := b]> (buckets rl);
          limits := limits rl;
          defaultLimit := defaultLimit rl |}, b)
  end.

(** What one run of the body of [acquire] comes to: a token was taken, or
    the caller sleeps [waitTime] milliseconds and calls [acquire] again. *)
Inductive outcome := Acquired | Sleep (waitTime : Q).

(** [const refillRate = 1000 / limit], in milliseconds per token.  The
    numbers of the code are doubles and those below are rationals: the
    two agree where every intermediate value is a whole number below
    2^53, which is so for whole clock readings and a limit that divides
    1000; for another limit the quotient is rounded in the code. *)
Definition refillRate (limit : Z) : Q := (1000 / inject_Z limit)%Q.

(** The refill of the bucket in [acquire], at clock value [now]. *)
Definition refill (limit : Z) (b : TokenBucket) (now : Z) : TokenBucket :=
  let timePassed := (inject_Z now - lastRefill b)%Q in
  let tokensToAdd := Qfloor (timePassed / refillRate limit) in
  {| tokens := Qmin' (inject_Z limit) (tokens b + inject_Z tokensToAdd);
     lastRefill := (inject_Z now - js_rem timePassed (refillRate limit))%Q |}.

(** The body of [acquire] up to its [await] or its end.  [clock] is the
    reading of [Date.now()] inside [getBucket], [now] the reading in
    [acquire] itself.  The bucket object is shared with the map, so the
    refill is stored in both branches. *)
Definition acquire_once (rl : t) (domain : string) (clock now : Z) : t * outcome :=
  let (rl1, bucket) := getBucket rl domain clock in
  let limit := limit_of rl1 domain in
  let b1 := refill limit bucket now in
  if Qlt_le_dec (tokens b1) 1 then
    let waitTime := (refillRate limit - (inject_Z now - lastRefill b1))%Q in
    ({| buckets := <[domain := b1]> (buckets rl1);
        limits := limits rl1;
        defaultLimit := defaultLimit rl1 |}, Sleep waitTime)
  else
    ({| buckets := <[domain := {| tokens := (tokens b1 - 1)%Q;
                                  lastRefill := lastRefill b1 |}]> (buckets rl1);
        limits := limits rl1;
        defaultLimit := defaultLimit rl1 |}, Acquired).

(** [updateLimit(domain, limit)] *)
Definition updateLimit (rl : t) (domain : string) (limit : Z) : t :=
  {| buckets := delete domain (buckets rl);
     limits := <[domain := limit]> (limits rl);
     defaultLimit := defaultLimit rl |}.

(** One run of the body of [acquire], as the scheduler sees it: the
    domain and the two clock readings. *)
Record attempt := mkAttempt { a_domain : string; a_clock : Z; a_now : Z }.

(** A history of such runs, in the order in which they happen, with the
    outcome of each.  Every interleaving of [acquire] calls, first calls
    and calls again after a sleep alike, is such a history, because the
    body runs to its [await] without interruption. *)
Fixpoint history (rl : t) (atts : list attempt) : list (attempt * outcome) :=
  match atts with
  | [] => []
  | a :: rest =>
      let (rl', o) := acquire_once rl (a_domain a) (a_clock a) (a_now a) in
      (a, o) :: history rl' rest
  end.

Definition is_acquired (o : outcome) : bool :=
  match o with Acquired => true | Sleep _ => false end.

(** The limiter after the runs of a history. *)
Fixpoint state_after (rl : t) (atts : list attempt) : t :=
  match atts with
  | [] => rl
  | a :: rest =>
      state_after (fst (acquire_once rl (a_domain a) (a_clock a) (a_now a))) rest
  end.

(** The clock value reached at the end of a history that started when
    the clock showed [first]. *)
Fixpoint last_clock (first : Z) (atts : list attempt) : Z :=
  match atts with
  | [] => first
  | a :: rest => last_clock (a_now a) rest
  end.

(** Is this entry of a history an acquisition of [domain] completed at a
    clock value in the window from [t] to [t + 1000], both ends included? *)
Definition counted (domain : string) (t : Z) (ao : attempt * outcome) : bool :=
  String.eqb (a_domain (fst ao)) domain
  && is_acquired (snd ao)
  && (t <=? a_now (fst ao)) && (a_now (fst ao) <=? t + 1000).

(** The number of these acquisitions in a history. *)
Definition acquired_in_window (domain : string) (t : Z)
  (h : list (attempt * outcome)) : nat :=
  List.length (List.filter (counted domain t) h).

(** Is this a run of [acquire] for [domain]? *)
Definition on_domain (domain : string) (a : attempt) : bool :=
  String.eqb (a_domain a) domain.

(** The bucket that [getBucket] answers with. *)
Definition bucket_of (rl : t) (d : string) (clock : Z) : TokenBucket :=
  match buckets rl !! d with
  | Some b => b
  | None => {| tokens := inject_Z (limit_of rl d); lastRefill := inject_Z clock |}
  end.

(** The bucket as a run of [acquire] leaves it. *)
Definition bucket_after (rl : t) (d : string) (clock now : Z) : TokenBucket :=
  let b1 := refill (limit_of rl d) (bucket_of rl d clock) now in
  if Qlt_le_dec (tokens b1) 1 then b1
  else {| tokens := (tokens b1 - 1)%Q; lastRefill := lastRefill b1 |}.

(** The state in which a bucket of limit [L] may be found once the clock
    has reached [last]: between 0 and [L] tokens, and a last refill that
    is not in the future. *)
Definition bucket_ok (L : Z) (b : TokenBucket) (last : Z) : Prop :=
  (0 <= tokens b /\ tokens b <= inject_Z L /\ lastRefill b <= inject_Z last)%Q.

(** Clock readings never go back, neither inside one run nor from one
    run to the next. *)
(** The limits and clock readings on which the arithmetic of [acquire]
    is exact: the refill interval [1000 / limit] is a whole number of
    milliseconds, and the readings are time values. *)
Definition exact_arithmetic (limit first last : Z) : Prop :=
  (limit | 1000) /\ 0 <= first /\ last < 2 ^ 53.

Fixpoint clock_monotone (last : Z) (atts : list attempt) : Prop :=
  match atts with
  | [] => True
  | a :: rest => last <= a_clock a /\ a_clock a <= a_now a
                 /\ clock_monotone (a_now a) rest
  end.

End RateLimiter.

(** ** The platform's [RegExp], as far as [matchesPattern] needs it *)

Module RegExp.

(** One character of the input: a given character, or [.], which matches
    every character but a line terminator. *)
Inductive atom := Lit (c : ascii) | Dot.

(** The pieces of a pattern: an atom, an atom under [*], and the two
    assertions [^] and [$]. *)
Inductive piece := One (a : atom) | Many (a : atom) | Bol | Eol.

Definition t := list piece.

Definition is_line_terminator (c : ascii) : bool :=
  Ascii.eqb c "010" || Ascii.eqb c "013".

Definition is_word_char (c : ascii) : bool :=
  URL.is_lower c || URL.is_upper c || URL.is_digit c || Ascii.eqb c "_".

(** The characters that have a meaning of their own in a pattern and that
    this fragment does not cover. *)
Definition is_uncovered (c : ascii) : bool :=
  Ascii.eqb c "+" || Ascii.eqb c "?" || Ascii.eqb c "(" || Ascii.eqb c ")"
  || Ascii.eqb c "[" || Ascii.eqb c "]" || Ascii.eqb c "{" || Ascii.eqb c "}"
  || Ascii.eqb c "|".

(** The atom at the head of the source text, and the rest; [None] at the
    end of the text, before an assertion, and outside the fragment.  A
    backslash before a character that is not a letter, a digit or [_]
    stands for that character. *)
Definition read_atom (s : string) : option (atom * string) :=
  match s with
  | String "\" (String c rest) =>
      if is_word_char c then None else Some (Lit c, rest)
  | String "\" EmptyString => None
  | String "." rest => Some (Dot, rest)
  | String c rest =>
      if is_uncovered c || Ascii.eqb c "*" || Ascii.eqb c "^" || Ascii.eqb c "$"
      then None
      else Some (Lit c, rest)
  | EmptyString => None
  end.

(** [new RegExp(source)] on the fragment made of characters, escaped
    characters, [.], [*] after one of these, [^] and [$]; [None] on any
    other source text, a [*] with nothing to repeat included.  [fuel]
    bounds the number of pieces and is the length of the text. *)
Fixpoint compile_fuel (fuel : nat) (s : string) : option t :=
  match fuel with
  | O => match s with EmptyString => Some [] | _ => None end
  | S fuel' =>
      match s with
      | EmptyString => Some []
      | String "^" rest => option_map (cons Bol) (compile_fuel fuel' rest)
      | String "$" rest => option_map (cons Eol) (compile_fuel fuel' rest)
      | _ =>
          match read_atom s with
          | None => None
          | Some (a, String "*" rest) =>
              option_map (cons (Many a)) (compile_fuel fuel' rest)
          | Some (a, rest) =>
              option_map (cons (One a)) (compile_fuel fuel' rest)
          end
      end
  end.

Definition compile (source : string) : option t :=
  compile_fuel (String.length source) source.

Definition atom_matches (a : atom) (c : ascii) : bool :=
  match a with
  | Lit c' => Ascii.eqb c' c
  | Dot => negb (is_line_terminator c)
  end.

(** Does the pattern match a prefix of [s]?  [bol] tells whether [s]
    starts at the beginning of the input. *)
Fixpoint match_here (r : t) (bol : bool) (s : string) : bool :=
  match r with
  | [] => true
  | Bol :: r' => bol && match_here r' bol s
  | Eol :: r' =>
      match s with
      | EmptyString => match_here r' bol s
      | _ => false
      end
  | One a :: r' =>
      match s with
      | String c s' => atom_matches a c && match_here r' false s'
      | EmptyString => false
      end
  | Many a :: r' =>
      (fix star (bol : bool) (s : string) : bool :=
         match_here r' bol s
         || match s with
            | String c s' => atom_matches a c && star false s'
            | EmptyString => false
            end) bol s
  end.

(** Does the pattern match at some later position of the input? *)
Fixpoint match_later (r : t) (s : string) : bool :=
  match s with
  | EmptyString => false
  | String _ s' => match_here r false s' || match_later r s'
  end.

(** [regex.test(s)]: the pattern matches somewhere in [s]. *)
Definition test (r : t) (s : string) : bool :=
  match_here r true s || match_later r s.

End RegExp.

(** ** utils/robots-parser.ts *)

Module RobotsParser.

(** [interface RobotsRule { pattern: string; allow: boolean }] *)
Record RobotsRule := mkRule { pattern : string; allow : bool }.

(** [interface RobotsCache] *)
Record RobotsCache := mkCache {
  rules : list RobotsRule;
  crawlDelay : Z;
  fetchTime : Z;
  expires : Z
}.

(** [s.replace(/c/g, by)]: every occurrence of the character [c] becomes
    the text [by]. *)
Fixpoint replace_all (c : ascii) (by_ : string) (s : string) : string :=
  match s with
  | EmptyString => EmptyString
  | String x s' =>
      if Ascii.eqb x c then by_ ++ replace_all c by_ s'
      else String x (replace_all c by_ s')
  end.

(** The source text of the regular expression that [matchesPattern]
    builds, its four replacements in the order of the code. *)
Definition pattern_source (pattern : string) : string :=
  "^" ++
  replace_all "." "\."
    (replace_all "$" "\$"
       (replace_all "?" "\?"
          (replace_all "*" ".*" pattern)))
  ++ ".*$".

(** [matchesPattern(path, pattern)]; [None] when the source text is
    outside the fragment of [RegExp.compile]. *)
Definition matchesPattern (path pattern : string) : option bool :=
  match RegExp.compile (pattern_source pattern) with
  | Some regex => Some (RegExp.test regex path)
  | None => None
  end.

(** [rules.filter(rule => this.matchesPattern(pathname, rule.pattern))] *)
Fixpoint filter_matching (pathname : string) (rs : list RobotsRule)
  : option (list RobotsRule) :=
  match rs with
  | [] => Some []
  | r :: rest =>
      match matchesPattern pathname (pattern r), filter_matching pathname rest with
      | Some true, Some l => Some (r :: l)
      | Some false, Some l => Some l
      | _, _ => None
      end
  end.

(** [Array.prototype.sort] with the comparator
    [(a, b) => b.pattern.length - a.pattern.length]: a stable sort, longest
    pattern first.  The rules are inserted from the last to the first, each
    before the rules that are not longer, so rules of equal length keep
    their order. *)
Fixpoint insert_by_length (r : RobotsRule) (sorted : list RobotsRule) : list RobotsRule :=
  match sorted with
  | [] => [r]
  | x :: rest =>
      if (String.length (pattern x) <=? String.length (pattern r))%nat
      then r :: x :: rest
      else x :: insert_by_length r rest
  end.

Definition sort_by_length (rs : list RobotsRule) : list RobotsRule :=
  fold_right insert_by_length [] rs.

(** The pattern of [r'] is not longer than the pattern of [r]. *)
Definition no_longer_than (r r' : RobotsRule) : Prop :=
  (String.length (pattern r') <= String.length (pattern r))%nat.

(** The body of [isAllowed] once [getRules] has answered with [rs], on the
    path name of the URL. *)
Definition isAllowed_rules (rs : list RobotsRule) (pathname : string) : option bool :=
  match rs with
  | [] => Some true
  | _ =>
      match filter_matching pathname rs with
      | None => None
      | Some matching =>
          match sort_by_length matching with
          | matchingRule :: _ => Some (allow matchingRule)
          | [] => Some true
          end
      end
  end.

(** [getRules(domain)] on the cache: the cached rules while they have not
    expired; [None] when the robots file has to be fetched. *)
Definition getRules (cache : gmap string RobotsCache) (now : Z) (domain : string)
  : option (list RobotsRule) :=
  match cache !! domain with
  | Some cached => if now <? expires cached then Some (rules cached) else None
  | None => None
  end.

(** [isAllowed(url)] when the rules of the origin are cached and fresh. *)
Definition isAllowed (URL_new : URL.parser) (cache : gmap string RobotsCache)
  (now : Z) (url : string) : option bool :=
  match URL_new url with
  | None => None
  | Some u =>
      match getRules cache now (URL.origin u) with
      | None => None
      | Some rs => isAllowed_rules rs (URL.pathname u)
      end
  end.

(** *** The robots file *)

(** [s.split(sep)] for a separator of one character: the pieces between
    the separators, at least one piece. *)
Fixpoint split_on (sep : ascii) (s : string) : list string :=
  match s with
  | EmptyString => [EmptyString]
  | String c s' =>
      if Ascii.eqb c sep then EmptyString :: split_on sep s'
      else match split_on sep s' with
           | piece :: pieces => String c piece :: pieces
           | [] => [String c EmptyString]
           end
  end.

(** [pieces.join(sep)] *)
Fixpoint join (sep : string) (pieces : list string) : string :=
  match pieces with
  | [] => EmptyString
  | [piece] => piece
  | piece :: rest => piece ++ sep ++ join sep rest
  end.

(** The white space that [trim] removes, among the characters of ASCII:
    tab, line feed, vertical tab, form feed, carriage return, space. *)
Definition is_space (c : ascii) : bool :=
  let n := nat_of_ascii c in ((9 <=? n)%nat && (n <=? 13)%nat) || (n =? 32)%nat.

Fixpoint trim_start (s : string) : string :=
  match s with
  | EmptyString => EmptyString
  | String c s' => if is_space c then trim_start s' else s
  end.

Fixpoint trim_end (s : string) : string :=
  match s with
  | EmptyString => EmptyString
  | String c s' =>
      match trim_end s' with
      | EmptyString => if is_space c then EmptyString else String c EmptyString
      | r => String c r
      end
  end.

(** [s.trim()], on text in ASCII *)
Definition trim (s : string) : string := trim_end (trim_start s).

Definition lower (c : ascii) : ascii :=
  if URL.is_upper c then ascii_of_nat (nat_of_ascii c + 32) else c.

(** [s.toLowerCase()], on text in ASCII *)
Fixpoint toLowerCase (s : string) : string :=
  match s with
  | EmptyString => EmptyString
  | String c s' => String (lower c) (toLowerCase s')
  end.

(** The decimal digits at the head of a string, as a number, most
    significant first; [acc] is the number read so far and the flag tells
    whether a digit was read. *)
Fixpoint digits (acc : Z) (seen : bool) (s : string) : option Z :=
  match s with
  | String c s' =>
      if URL.is_digit c
      then digits (10 * acc + Z.of_nat (nat_of_ascii c - 48)) true s'
      else if seen then Some acc else None
  | EmptyString => if seen then Some acc else None
  end.

(** [parseInt(s, 10)] on a trimmed string: an optional sign and the
    digits that follow; [None] stands for [NaN]. *)
Definition parseInt (s : string) : option Z :=
  match s with
  | String "-" s' => option_map Z.opp (digits 0 false s')
  | String "+" s' => digits 0 false s'
  | _ => digits 0 false s
  end.

(** The three variables of the loop of [fetchRobotsTxt]; the delay is
    [None] when it is [NaN], the agent is [None] while it is [null]. *)
Record parsing := mkParsing {
  p_rules : list RobotsRule;
  p_crawlDelay : option Z;
  currentUserAgent : option string
}.

Definition parsing_start : parsing :=
  {| p_rules := []; p_crawlDelay := Some 0; currentUserAgent := None |}.

Definition agent_in_scope (userAgent : string) (st : parsing) : bool :=
  match currentUserAgent st with
  | Some a => String.eqb a "*" || String.eqb a userAgent
  | None => false
  end.

(** The body of the loop over the lines of the robots file. *)
Definition parse_line (userAgent : string) (st : parsing) (line : string) : parsing :=
  let parts := split_on ":" line in
  let field := List.hd EmptyString parts in
  let value := trim (join ":" (List.tl parts)) in
  if String.eqb field "" || String.eqb value "" then st
  else
    let fieldLower := trim (toLowerCase field) in
    if String.eqb fieldLower "user-agent" then
      {| p_rules := p_rules st; p_crawlDelay := p_crawlDelay st;
         currentUserAgent := Some value |}
    else if agent_in_scope userAgent st then
      if String.eqb fieldLower "allow" then
        {| p_rules := p_rules st ++ [{| pattern := value; allow := true |}];
           p_crawlDelay := p_crawlDelay st;
           currentUserAgent := currentUserAgent st |}
      else if String.eqb fieldLower "disallow" then
        {| p_rules := p_rules st ++ [{| pattern := value; allow := false |}];
           p_crawlDelay := p_crawlDelay st;
           currentUserAgent := currentUserAgent st |}
      else if String.eqb fieldLower "crawl-delay" then
        {| p_rules := p_rules st;
           p_crawlDelay := option_map (fun n => n * 1000) (parseInt value);
           currentUserAgent := currentUserAgent st |}
      else st
    else st.

(** The line names the crawler's agent, or every agent, in a
    [User-agent] field. *)
Definition names_agent (userAgent : string) (line : string) : bool :=
  let parts := split_on ":" line in
  let value := trim (join ":" (List.tl parts)) in
  String.eqb (trim (toLowerCase (List.hd EmptyString parts))) "user-agent"
  && (String.eqb value "*" || String.eqb value userAgent).

(** The pattern of the rule is not empty and has no white space around
    it. *)
Definition well_formed (r : RobotsRule) : Prop :=
  pattern r <> EmptyString /\ trim (pattern r) = pattern r.

(** The loop over [response.data.split('\n')]. *)
Definition parse_robots (userAgent : string) (data : string) : parsing :=
  fold_left (parse_line userAgent) (split_on "010" data) parsing_start.

(** [cacheExpiration], one hour in milliseconds *)
Definition cacheExpiration : Z := 3600000.

(** The entry cached when the robots file cannot be fetched. *)
Definition permissive (now : Z) : RobotsCache :=
  {| rules := []; crawlDelay := 0; fetchTime := now;
     expires := now + cacheExpiration |}.

(** [fetchRobotsTxt(domain)]: the cache afterwards and the entry
    returned.  [response] is the text of the robots file when the GET
    resolves with a text, and [None] when the GET is rejected (no answer,
    or a status outside 2xx) or its body is not a text; [now] is the
    reading of [Date.now()].  The answer is [None] when the file sets a
    crawl delay that is not a number, which the field of [RobotsCache]
    does not hold. *)
Definition fetchRobotsTxt (userAgent : string) (cache : gmap string RobotsCache)
  (now : Z) (domain : string) (response : option string)
  : option (gmap string RobotsCache * RobotsCache) :=
  match response with
  | None => Some (<[domain := permissive now]> cache, permissive now)
  | Some data =>
      let st := parse_robots userAgent data in
      match p_crawlDelay st with
      | Some delay =>
          let entry := {| rules := p_rules st; crawlDelay := delay;
                          fetchTime := now; expires := now + cacheExpiration |} in
          Some (<[domain := entry]> cache, entry)
      | None => None
      end
  end.

(** [getRules(domain)], the fetch included. *)
Definition getRules_or_fetch (userAgent : string) (cache : gmap string RobotsCache)
  (now : Z) (domain : string) (response : option string)
  : option (gmap string RobotsCache * list RobotsRule) :=
  match getRules cache now domain with
  | Some rs => Some (cache, rs)
  | None =>
      option_map (fun ce => (fst ce, rules (snd ce)))
                 (fetchRobotsTxt userAgent cache now domain response)
  end.

(** [isAllowed(url)], the fetch included: the cache afterwards and the
    answer. *)
Definition isAllowed_or_fetch (URL_new : URL.parser) (userAgent : string)
  (cache : gmap string RobotsCache) (now : Z) (url : string)
  (response : option string) : option (gmap string RobotsCache * bool) :=
  match URL_new url with
  | None => None
  | Some u =>
      match getRules_or_fetch userAgent cache now (URL.origin u) response with
      | None => None
      | Some (cache', rs) =>
          option_map (fun b => (cache', b)) (isAllowed_rules rs (URL.pathname u))
      end
  end.

(** [getCrawlDelay(domain)]: an entry of the cache answers whatever its
    age; without one the file is fetched, and a delay of 0 read from the
    new entry stays 0. *)
Definition getCrawlDelay (userAgent : string) (cache : gmap string RobotsCache)
  (now : Z) (domain : string) (response : option string)
  : option (gmap string RobotsCache * Z) :=
  match cache !! domain with
  | Some cached => Some (cache, crawlDelay cached)
  | None =>
      match fetchRobotsTxt userAgent cache now domain response with
      | Some (cache', _) =>
          Some (cache', match cache' !! domain with
                        | Some c => crawlDelay c
                        | None => 0
                        end)
      | None => None
      end
  end.

(** [clearCache()] *)
Definition clearCache (cache : gmap string RobotsCache) : gmap string RobotsCache := ∅.

(** The characters of a rule's pattern that [matchesPattern] takes for
    themselves: all but the star and the characters that the regular
    expression reads as operators and that are not escaped. *)
Definition is_literal (c : ascii) : bool :=
  negb (Ascii.eqb c "*" || Ascii.eqb c "+" || Ascii.eqb c "(" || Ascii.eqb c ")"
        || Ascii.eqb c "[" || Ascii.eqb c "]" || Ascii.eqb c "{" || Ascii.eqb c "}"
        || Ascii.eqb c "|" || Ascii.eqb c "^" || Ascii.eqb c "\").

(** What is left of [path] after [pattern], when [path] starts with
    it. *)
Fixpoint after_prefix (pattern path : string) : option string :=
  match pattern with
  | EmptyString => Some path
  | String c pattern' =>
      match path with
      | String d path' => if Ascii.eqb c d then after_prefix pattern' path' else None
      | EmptyString => None
      end
  end.

(** The path starts with the pattern and goes on without a line
    terminator. *)
Definition starts_with (pattern path : string) : bool :=
  match after_prefix pattern path with
  | Some rest => URL.all_chars (fun c => negb (RegExp.is_line_terminator c)) rest
  | None => false
  end.

(** The matching that the comment of [matchesPattern] and the
    specification describe, written from their words and not from the
    code: the pattern is anchored at the start of the path, a [*] stands
    for any substring, every other character for itself, and the path may
    go on after the pattern. *)
Fixpoint spec_matches (pattern path : string) : bool :=
  match pattern with
  | EmptyString => true
  | String "*" pattern' =>
      (fix any (path : string) : bool :=
         spec_matches pattern' path
         || match path with
            | String _ path' => any path'
            | EmptyString => false
            end) path
  | String c pattern' =>
      match path with
      | String d path' => Ascii.eqb c d && spec_matches pattern' path'
      | EmptyString => false
      end
  end.

End RobotsParser.

(** ** core/crawler.ts *)

Module Crawler.

(** [interface CrawlerConfig] and [interface PolicyConfig] of
    [interfaces.ts] *)
Record CrawlerConfig := mkCrawlerConfig {
  maxConcurrentRequests : Z;
  requestTimeout : Z;
  retryAttempts : Z;
  retryDelay : Z;
  userAgent : string
}.

Record PolicyConfig := mkPolicyConfig {
  rateLimits : gmap string Z;
  robotsTxtEnforcement : bool;
  crawlDelay : Z
}.

(** An HTTP response as the client hands it over. *)
Record Response := mkResponse {
  status : Z;
  statusText : string;
  data : string;
  headers : list (string * string)
}.

(** [interface CrawlResult] *)
Record CrawlResult := mkCrawlResult {
  r_url : string;
  content : string;
  statusCode : Z;
  r_headers : list (string * string);
  timestamp : string;
  contentType : option string;
  contentLength : option string;
  lastModified : option string
}.

(** What the network does with one GET: a response of the server, or a
    failure of the connection with its error code. *)
Inductive wire := Answered (r : Response) | Failed (code : string).

(** The HTTP client's [get]: a response whose status passes
    [validateStatus] resolves the call, any other response rejects it with
    an error that carries the response and the code the client gives to
    its class of status, and a connection failure rejects it with an
    error that carries the code. *)
Definition axios_get (validateStatus : Z -> bool) (w : wire) : completion Response :=
  match w with
  | Answered r =>
      if validateStatus (status r) then Normal r
      else Throw {| code := if (400 <=? status r) && (status r <? 500)
                            then Some "ERR_BAD_REQUEST"
                            else if (500 <=? status r) && (status r <? 600)
                                 then Some "ERR_BAD_RESPONSE"
                                 else None;
                    response := Some (status r, statusText r);
                    message := "Request failed with status code " ++ pretty (status r) |}
  | Failed c => Throw {| code := Some c; response := None; message := c |}
  end.

(** What surrounds the crawler: the answer of [robotsParser.isAllowed],
    the URL parser, the network (the outcome of the GET number [n] of the
    crawler's own client, counted from 0) and the clock for the time
    stamp of a result.  The request for the robots file that
    [isAllowed] may send is part of its answer and is not among these
    GETs, and [rateLimiter.acquire] is taken to return. *)
Record World := mkWorld {
  robots : string -> completion bool;
  URL_new : URL.parser;
  net : nat -> string -> wire;
  today : string
}.

(** The crawler: its HTTP client, as [axios.create] configured it, and the
    two configurations.  The rate limiter and the robots parser are
    reached through the world. *)
Record t := mkCrawler {
  httpClient : nat -> string -> completion Response;
  config : CrawlerConfig;
  policyConfig : PolicyConfig;
  world : World
}.

(** [constructor(config, policyConfig)], with
    [validateStatus: (status) => status < 500]. *)
Definition new (config : CrawlerConfig) (policyConfig : PolicyConfig) (w : World) : t :=
  {| httpClient := fun n url => axios_get (fun status => status <? 500) (net w n url);
     config := config;
     policyConfig := policyConfig;
     world := w |}.

(** What a run of [crawl] does that can be observed from outside. *)
Inductive event :=
| EvRobots (url : string)
| EvAcquire (domain : string)
| EvGet (url : string)
| EvSleep (ms : Z).

(** The run so far: the number of GETs issued and the events, oldest
    first. *)
Record Run := mkRun { gets : nat; log : list event }.

Definition start : Run := {| gets := 0; log := [] |}.

Definition emit (e : event) (st : Run) : Run :=
  {| gets := gets st; log := log st ++ [e] |}.

Definition count_get (st : Run) : Run :=
  {| gets := S (gets st); log := log st |}.

Definition header (name : string) (hs : list (string * string)) : option string :=
  option_map snd (List.find (fun kv => String.eqb (fst kv) name) hs).

(** The object that [crawl] returns for a response. *)
Definition result_of (url now : string) (response : Response) : CrawlResult :=
  {| r_url := url;
     content := data response;
     statusCode := status response;
     r_headers := headers response;
     timestamp := now;
     contentType := header "content-type" (headers response);
     contentLength := header "content-length" (headers response);
     lastModified := header "last-modified" (headers response) |}.

(** The [try] block of [crawl]. *)
Definition attempt (c : t) (url : string) (st : Run) : completion CrawlResult * Run :=
  let check :=
    if robotsTxtEnforcement (policyConfig c) then
      match robots (world c) url with
      | Normal true => (Normal tt, emit (EvRobots url) st)
      | Normal false =>
          (Throw (Error "URL not allowed by robots.txt"), emit (EvRobots url) st)
      | Throw e => (Throw e, emit (EvRobots url) st)
      end
    else (Normal tt, st) in
  match check with
  | (Throw e, st1) => (Throw e, st1)
  | (Normal _, st1) =>
      match URL_new (world c) url with
      | None =>
          (Throw {| code := Some "ERR_INVALID_URL"; response := None;
                    message := "Invalid URL" |}, st1)
      | Some u =>
          let st2 := emit (EvAcquire (URL.hostname u)) st1 in
          let st3 := count_get (emit (EvGet url) st2) in
          match httpClient c (gets st2) url with
          | Throw e => (Throw e, st3)
          | Normal response => (Normal (result_of url (today (world c)) response), st3)
          end
      end
  end.

Definition has_code (e : JsError) (c : string) : bool :=
  match code e with
  | Some c' => String.eqb c' c
  | None => false
  end.

Definition isRetryableError (e : JsError) : bool :=
  has_code e "ECONNRESET"
  || has_code e "ETIMEDOUT"
  || has_code e "ECONNREFUSED"
  || match response e with
     | Some (status, _) => status >=? 500
     | None => false
     end.

Definition normalizeError (e : JsError) : JsError :=
  match response e with
  | Some (status, statusText) =>
      Error ("HTTP " ++ pretty status ++ ": " ++ statusText)
  | None => e
  end.

Definition getRetryDelay (c : t) (retryCount : Z) : Z :=
  Z.min (retryDelay (config c) * 2 ^ retryCount) 30000.

(** How far a call has come: it returned, it threw, or it has not settled
    within the depth of calls explored. *)
Inductive settled := Returned (r : CrawlResult) | Thrown (e : JsError) | Unsettled.

(** The [while] loop of [handleRetry], from [retryCount] and [lastError]
    on; [crawl] is the method it calls back.  [n] bounds the number of
    rounds, and [retryAttempts] rounds are all the loop can make. *)
Fixpoint handleRetry_loop (c : t) (crawl : string -> Run -> settled * Run)
  (n : nat) (retryCount : Z) (lastError : JsError) (url : string) (st : Run)
  : settled * Run :=
  match n with
  | O => (Thrown (normalizeError lastError), st)
  | S n' =>
      if retryCount <? retryAttempts (config c) then
        let st1 := emit (EvSleep (getRetryDelay c retryCount)) st in
        match crawl url st1 with
        | (Returned r, st2) => (Returned r, st2)
        | (Thrown err, st2) => handleRetry_loop c crawl n' (retryCount + 1) err url st2
        | (Unsettled, st2) => (Unsettled, st2)
        end
      else (Thrown (normalizeError lastError), st)
  end.

Definition handleRetry (c : t) (crawl : string -> Run -> settled * Run)
  (url : string) (error : JsError) (st : Run) : settled * Run :=
  handleRetry_loop c crawl (Z.to_nat (retryAttempts (config c))) 0 error url st.

(** [crawl(url)].  [depth] bounds how deeply [crawl] and [handleRetry]
    may call each other; a call that would go deeper is [Unsettled]. *)
Fixpoint crawl (depth : nat) (c : t) (url : string) (st : Run) : settled * Run :=
  match depth with
  | O => (Unsettled, st)
  | S depth' =>
      match attempt c url st with
      | (Normal r, st1) => (Returned r, st1)
      | (Throw e, st1) =>
          if isRetryableError e then handleRetry c (crawl depth' c) url e st1
          else (Thrown (normalizeError e), st1)
      end
  end.

Definition is_sleep (e : event) : bool :=
  match e with EvSleep _ => true | _ => false end.

(** The delays slept during a run, oldest first. *)
Definition sleeps (st : Run) : list Z :=
  flat_map (fun e => match e with EvSleep ms => [ms] | _ => [] end) (log st).

End Crawler.

(** ** core/parser.ts *)

Module Parser.

(** [interface ParserConfig]; [selectors] holds the entries of the record
    in the order of [Object.entries], each key once. *)
Record ParserConfig := mkParserConfig {
  selectors : list (string * string);
  timeout : Z;
  encoding : string;
  validateOutput : bool
}.

(** What the extraction stores under a key: [null], a text, an array of
    texts, or an object that the library hands back for an attribute. *)
Inductive value := Null | Str (s : string) | Arr (l : list string) | Other.

(** [interface ParseResult] *)
Record ParseResult := mkParseResult {
  data : gmap string value;
  r_selectors : list (string * string);
  r_timestamp : string;
  processingTime : Z;
  r_encoding : string;
  contentLength : Z
}.

(** [selector.endsWith(suffix)] *)
Fixpoint endsWith (s suffix : string) : bool :=
  String.eqb s suffix
  || match s with
     | String _ s' => endsWith s' suffix
     | EmptyString => false
     end.

(** [selector.includes('@')], for a character *)
Fixpoint includes (c : ascii) (s : string) : bool :=
  match s with
  | EmptyString => false
  | String x s' => Ascii.eqb x c || includes c s'
  end.

Definition isArraySelector (selector : string) : bool := endsWith selector "[]".

Definition isAttributeSelector (selector : string) : bool := includes "@" selector.

(** [selector.replace(/\[\]$/, '')]: the two brackets at the very end of
    the string go. *)
Fixpoint drop_brackets (s : string) : string :=
  match s with
  | String "[" (String "]" EmptyString) => EmptyString
  | String c s' => String c (drop_brackets s')
  | EmptyString => EmptyString
  end.

(** [v || null] *)
Definition or_null (v : value) : value :=
  match v with
  | Str EmptyString => Null
  | _ => v
  end.

(** [result[key] = v] on a plain object, as far as its own keys go. *)
Definition assign (result : gmap string value) (key : string) (v : value)
  : gmap string value :=
  if String.eqb key "__proto__" then result else <[key := v]> result.

Section Cheerio.

(** The library that reads the document.  [load] is [cheerio.load] and
    [select doc selector] is [$(selector)], which throws on a selector
    it cannot read; on the set of elements selected, [count] is [.length],
    [text] is [.text()], [texts] lists [$(el).text()] for the elements in
    their order, and [attr] is [.attr(name)], with [Null] for
    [undefined]. *)
Variables Doc Selection : Type.
Variable load : string -> completion Doc.
Variable select : Doc -> string -> completion Selection.
Variable count : Selection -> nat.
Variable text : Selection -> string.
Variable texts : Selection -> list string.
Variable attr : Selection -> option string -> value.

(** [extractArray($, selector)] *)
Definition extractArray (doc : Doc) (selector : string) : completion value :=
  let arraySelector := drop_brackets selector in
  match select doc arraySelector with
  | Throw e => Throw e
  | Normal els =>
      Normal (Arr (List.filter (fun t => (0 <? String.length t)%nat)
                               (List.map RobotsParser.trim (texts els))))
  end.

(** [extractAttribute($, selector)]: the selector is cut at its [@]s, the
    first part selects and the second names the attribute; [None] stands
    for an attribute name that is [undefined]. *)
Definition extractAttribute (doc : Doc) (selector : string) : completion value :=
  let parts := RobotsParser.split_on "@" selector in
  let elementSelector := List.hd EmptyString parts in
  let attribute := List.nth_error parts 1 in
  match select doc elementSelector with
  | Throw e => Throw e
  | Normal element => Normal (or_null (attr element attribute))
  end.

(** [extractText($, selector)] *)
Definition extractText (doc : Doc) (selector : string) : completion value :=
  match select doc selector with
  | Throw e => Throw e
  | Normal element =>
      Normal (if (0 <? count element)%nat then Str (RobotsParser.trim (text element))
              else Null)
  end.

(** The body of the loop of [extractData] for one entry: the value
    stored under the key, [null] when the extraction throws. *)
Definition extract (doc : Doc) (selector : string) : value :=
  let attempt :=
    if isArraySelector selector then extractArray doc selector
    else if isAttributeSelector selector then extractAttribute doc selector
    else extractText doc selector in
  match attempt with
  | Normal v => v
  | Throw _ => Null
  end.

(** [extractData($, selectors)]: the own keys of the record it builds.
    The assignment [result[key] = v] makes [key] an own key of the
    record, but for the key [__proto__], which it does not add. *)
Definition extractData (doc : Doc) (entries : list (string * string))
  : gmap string value :=
  fold_left (fun result kv => assign result (fst kv) (extract doc (snd kv))) entries ∅.

(** [DataValidator.validate(data)] *)
Definition validate (d : gmap string value) : completion unit :=
  if (size d =? 0)%nat then Throw (Error "Validation failed: Empty data")
  else Normal tt.

(** [handleError(error)]: what is thrown here is an [Error] and is handed
    on as it is. *)
Definition handleError (e : JsError) : JsError := e.

(** [parse(html)]; [startTime] and [endTime] are the two readings of
    [Date.now()], [now] is the time stamp.  [html.length] is the number
    of characters of the text, taken to be in ASCII. *)
Definition parse (config : ParserConfig) (startTime endTime : Z) (now : string)
  (html : string) : completion ParseResult :=
  match load html with
  | Throw e => Throw (handleError e)
  | Normal doc =>
      let d := extractData doc (selectors config) in
      match (if validateOutput config then validate d else Normal tt) with
      | Throw e => Throw (handleError e)
      | Normal _ =>
          Normal {| data := d;
                    r_selectors := selectors config;
                    r_timestamp := now;
                    processingTime := endTime - startTime;
                    r_encoding := encoding config;
                    contentLength := Z.of_nat (String.length html) |}
      end
  end.

End Cheerio.

End Parser.

(** ** core/job-manager.ts *)

Module JobManager.

(** [CrawlTask['status']] and [JobStatus['status']] of [types/index.ts] *)
Inductive TaskState := TaskPending | TaskProcessing | TaskCompleted | TaskFailed.
Inductive JobState := JobRunning | JobPaused | JobCompleted | JobFailed.

(** [interface CrawlTask] *)
Record CrawlTask := mkTask {
  t_id : string;
  t_url : string;
  t_priority : Z;
  retryCount : Z;
  maxRetries : Z;
  t_status : TaskState;
  t_timestamp : string
}.

(** [interface JobStatus].  A task is an object that the job and the
    processing loop share: [tasks] holds the addresses of the task objects
    in the heap of the manager. *)
Record JobStatus := mkJob {
  j_id : string;
  tasks : list nat;
  completedTasks : Z;
  failedTasks : Z;
  startTime : string;
  endTime : option string;
  j_status : JobState
}.

(** The events of the [EventEmitter], with the value of their argument at
    the time of the emission. *)
Inductive event :=
| jobCompleted (job : JobStatus)
| jobPaused (jobId : string)
| jobResumed (jobId : string)
| jobCancelled (jobId : string)
| taskUpdated (task : CrawlTask).

Definition task_state_eqb (a b : TaskState) : bool :=
  match a, b with
  | TaskPending, TaskPending | TaskProcessing, TaskProcessing
  | TaskCompleted, TaskCompleted | TaskFailed, TaskFailed => true
  | _, _ => false
  end.

Definition job_state_eqb (a b : JobState) : bool :=
  match a, b with
  | JobRunning, JobRunning | JobPaused, JobPaused
  | JobCompleted, JobCompleted | JobFailed, JobFailed => true
  | _, _ => false
  end.

(** A [Map<string, V>]: its entries in insertion order. *)
Fixpoint map_get {V} (k : string) (m : list (string * V)) : option V :=
  match m with
  | [] => None
  | (k', v) :: rest => if String.eqb k' k then Some v else map_get k rest
  end.

(** [Map.prototype.set]: the value of an existing key is replaced where it
    stands, a new key goes to the end. *)
Fixpoint map_set {V} (k : string) (v : V) (m : list (string * V)) : list (string * V) :=
  match m with
  | [] => [(k, v)]
  | (k', v') :: rest =>
      if String.eqb k' k then (k, v) :: rest else (k', v') :: map_set k v rest
  end.

Section WithParser.
Variable URL_new : URL.parser.

(** The fields of the class that the methods below touch, the heap of
    task objects, and the events emitted so far, oldest first.  A job
    object is stored in [activeJobs] under its own [id]. *)
Record t := mkJobManager {
  urlManager : UrlManager.t;
  activeJobs : list (string * JobStatus);
  heap : list CrawlTask;
  isRunning : bool;
  emitted : list event
}.

(** [constructor(urlManager, crawler, parser, storage)] *)
Definition new (um : UrlManager.t) : t :=
  {| urlManager := um; activeJobs := []; heap := []; isRunning := false;
     emitted := [] |}.

Definition with_urlManager (jm : t) (um : UrlManager.t) : t :=
  {| urlManager := um; activeJobs := activeJobs jm; heap := heap jm;
     isRunning := isRunning jm; emitted := emitted jm |}.

Definition with_jobs (jm : t) (jobs : list (string * JobStatus)) : t :=
  {| urlManager := urlManager jm; activeJobs := jobs; heap := heap jm;
     isRunning := isRunning jm; emitted := emitted jm |}.

Definition with_heap (jm : t) (h : list CrawlTask) : t :=
  {| urlManager := urlManager jm; activeJobs := activeJobs jm; heap := h;
     isRunning := isRunning jm; emitted := emitted jm |}.

Definition with_running (jm : t) (b : bool) : t :=
  {| urlManager := urlManager jm; activeJobs := activeJobs jm; heap := heap jm;
     isRunning := b; emitted := emitted jm |}.

(** [this.emit(...)] *)
Definition emit (jm : t) (e : event) : t :=
  {| urlManager := urlManager jm; activeJobs := activeJobs jm; heap := heap jm;
     isRunning := isRunning jm; emitted := emitted jm ++ [e] |}.

Definition set_job_status (job : JobStatus) (s : JobState) : JobStatus :=
  {| j_id := j_id job; tasks := tasks job; completedTasks := completedTasks job;
     failedTasks := failedTasks job; startTime := startTime job;
     endTime := endTime job; j_status := s |}.

Definition set_endTime (job : JobStatus) (now : string) : JobStatus :=
  {| j_id := j_id job; tasks := tasks job; completedTasks := completedTasks job;
     failedTasks := failedTasks job; startTime := startTime job;
     endTime := Some now; j_status := j_status job |}.

Definition set_counts (job : JobStatus) (completed failed : Z) : JobStatus :=
  {| j_id := j_id job; tasks := tasks job; completedTasks := completed;
     failedTasks := failed; startTime := startTime job;
     endTime := endTime job; j_status := j_status job |}.

Definition set_tasks (job : JobStatus) (ts : list nat) : JobStatus :=
  {| j_id := j_id job; tasks := ts; completedTasks := completedTasks job;
     failedTasks := failedTasks job; startTime := startTime job;
     endTime := endTime job; j_status := j_status job |}.

Definition set_task_status (task : CrawlTask) (s : TaskState) : CrawlTask :=
  {| t_id := t_id task; t_url := t_url task; t_priority := t_priority task;
     retryCount := retryCount task; maxRetries := maxRetries task;
     t_status := s; t_timestamp := t_timestamp task |}.

Definition set_retryCount (task : CrawlTask) (n : Z) : CrawlTask :=
  {| t_id := t_id task; t_url := t_url task; t_priority := t_priority task;
     retryCount := n; maxRetries := maxRetries task;
     t_status := t_status task; t_timestamp := t_timestamp task |}.

(** A write to a field of the task object at address [a]. *)
Definition update_task (jm : t) (a : nat) (f : CrawlTask -> CrawlTask) : t :=
  match heap jm !! a with
  | Some task => with_heap jm (<[a := f task]> (heap jm))
  | None => jm
  end.

(** [getJobStatus(jobId)] *)
Definition getJobStatus (jm : t) (jobId : string) : option JobStatus :=
  map_get jobId (activeJobs jm).

(** Does the task at address [a] have the id [id]? *)
Definition has_id (jm : t) (id : string) (a : nat) : bool :=
  match heap jm !! a with
  | Some task => String.eqb (t_id task) id
  | None => false
  end.

(** [findJobByTask(task)]: the first job, in the order of the map, one of
    whose tasks has the id of [task]. *)
Definition findJobByTask (jm : t) (a : nat) : option JobStatus :=
  match heap jm !! a with
  | None => None
  | Some task =>
      option_map snd
        (List.find (fun kv => existsb (has_id jm (t_id task)) (tasks (snd kv)))
                   (activeJobs jm))
  end.

Definition is_pending_for (jm : t) (url : string) (a : nat) : bool :=
  match heap jm !! a with
  | Some task => String.eqb (t_url task) url && task_state_eqb (t_status task) TaskPending
  | None => false
  end.

(** [findTaskByUrl(url)]: the first pending task with this URL, jobs in
    the order of the map. *)
Fixpoint findTaskByUrl_in (jm : t) (url : string) (jobs : list (string * JobStatus))
  : option nat :=
  match jobs with
  | [] => None
  | (_, job) :: rest =>
      match List.find (is_pending_for jm url) (tasks job) with
      | Some a => Some a
      | None => findTaskByUrl_in jm url rest
      end
  end.

Definition findTaskByUrl (jm : t) (url : string) : option nat :=
  findTaskByUrl_in jm url (activeJobs jm).

(** [Array.prototype.findIndex], [None] for [-1]. *)
Fixpoint findIndex {A} (p : A -> bool) (l : list A) : option nat :=
  match l with
  | [] => None
  | x :: rest => if p x then Some O else option_map S (findIndex p rest)
  end.

Definition isJobPaused (jm : t) (a : nat) : bool :=
  match findJobByTask jm a with
  | Some job => job_state_eqb (j_status job) JobPaused
  | None => false
  end.

Definition hasActiveTasks (jm : t) : bool :=
  existsb (fun kv =>
             job_state_eqb (j_status (snd kv)) JobRunning
             && (completedTasks (snd kv) + failedTasks (snd kv)
                 <? Z.of_nat (List.length (tasks (snd kv)))))
          (activeJobs jm).

(** [updateTask(task)] *)
Definition updateTask (jm : t) (a : nat) : t :=
  match findJobByTask jm a, heap jm !! a with
  | Some job, Some task =>
      match findIndex (has_id jm (t_id task)) (tasks job) with
      | Some taskIndex =>
          let job' := set_tasks job (<[taskIndex := a]> (tasks job)) in
          emit (with_jobs jm (map_set (j_id job') job' (activeJobs jm)))
               (taskUpdated task)
      | None => jm
      end
  | _, _ => jm
  end.

(** [updateTaskCompletion(task, success)]; [now] is the time stamp. *)
Definition updateTaskCompletion (jm : t) (a : nat) (success : bool) (now : string) : t :=
  match findJobByTask jm a with
  | Some job =>
      let job1 :=
        if success then set_counts job (completedTasks job + 1) (failedTasks job)
        else set_counts job (completedTasks job) (failedTasks job + 1) in
      if completedTasks job1 + failedTasks job1 =? Z.of_nat (List.length (tasks job1))
      then
        let job2 :=
          set_endTime
            (set_job_status job1
               (if failedTasks job1 =? 0 then JobCompleted else JobFailed)) now in
        with_jobs (emit jm (jobCompleted job2))
                  (map_set (j_id job2) job2 (activeJobs jm))
      else with_jobs jm (map_set (j_id job1) job1 (activeJobs jm))
  | None => jm
  end.

(** [startProcessing()] up to the first turn of its loop: the flag.  The
    turns of the loop are [loop_turn] below; in the code the first one
    begins inside this call, before the caller goes on, and a loop that
    finds no active task in it puts the flag back. *)
Definition startProcessing (jm : t) : t := with_running jm true.

(** [pauseJob(jobId)] *)
Definition pauseJob (jm : t) (jobId : string) : t :=
  match map_get jobId (activeJobs jm) with
  | Some job =>
      if job_state_eqb (j_status job) JobRunning then
        emit (with_jobs jm (map_set jobId (set_job_status job JobPaused) (activeJobs jm)))
             (jobPaused jobId)
      else jm
  | None => jm
  end.

(** [resumeJob(jobId)] *)
Definition resumeJob (jm : t) (jobId : string) : t :=
  match map_get jobId (activeJobs jm) with
  | Some job =>
      if job_state_eqb (j_status job) JobPaused then
        let jm1 := with_jobs jm (map_set jobId (set_job_status job JobRunning)
                                         (activeJobs jm)) in
        let jm2 := if isRunning jm1 then jm1 else startProcessing jm1 in
        emit jm2 (jobResumed jobId)
      else jm
  | None => jm
  end.

(** [cancelJob(jobId)]; [now] is the time stamp. *)
Definition cancelJob (jm : t) (jobId : string) (now : string) : t :=
  match map_get jobId (activeJobs jm) with
  | Some job =>
      emit (with_jobs jm (map_set jobId (set_endTime (set_job_status job JobFailed) now)
                                  (activeJobs jm)))
           (jobCancelled jobId)
  | None => jm
  end.

(** The calls [urlManager.enqueue(task.url, task.priority)] that
    [startJob] hands to [Promise.all]: each runs up to its [await] when it
    is called, one task after the other. *)
Fixpoint enqueue_all_begin (um : UrlManager.t) (ts : list CrawlTask)
  : UrlManager.t * list (string * option (completion unit)) :=
  match ts with
  | [] => (um, [])
  | task :: rest =>
      let (um1, r) := UrlManager.enqueue_begin URL_new um (t_url task) (t_priority task) in
      let (um2, rs) := enqueue_all_begin um1 rest in
      (um2, (t_url task, r) :: rs)
  end.

(** Then each call goes on from its [await], in the same order.  The
    result is the first rejection, if there is one. *)
Fixpoint enqueue_all_end (um : UrlManager.t)
  (rs : list (string * option (completion unit))) : UrlManager.t * completion unit :=
  match rs with
  | [] => (um, Normal tt)
  | (_, None) :: rest => enqueue_all_end um rest
  | (url, Some c) :: rest =>
      let (um1, c1) := UrlManager.enqueue_end URL_new um url c in
      let (um2, c2) := enqueue_all_end um1 rest in
      (um2, match c1 with Throw e => Throw e | Normal _ => c2 end)
  end.

(** The tasks that [startJob] creates; [taskId i] is the id generated for
    the task number [i]. *)
Fixpoint make_tasks (taskId : nat -> string) (i : nat) (urls : list string)
  (priority : Z) (now : string) : list CrawlTask :=
  match urls with
  | [] => []
  | url :: rest =>
      {| t_id := taskId i; t_url := url; t_priority := priority; retryCount := 0;
         maxRetries := 3; t_status := TaskPending; t_timestamp := now |}
      :: make_tasks taskId (S i) rest priority now
  end.

(** [startJob(urls, priority)]; [jobId] and [taskId] are the generated
    ids, [now] the time stamp. *)
Definition startJob (jm : t) (jobId : string) (taskId : nat -> string) (now : string)
  (urls : list string) (priority : Z) : t * completion string :=
  let new_tasks := make_tasks taskId 0 urls priority now in
  let base := List.length (heap jm) in
  let jobStatus :=
    {| j_id := jobId;
       tasks := seq base (List.length new_tasks);
       completedTasks := 0; failedTasks := 0;
       startTime := now; endTime := None; j_status := JobRunning |} in
  let jm1 := with_jobs (with_heap jm (heap jm ++ new_tasks))
                       (map_set jobId jobStatus (activeJobs jm)) in
  let (um1, rs) := enqueue_all_begin (urlManager jm1) new_tasks in
  let (um2, c) := enqueue_all_end um1 rs in
  let jm2 := with_urlManager jm1 um2 in
  match c with
  | Throw e => (jm2, Throw e)
  | Normal _ =>
      ((if isRunning jm2 then jm2 else startProcessing jm2), Normal jobId)
  end.

(** [processTask(task)] up to the [await] of the crawl. *)
Definition processTask_begin (jm : t) (a : nat) : t :=
  updateTask (update_task jm a (fun task => set_task_status task TaskProcessing)) a.

(** [processTask(task)] from the moment the pipeline of crawl, parse and
    store is over: [success] tells whether all three went through or one
    of them threw.  The call throws when the [enqueue] of the retry
    throws, and then the last [updateTask] is not reached.  An address
    outside the heap stands for no task object, and nothing happens. *)
Definition processTask_end (jm : t) (a : nat) (success : bool) (now : string)
  : t * completion unit :=
  if success then
    let jm1 := update_task jm a (fun task => set_task_status task TaskCompleted) in
    (updateTask (updateTaskCompletion jm1 a true now) a, Normal tt)
  else
    match heap jm !! a with
    | None => (jm, Normal tt)
    | Some task =>
        if retryCount task <? maxRetries task then
          let jm1 :=
            update_task jm a
              (fun task => set_task_status
                             (set_retryCount task (retryCount task + 1)) TaskPending) in
          match UrlManager.enqueue URL_new (urlManager jm1) (t_url task) (t_priority task) with
          | (um', Normal _) => (updateTask (with_urlManager jm1 um') a, Normal tt)
          | (um', Throw e) => (with_urlManager jm1 um', Throw e)
          end
        else
          let jm1 := update_task jm a (fun task => set_task_status task TaskFailed) in
          (updateTask (updateTaskCompletion jm1 a false now) a, Normal tt)
    end.

(** What one turn of the [while] loop of [startProcessing] comes to. *)
Inductive turn :=
| LoopOver
| Idle
| Skipped
| InFlight (task : nat).

(** One turn of the loop, up to the [await] inside [processTask] when a
    task is taken up. *)
Definition loop_turn (jm : t) : t * turn :=
  if hasActiveTasks jm then
    let (um', url) := UrlManager.dequeue (urlManager jm) in
    let jm1 := with_urlManager jm um' in
    match url with
    | None => (jm1, Idle)
    | Some EmptyString => (jm1, Idle)
    | Some url =>
        match findTaskByUrl jm1 url with
        | None => (jm1, Skipped)
        | Some a =>
            if isJobPaused jm1 a then (jm1, Skipped)
            else (processTask_begin jm1 a, InFlight a)
        end
    end
  else (with_running jm false, LoopOver).

(** The status of the task at address [a]. *)
Definition task_at (jm : t) (a : nat) : option CrawlTask := heap jm !! a.

End WithParser.

End JobManager.

(** * Properties *)

(** ** The priority queue *)

Section QueueFacts.
Context {T : Type}.
Import PriorityQueue.

Implicit Types (q : PriorityQueue.t T) (node : PriorityQueue.QueueNode T).

Lemma splice_In node its x :
  In x (splice node its) -> x = node \/ In x its.
Proof.
  induction its as [|y rest IH]; simpl.
  - intros [<-|[]]. now left.
  - destruct (priority y >? priority node).
    + intros [<-|H]; [now left | now right].
    + intros [<-|H]; [right; now left |].
      destruct (IH H) as [->|H']; [now left | right; now right].
Qed.

Lemma splice_length node its :
  List.length (splice node its) = S (List.length its).
Proof.
  induction its as [|y rest IH]; simpl; [reflexivity|].
  destruct (priority y >? priority node); simpl; congruence.
Qed.

Lemma splice_ordered node its : ordered its -> ordered (splice node its).
Proof.
  unfold ordered. induction its as [|y rest IH]; simpl; intros Hs.
  - constructor; constructor.
  - inversion Hs as [|? ? Hrest Hall]; subst.
    destruct (priority y >? priority node) eqn:E.
    + constructor; [assumption|].
      constructor; [lia|].
      rewrite List.Forall_forall in Hall |- *.
      intros z Hz. specialize (Hall z Hz). lia.
    + constructor; [now apply IH|].
      rewrite List.Forall_forall in Hall |- *.
      intros z Hz. destruct (splice_In _ _ _ Hz) as [->|Hz'].
      * lia.
      * now apply Hall.
Qed.

Lemma step_ordered q o : ordered (items q) -> ordered (items (step q o)).
Proof.
  destruct o as [d p| |]; simpl.
  - unfold enqueue. destruct (size q >=? maxSize q); simpl.
    + intros H; exact H.
    + apply splice_ordered.
  - unfold dequeue. destruct (items q) as [|x rest] eqn:E; simpl.
    + rewrite E. intros H; exact H.
    + intros H. now inversion H.
  - intros _. constructor.
Qed.

Lemma step_maxSize q o : maxSize (step q o) = maxSize q.
Proof.
  destruct o as [d p| |]; simpl; [| |reflexivity].
  - unfold enqueue. now destruct (size q >=? maxSize q).
  - unfold dequeue. now destruct (items q).
Qed.

Lemma run_ordered ops q : ordered (items q) -> ordered (items (run ops q)).
Proof.
  revert q. induction ops as [|o ops IH]; simpl; intros q H; [assumption|].
  apply IH. now apply step_ordered.
Qed.

Lemma run_maxSize ops q : maxSize (run ops q) = maxSize q.
Proof.
  revert q. induction ops as [|o ops IH]; simpl; intros q; [reflexivity|].
  rewrite IH. apply step_maxSize.
Qed.

Lemma step_within_capacity q o :
  0 <= maxSize q -> within_capacity q -> within_capacity (step q o).
Proof.
  unfold within_capacity, size. intros Hcap Hq.
  destruct o as [d p| |]; simpl.
  - unfold enqueue, size.
    destruct (Z.of_nat (List.length (items q)) >=? maxSize q) eqn:E; simpl.
    + assumption.
    + rewrite splice_length. lia.
  - unfold dequeue. destruct (items q) as [|x rest] eqn:E; simpl.
    + rewrite E. simpl. assumption.
    + simpl in Hq. lia.
  - simpl. assumption.
Qed.

Lemma run_within_capacity ops q :
  0 <= maxSize q -> within_capacity q -> within_capacity (run ops q).
Proof.
  revert q. induction ops as [|o ops IH]; simpl; intros q Hcap Hq.
  - assumption.
  - apply IH; [now rewrite step_maxSize | now apply step_within_capacity].
Qed.

(** The head of an ordered list is a minimum of the list. *)
Lemma ordered_head_minimal node its :
  ordered (node :: its) ->
  Forall (fun n => priority node <= priority n) (node :: its).
Proof.
  intros H. inversion H as [|? ? _ Hall]; subst.
  constructor; [lia | exact Hall].
Qed.

(** What [dequeue] does on an ordered queue. *)
Lemma dequeue_ordered q :
  ordered (items q) ->
  match dequeue q with
  | (q', None) => items q = [] /\ q' = q
  | (q', Some d) =>
      exists node,
        items q = node :: items q' /\ data node = d
        /\ Forall (fun n => priority node <= priority n) (items q)
        /\ maxSize q' = maxSize q
  end.
Proof.
  intros Hord. unfold dequeue.
  destruct (items q) as [|x rest] eqn:E.
  - split; reflexivity.
  - exists x. simpl.
    repeat split; try reflexivity. now apply ordered_head_minimal.
Qed.

End QueueFacts.

(** C1.  Whatever enqueues, dequeues and clears came before, [dequeue]
    answers nothing on an empty queue and otherwise removes and returns
    an entry whose priority number is minimal among the entries queued;
    items enqueued with the priorities 3, 1, 2 in this order come out in
    the order 1, 2, 3. *)
Theorem dequeue_returns_minimum :
  (forall (T : Type) (maxSize : Z) (ops : list (PriorityQueue.op T)),
     let q := PriorityQueue.run ops (PriorityQueue.new maxSize) in
     match PriorityQueue.dequeue q with
     | (q', None) => PriorityQueue.items q = [] /\ q' = q
     | (q', Some d) =>
         exists node,
           PriorityQueue.items q = node :: PriorityQueue.items q'
           /\ PriorityQueue.data node = d
           /\ Forall (fun n => PriorityQueue.priority node <= PriorityQueue.priority n)
                     (PriorityQueue.items q)
           /\ PriorityQueue.maxSize q' = PriorityQueue.maxSize q
     end)
  /\ (forall (T : Type) (a b c : T),
        let q0 := PriorityQueue.run
                    [PriorityQueue.Enqueue a 3; PriorityQueue.Enqueue b 1;
                     PriorityQueue.Enqueue c 2]
                    (PriorityQueue.new 5) in
        let (q1, r1) := PriorityQueue.dequeue q0 in
        let (q2, r2) := PriorityQueue.dequeue q1 in
        let (q3, r3) := PriorityQueue.dequeue q2 in
        (r1, r2, r3) = (Some b, Some c, Some a) /\ PriorityQueue.items q3 = []).
Proof.
  split.
  - intros T maxSize ops q. apply dequeue_ordered.
    apply run_ordered. constructor.
  - intros T a b c. simpl. split; reflexivity.
Qed.

(** C2.  A queue built with a capacity [maxSize] that is not negative
    never holds more than [maxSize] items, whatever is called on it; an
    [enqueue] at that size throws the error of a full queue and leaves
    the queue as it was. *)
Theorem enqueue_respects_capacity
  (T : Type) (maxSize : Z) (ops : list (PriorityQueue.op T)) (d : T) (p : Z) :
  0 <= maxSize ->
  let q := PriorityQueue.run ops (PriorityQueue.new maxSize) in
  PriorityQueue.size q <= maxSize
  /\ (PriorityQueue.size q = maxSize ->
      PriorityQueue.enqueue q d p = (q, Throw PriorityQueue.QueueFullError)
      /\ PriorityQueue.run (ops ++ [PriorityQueue.Enqueue d p])
           (PriorityQueue.new maxSize) = q).
Proof.
  intros Hcap q.
  assert (Hmax : PriorityQueue.maxSize q = maxSize).
  { unfold q. now rewrite run_maxSize. }
  split.
  - assert (Hin : PriorityQueue.within_capacity q).
    { apply run_within_capacity; simpl; [assumption|].
      unfold PriorityQueue.within_capacity, PriorityQueue.size. simpl. lia. }
    unfold PriorityQueue.within_capacity in Hin. lia.
  - intros Hfull.
    assert (E : PriorityQueue.enqueue q d p = (q, Throw PriorityQueue.QueueFullError)).
    { unfold PriorityQueue.enqueue. rewrite Hmax, Hfull.
      replace (maxSize >=? maxSize) with true by lia. reflexivity. }
    split; [exact E|].
    unfold PriorityQueue.run. rewrite fold_left_app. simpl.
    fold (PriorityQueue.run ops (PriorityQueue.new maxSize)). fold q.
    now rewrite E.
Qed.

(** C2 at work: a queue of capacity 2 after three enqueues holds the two
    items that were admitted, and a further [enqueue] throws. *)
Lemma enqueue_respects_capacity_witness :
  let q := PriorityQueue.run
             [PriorityQueue.Enqueue "a" 7; PriorityQueue.Enqueue "b" 1;
              PriorityQueue.Enqueue "c" 4]
             (PriorityQueue.new 2) in
  PriorityQueue.size q <= 2
  /\ PriorityQueue.enqueue q "d" 0 = (q, Throw PriorityQueue.QueueFullError)
  /\ PriorityQueue.getItems q = ["b"; "a"].
Proof.
  destruct (enqueue_respects_capacity string 2
              [PriorityQueue.Enqueue "a" 7; PriorityQueue.Enqueue "b" 1;
               PriorityQueue.Enqueue "c" 4] "d" 0 ltac:(lia)) as [H1 H2].
  split; [exact H1|].
  split; [apply H2; reflexivity | reflexivity].
Defined.

(** ** The frontier *)

Section FrontierFacts.
Variable URL_new : URL.parser.
Import UrlManager.

Lemma enqueue_blocked um url p :
  shouldEnqueue URL_new um url = false ->
  enqueue URL_new um url p = (um, Normal tt).
Proof.
  intros H. unfold enqueue, enqueue_begin. now rewrite H.
Qed.

Lemma enqueue_admitted um url p :
  consistent um ->
  shouldEnqueue URL_new um url = true ->
  enqueue URL_new um url p =
    ({| queue := {| PriorityQueue.items :=
                      PriorityQueue.splice (PriorityQueue.mkNode url p)
                        (PriorityQueue.items (queue um));
                    PriorityQueue.maxSize := PriorityQueue.maxSize (queue um) |};
        visited := {[ normalizeUrl URL_new url ]} ∪ visited um;
        config := config um |}, Normal tt).
Proof.
  intros Hc H. unfold enqueue, enqueue_begin. rewrite H.
  unfold shouldEnqueue in H. apply andb_true_iff in H as [_ Hsize].
  unfold PriorityQueue.enqueue. rewrite Hc.
  replace (PriorityQueue.size (queue um) >=? cfg_maxSize (config um)) with false by lia.
  reflexivity.
Qed.

Lemma shouldEnqueue_same_key um url1 url2 :
  normalizeUrl URL_new url1 = normalizeUrl URL_new url2 ->
  shouldEnqueue URL_new um url1 = shouldEnqueue URL_new um url2.
Proof. intros H. unfold shouldEnqueue. now rewrite H. Qed.

Lemma shouldEnqueue_visited um url :
  normalizeUrl URL_new url ∈ visited um ->
  shouldEnqueue URL_new um url = false.
Proof.
  intros H. unfold shouldEnqueue. now rewrite bool_decide_true.
Qed.

(** After [enqueue], a URL with the same key is kept out. *)
Lemma enqueue_then_blocked um url1 url2 p1 :
  consistent um ->
  normalizeUrl URL_new url1 = normalizeUrl URL_new url2 ->
  shouldEnqueue URL_new (fst (enqueue URL_new um url1 p1)) url2 = false.
Proof.
  intros Hc Hk.
  destruct (shouldEnqueue URL_new um url1) eqn:E.
  - rewrite (enqueue_admitted _ _ _ Hc E). simpl.
    apply shouldEnqueue_visited. simpl. rewrite <- Hk. set_solver.
  - rewrite (enqueue_blocked _ _ _ E). simpl.
    now rewrite <- (shouldEnqueue_same_key um url1 url2 Hk).
Qed.

End FrontierFacts.

Section SpliceFacts.
Context {T : Type}.
Import PriorityQueue.

Lemma splice_has_node (node : QueueNode T) its : In node (splice node its).
Proof.
  induction its as [|y rest IH]; cbn [splice]; [now left|].
  destruct (priority y >? priority node); [now left|now right].
Qed.

End SpliceFacts.

Section SlashFacts.
Import UrlManager.

Lemma strip_trailing_slash_snoc s c :
  strip_trailing_slash (s ++ String c EmptyString)
  = if Ascii.eqb c "/" then s else s ++ String c EmptyString.
Proof.
  induction s as [|x s IH]; [reflexivity|].
  change ((String x s ++ String c "")%string) with (String x (s ++ String c "")).
  cbn [strip_trailing_slash].
  destruct (s ++ String c "") as [|y r] eqn:E.
  - destruct s; discriminate E.
  - rewrite IH. now destruct (Ascii.eqb c "/").
Qed.

End SlashFacts.

(** C3.  The frontier keeps one entry per key, and the key is what the
    claim says.  The key of a URL that parses is its origin followed by
    its path without one trailing slash, which is all the stripping
    does, so the query and the fragment play no part while the scheme,
    the host and the rest of the path do.  Once a URL has been passed to
    [enqueue], a URL with the same key is not queued; a URL with another
    key that was not visited is queued while there is room; a URL that
    is queued is queued as the string it was given; an [enqueue] of a
    visited URL, or on a full queue, changes nothing.  On a new frontier
    of capacity 5, [https://x.com/a/] and then [https://x.com/a] leave
    one entry, the first string, and [https://x.com/b] then makes a
    second. *)
Theorem frontier_deduplicates (URL_new : URL.parser) (um : UrlManager.t) :
  UrlManager.consistent um ->
  (forall url1 url2 p1 p2,
      UrlManager.normalizeUrl URL_new url1 = UrlManager.normalizeUrl URL_new url2 ->
      let um1 := fst (UrlManager.enqueue URL_new um url1 p1) in
      UrlManager.enqueue URL_new um1 url2 p2 = (um1, Normal tt))
  /\ (forall url p,
        UrlManager.shouldEnqueue URL_new um url = true ->
        UrlManager.enqueue URL_new um url p =
          ({| UrlManager.queue :=
                {| PriorityQueue.items :=
                     PriorityQueue.splice (PriorityQueue.mkNode url p)
                       (PriorityQueue.items (UrlManager.queue um));
                   PriorityQueue.maxSize := PriorityQueue.maxSize (UrlManager.queue um) |};
              UrlManager.visited :=
                {[ UrlManager.normalizeUrl URL_new url ]} ∪ UrlManager.visited um;
              UrlManager.config := UrlManager.config um |}, Normal tt))
  /\ (forall url p,
        UrlManager.isVisited URL_new um url = true
        \/ cfg_maxSize (UrlManager.config um) <= UrlManager.getQueueSize um ->
        UrlManager.enqueue URL_new um url p = (um, Normal tt))
  /\ (forall url u,
        URL_new url = Some u ->
        UrlManager.normalizeUrl URL_new url =
          URL.origin u ++ UrlManager.strip_trailing_slash (URL.pathname u))
  /\ ((forall s, UrlManager.strip_trailing_slash (s ++ "/") = s)
      /\ (forall s c, c <> "/"%char ->
            UrlManager.strip_trailing_slash (s ++ String c "") = s ++ String c "")
      /\ UrlManager.strip_trailing_slash "" = "")
  /\ (forall url1 url2 p1 p2,
        UrlManager.normalizeUrl URL_new url1 <> UrlManager.normalizeUrl URL_new url2 ->
        UrlManager.isVisited URL_new um url2 = false ->
        UrlManager.getQueueSize um + 1 < cfg_maxSize (UrlManager.config um) ->
        let um1 := fst (UrlManager.enqueue URL_new um url1 p1) in
        let um2 := fst (UrlManager.enqueue URL_new um1 url2 p2) in
        In url2 (UrlManager.queued um2)
        /\ UrlManager.getQueueSize um2 = UrlManager.getQueueSize um1 + 1
        /\ UrlManager.isVisited URL_new um2 url2 = true)
  /\ (let um0 := UrlManager.new (mkQueueConfig 5 3 1000) in
      let um1 := fst (UrlManager.enqueue URL.parse um0 "https://x.com/a/" 1) in
      let um2 := fst (UrlManager.enqueue URL.parse um1 "https://x.com/a" 1) in
      let um3 := fst (UrlManager.enqueue URL.parse um2 "https://x.com/b" 1) in
      UrlManager.queued um2 = ["https://x.com/a/"]
      /\ UrlManager.getQueueSize um2 = 1
      /\ UrlManager.isVisited URL.parse um2 "https://x.com/a?page=2#top" = true
      /\ UrlManager.queued um3 = ["https://x.com/a/"; "https://x.com/b"]
      /\ UrlManager.normalizeUrl URL.parse "https://x.com/a/" = "https://x.com/a"
      /\ UrlManager.normalizeUrl URL.parse "https://x.com/a?page=2#top"
         = "https://x.com/a"
      /\ UrlManager.normalizeUrl URL.parse "https://x.com/a/b.html"
         = "https://x.com/a/b.html"
      /\ UrlManager.normalizeUrl URL.parse "https://x.com/a//" = "https://x.com/a/"
      /\ UrlManager.normalizeUrl URL.parse "http://x.com/a" = "http://x.com/a"
      /\ UrlManager.normalizeUrl URL.parse "https://y.com/a" = "https://y.com/a").
Proof.
  intros Hc. split; [|split; [|split; [|split; [|split; [|split]]]]].
  - intros url1 url2 p1 p2 Hk um1. apply enqueue_blocked.
    now apply enqueue_then_blocked.
  - intros url p H. now apply enqueue_admitted.
  - intros url p [H|H]; apply enqueue_blocked; unfold UrlManager.shouldEnqueue.
    + unfold UrlManager.isVisited in H. now rewrite H.
    + unfold UrlManager.getQueueSize in H.
      replace (PriorityQueue.size (UrlManager.queue um) <? cfg_maxSize (UrlManager.config um))
        with false by lia.
      apply andb_false_r.
  - intros url u H. unfold UrlManager.normalizeUrl. now rewrite H.
  - split; [|split].
    + intros s. rewrite strip_trailing_slash_snoc. reflexivity.
    + intros s c Hne. rewrite strip_trailing_slash_snoc.
      apply Ascii.eqb_neq in Hne. now rewrite Hne.
    + reflexivity.
  - intros url1 url2 p1 p2 Hk Hv Hroom um1 um2.
    unfold UrlManager.isVisited in Hv. apply bool_decide_eq_false in Hv.
    unfold UrlManager.getQueueSize in Hroom.
    assert (H1 : UrlManager.consistent um1
                 /\ UrlManager.shouldEnqueue URL_new um1 url2 = true).
    { unfold um1. destruct (UrlManager.shouldEnqueue URL_new um url1) eqn:E.
      - rewrite (enqueue_admitted URL_new um url1 p1 Hc E). cbn [fst].
        split; [exact Hc|].
        unfold UrlManager.shouldEnqueue.
        cbn [UrlManager.visited UrlManager.queue UrlManager.config].
        apply andb_true_iff. split.
        + apply negb_true_iff, bool_decide_eq_false.
          rewrite elem_of_union, elem_of_singleton. intros [H|H]; [|exact (Hv H)].
          apply Hk. symmetry. exact H.
        + unfold PriorityQueue.size in Hroom |- *. cbn [PriorityQueue.items].
          rewrite splice_length. apply Z.ltb_lt. lia.
      - rewrite (enqueue_blocked URL_new um url1 p1 E). cbn [fst].
        split; [exact Hc|].
        unfold UrlManager.shouldEnqueue. apply andb_true_iff. split.
        + apply negb_true_iff, bool_decide_eq_false. exact Hv.
        + apply Z.ltb_lt. lia. }
    destruct H1 as [Hc1 Hs1]. unfold um2.
    rewrite (enqueue_admitted URL_new um1 url2 p2 Hc1 Hs1). cbn [fst].
    split; [|split].
    + unfold UrlManager.queued, PriorityQueue.getItems.
      cbn [UrlManager.queue PriorityQueue.items].
      change url2 with (PriorityQueue.data (PriorityQueue.mkNode url2 p2)) at 1.
      apply in_map. apply splice_has_node.
    + unfold UrlManager.getQueueSize, PriorityQueue.size.
      cbn [UrlManager.queue PriorityQueue.items]. rewrite splice_length. lia.
    + unfold UrlManager.isVisited. cbn [UrlManager.visited].
      apply bool_decide_eq_true. rewrite elem_of_union, elem_of_singleton. now left.
  - vm_compute. repeat split; reflexivity.
Qed.

(** C3 at work: on a new frontier, after [https://x.com/a/] the URL
    [https://x.com/a?page=2#top] has the same key and is not queued. *)
Lemma frontier_deduplicates_witness :
  let um0 := UrlManager.new (mkQueueConfig 5 3 1000) in
  let um1 := fst (UrlManager.enqueue URL.parse um0 "https://x.com/a/" 1) in
  UrlManager.consistent um0
  /\ UrlManager.enqueue URL.parse um1 "https://x.com/a?page=2#top" 0 = (um1, Normal tt).
Proof.
  assert (Hc : UrlManager.consistent (UrlManager.new (mkQueueConfig 5 3 1000)))
    by reflexivity.
  split; [exact Hc|].
  destruct (frontier_deduplicates URL.parse
              (UrlManager.new (mkQueueConfig 5 3 1000)) Hc) as [H _].
  apply (H "https://x.com/a/" "https://x.com/a?page=2#top" 1 0).
  vm_compute. reflexivity.
Defined.

(** ** The job manager *)

Section MapFacts.
Context {V : Type}.
Import JobManager.

Lemma map_get_set_same (k : string) (v : V) m :
  map_get k (map_set k v m) = Some v.
Proof.
  induction m as [|[k' v'] rest IH]; simpl.
  - now rewrite String.eqb_refl.
  - destruct (String.eqb k' k) eqn:E; simpl.
    + now rewrite String.eqb_refl.
    + now rewrite E.
Qed.

Lemma map_get_set_other (k k' : string) (v : V) m :
  k <> k' -> map_get k' (map_set k v m) = map_get k' m.
Proof.
  intros Hne. induction m as [|[k0 v0] rest IH]; simpl.
  - apply String.eqb_neq in Hne. now rewrite Hne.
  - destruct (String.eqb k0 k) eqn:E; simpl.
    + apply String.eqb_eq in E. subst k0.
      apply String.eqb_neq in Hne. now rewrite Hne.
    + now rewrite IH.
Qed.

End MapFacts.

Section JobFacts.
Import JobManager.

Lemma pauseJob_cases jm jobId :
  pauseJob jm jobId = jm
  \/ exists job,
       getJobStatus jm jobId = Some job /\ j_status job = JobRunning
       /\ getJobStatus (pauseJob jm jobId) jobId = Some (set_job_status job JobPaused)
       /\ emitted (pauseJob jm jobId) = (emitted jm ++ [jobPaused jobId])%list.
Proof.
  unfold pauseJob, getJobStatus.
  destruct (map_get jobId (activeJobs jm)) as [job|] eqn:E; [|now left].
  destruct (j_status job) eqn:Es; simpl; try (now left).
  right. exists job. repeat split; try assumption.
  simpl. apply map_get_set_same.
Qed.

Lemma resumeJob_cases jm jobId :
  resumeJob jm jobId = jm
  \/ exists job,
       getJobStatus jm jobId = Some job /\ j_status job = JobPaused
       /\ getJobStatus (resumeJob jm jobId) jobId = Some (set_job_status job JobRunning)
       /\ emitted (resumeJob jm jobId) = (emitted jm ++ [jobResumed jobId])%list.
Proof.
  unfold resumeJob, getJobStatus.
  destruct (map_get jobId (activeJobs jm)) as [job|] eqn:E; [|now left].
  destruct (j_status job) eqn:Es; simpl; try (now left).
  right. exists job. repeat split; try assumption.
  - destruct (isRunning jm); simpl; apply map_get_set_same.
  - destruct (isRunning jm); reflexivity.
Qed.

Lemma pauseJob_terminal jm jobId job :
  getJobStatus jm jobId = Some job ->
  j_status job = JobCompleted \/ j_status job = JobFailed ->
  pauseJob jm jobId = jm.
Proof.
  unfold getJobStatus, pauseJob. intros -> [E|E]; now rewrite E.
Qed.

Lemma resumeJob_terminal jm jobId job :
  getJobStatus jm jobId = Some job ->
  j_status job = JobCompleted \/ j_status job = JobFailed ->
  resumeJob jm jobId = jm.
Proof.
  unfold getJobStatus, resumeJob. intros -> [E|E]; now rewrite E.
Qed.

Lemma pauseJob_other jm jobId other :
  other <> jobId ->
  getJobStatus (pauseJob jm jobId) other = getJobStatus jm other.
Proof.
  intros Hne. unfold pauseJob, getJobStatus.
  destruct (map_get jobId (activeJobs jm)) as [job|]; [|reflexivity].
  destruct (job_state_eqb (j_status job) JobRunning); [|reflexivity].
  simpl. apply map_get_set_other. congruence.
Qed.

Lemma resumeJob_other jm jobId other :
  other <> jobId ->
  getJobStatus (resumeJob jm jobId) other = getJobStatus jm other.
Proof.
  intros Hne. unfold resumeJob, getJobStatus.
  destruct (map_get jobId (activeJobs jm)) as [job|]; [|reflexivity].
  destruct (job_state_eqb (j_status job) JobPaused); [|reflexivity].
  simpl. destruct (isRunning jm); simpl; apply map_get_set_other; congruence.
Qed.

End JobFacts.

(** C10.  On a job that is completed or failed, [pauseJob] and
    [resumeJob] change nothing in the manager, the list of emitted events
    included.  [pauseJob] either changes nothing or takes a running job
    to paused and emits [jobPaused]; [resumeJob] either changes nothing
    or takes a paused job to running and emits [jobResumed]; no other
    job is touched. *)
Theorem pause_resume_spare_terminal_jobs (jm : JobManager.t) (jobId : string) :
  (forall job,
      JobManager.getJobStatus jm jobId = Some job ->
      JobManager.j_status job = JobManager.JobCompleted
      \/ JobManager.j_status job = JobManager.JobFailed ->
      JobManager.pauseJob jm jobId = jm /\ JobManager.resumeJob jm jobId = jm)
  /\ (JobManager.pauseJob jm jobId = jm
      \/ exists job,
           JobManager.getJobStatus jm jobId = Some job
           /\ JobManager.j_status job = JobManager.JobRunning
           /\ JobManager.getJobStatus (JobManager.pauseJob jm jobId) jobId
              = Some (JobManager.set_job_status job JobManager.JobPaused)
           /\ JobManager.emitted (JobManager.pauseJob jm jobId)
              = (JobManager.emitted jm ++ [JobManager.jobPaused jobId])%list)
  /\ (JobManager.resumeJob jm jobId = jm
      \/ exists job,
           JobManager.getJobStatus jm jobId = Some job
           /\ JobManager.j_status job = JobManager.JobPaused
           /\ JobManager.getJobStatus (JobManager.resumeJob jm jobId) jobId
              = Some (JobManager.set_job_status job JobManager.JobRunning)
           /\ JobManager.emitted (JobManager.resumeJob jm jobId)
              = (JobManager.emitted jm ++ [JobManager.jobResumed jobId])%list)
  /\ (forall other,
        other <> jobId ->
        JobManager.getJobStatus (JobManager.pauseJob jm jobId) other
        = JobManager.getJobStatus jm other
        /\ JobManager.getJobStatus (JobManager.resumeJob jm jobId) other
           = JobManager.getJobStatus jm other).
Proof.
  split; [|split; [|split]].
  - intros job Hget Hterm. split.
    + eapply pauseJob_terminal; eassumption.
    + eapply resumeJob_terminal; eassumption.
  - apply pauseJob_cases.
  - apply resumeJob_cases.
  - intros other Hne. split.
    + now apply pauseJob_other.
    + now apply resumeJob_other.
Qed.

Section CompletionFacts.
Import JobManager.

(** [updateTaskCompletion] counts the task into the job that owns it and
    recomputes the status of the job when no task is outstanding; the
    status the job had plays no part. *)
Lemma updateTaskCompletion_counts jm a success now owner :
  findJobByTask jm a = Some owner ->
  exists job',
    getJobStatus (updateTaskCompletion jm a success now) (j_id owner) = Some job'
    /\ completedTasks job' = completedTasks owner + (if success then 1 else 0)
    /\ failedTasks job' = failedTasks owner + (if success then 0 else 1)
    /\ (completedTasks job' + failedTasks job' = Z.of_nat (List.length (tasks owner)) ->
        j_status job' = (if failedTasks job' =? 0 then JobCompleted else JobFailed)
        /\ endTime job' = Some now).
Proof.
  intros Hfind. unfold updateTaskCompletion, getJobStatus. rewrite Hfind.
  destruct success; simpl.
  - destruct (completedTasks owner + 1 + failedTasks owner
              =? Z.of_nat (List.length (tasks owner))) eqn:E; simpl;
      eexists; (split; [apply map_get_set_same|]); simpl;
      repeat split; try lia.
  - destruct (completedTasks owner + (failedTasks owner + 1)
              =? Z.of_nat (List.length (tasks owner))) eqn:E; simpl;
      eexists; (split; [apply map_get_set_same|]); simpl;
      repeat split; try lia.
Qed.

Lemma update_task_urlManager jm a f :
  urlManager (update_task jm a f) = urlManager jm.
Proof. unfold update_task. now destruct (heap jm !! a). Qed.

Lemma updateTask_urlManager jm a :
  urlManager (updateTask jm a) = urlManager jm.
Proof.
  unfold updateTask.
  destruct (findJobByTask jm a) as [job|]; [|reflexivity].
  destruct (heap jm !! a) as [task|]; [|reflexivity].
  now destruct (findIndex (has_id jm (t_id task)) (tasks job)).
Qed.

(** The retry of a task whose URL is marked visited leaves the frontier
    as it is. *)
Lemma retry_of_visited_url_not_queued URL_new jm a task now :
  heap jm !! a = Some task ->
  retryCount task < maxRetries task ->
  UrlManager.isVisited URL_new (urlManager jm) (t_url task) = true ->
  snd (processTask_end URL_new jm a false now) = Normal tt
  /\ urlManager (fst (processTask_end URL_new jm a false now)) = urlManager jm.
Proof.
  intros Hheap Hretry Hvis. unfold processTask_end. rewrite Hheap.
  replace (retryCount task <? maxRetries task) with true by lia.
  rewrite update_task_urlManager.
  rewrite enqueue_blocked.
  - split; [reflexivity|]. cbn [fst].
    rewrite updateTask_urlManager. reflexivity.
  - unfold UrlManager.shouldEnqueue. unfold UrlManager.isVisited in Hvis.
    now rewrite Hvis.
Qed.

End CompletionFacts.

(** C6 fails as it is stated: a job with one task is started, the loop takes
    the task up, the job is cancelled while the task is in flight, and
    the pipeline of the task then succeeds.  The job is failed after the
    cancellation and completed after the late success. *)
Lemma cancelled_job_completes_late :
  let jm0 := JobManager.new (UrlManager.new (mkQueueConfig 100 3 1000)) in
  let jm1 := fst (JobManager.startJob URL.parse jm0 "job-1" (fun _ => "task-1") "t0"
                    ["https://a.test"] 1) in
  let jm2 := fst (JobManager.loop_turn jm1) in
  let jm3 := JobManager.cancelJob jm2 "job-1" "t1" in
  snd (JobManager.loop_turn jm1) = JobManager.InFlight 0
  /\ option_map JobManager.j_status (JobManager.getJobStatus jm3 "job-1")
     = Some JobManager.JobFailed
  /\ option_map JobManager.j_status
       (JobManager.getJobStatus
          (fst (JobManager.processTask_end URL.parse jm3 0 true "t2")) "job-1")
     = Some JobManager.JobCompleted.
Proof. vm_compute. repeat split; reflexivity. Qed.

(** C6, amended.  [cancelJob] on an existing job sets its status to
    failed and its end time at once, emits [jobCancelled], and reads and
    writes neither the tasks nor the frontier, so tasks in flight play no
    part.  The result of a task that settles later is still counted into
    the job that owns it, and when no task of that job is outstanding any
    more the status is computed anew: completed when no task failed. *)
Theorem cancelJob_marks_failed
  (jm : JobManager.t) (jobId : string) (job : JobManager.JobStatus) (now : string) :
  JobManager.getJobStatus jm jobId = Some job ->
  let jm' := JobManager.cancelJob jm jobId now in
  JobManager.getJobStatus jm' jobId
    = Some (JobManager.set_endTime
              (JobManager.set_job_status job JobManager.JobFailed) now)
  /\ JobManager.emitted jm'
     = (JobManager.emitted jm ++ [JobManager.jobCancelled jobId])%list
  /\ JobManager.heap jm' = JobManager.heap jm
  /\ JobManager.urlManager jm' = JobManager.urlManager jm
  /\ (forall a owner later,
        JobManager.findJobByTask jm' a = Some owner ->
        exists job',
          JobManager.getJobStatus
            (JobManager.updateTaskCompletion jm' a true later) (JobManager.j_id owner)
          = Some job'
          /\ JobManager.completedTasks job' = JobManager.completedTasks owner + 1
          /\ JobManager.failedTasks job' = JobManager.failedTasks owner
          /\ (JobManager.completedTasks job' + JobManager.failedTasks job'
              = Z.of_nat (List.length (JobManager.tasks owner)) ->
              JobManager.j_status job'
              = (if JobManager.failedTasks owner =? 0
                 then JobManager.JobCompleted else JobManager.JobFailed)
              /\ JobManager.endTime job' = Some later)).
Proof.
  intros Hget jm'. unfold jm', JobManager.cancelJob.
  unfold JobManager.getJobStatus in Hget. rewrite Hget.
  split; [|split; [|split; [|split]]]; try reflexivity.
  - unfold JobManager.getJobStatus. simpl. apply map_get_set_same.
  - intros a owner later Hfind.
    destruct (updateTaskCompletion_counts _ a true later owner Hfind)
      as (job' & H1 & H2 & H3 & H4).
    exists job'. split; [exact H1|]. split; [exact H2|].
    split; [lia|]. intros Hall. destruct (H4 Hall) as [H5 H6].
    split; [|exact H6]. rewrite H5.
    replace (JobManager.failedTasks job') with (JobManager.failedTasks owner) by lia.
    reflexivity.
Qed.

(** C6 at work: the job whose only task is in flight is failed, with its
    end time, as soon as it is cancelled. *)
Lemma cancelJob_marks_failed_witness :
  let jm0 := JobManager.new (UrlManager.new (mkQueueConfig 100 3 1000)) in
  let jm1 := fst (JobManager.startJob URL.parse jm0 "job-1" (fun _ => "task-1") "t0"
                    ["https://a.test"] 1) in
  let jm2 := fst (JobManager.loop_turn jm1) in
  option_map (fun job => (JobManager.j_status job, JobManager.endTime job))
    (JobManager.getJobStatus (JobManager.cancelJob jm2 "job-1" "t1") "job-1")
  = Some (JobManager.JobFailed, Some "t1").
Proof.
  intros jm0 jm1 jm2.
  destruct (JobManager.getJobStatus jm2 "job-1") as [job|] eqn:E.
  - destruct (cancelJob_marks_failed jm2 "job-1" job "t1" E) as [H _].
    rewrite H. reflexivity.
  - vm_compute in E. discriminate E.
Defined.

(** C7, the code at a failing input: a job with one task is started, the
    loop takes the task up, and the pipeline of the task fails with
    retries left.  The retry count goes to 1 and the task is pending
    again, but its URL is marked visited, so the [enqueue] of the retry
    drops it: the frontier is empty, the next turn of the loop finds
    nothing to do, and the job still waits for the task. *)
Theorem retry_enqueue_is_dropped :
  let jm0 := JobManager.new (UrlManager.new (mkQueueConfig 100 3 1000)) in
  let jm1 := fst (JobManager.startJob URL.parse jm0 "job-1" (fun _ => "task-1") "t0"
                    ["https://a.test"] 1) in
  let jm2 := fst (JobManager.loop_turn jm1) in
  let jm3 := fst (JobManager.processTask_end URL.parse jm2 0 false "t1") in
  UrlManager.queued (JobManager.urlManager jm1) = ["https://a.test"]
  /\ snd (JobManager.loop_turn jm1) = JobManager.InFlight 0
  /\ snd (JobManager.processTask_end URL.parse jm2 0 false "t1") = Normal tt
  /\ option_map (fun task => (JobManager.retryCount task, JobManager.maxRetries task,
                              JobManager.t_status task))
       (JobManager.task_at jm3 0)
     = Some (1, 3, JobManager.TaskPending)
  /\ UrlManager.queued (JobManager.urlManager jm3) = []
  /\ JobManager.hasActiveTasks jm3 = true
  /\ snd (JobManager.loop_turn jm3) = JobManager.Idle.
Proof. vm_compute. repeat split; reflexivity. Qed.

(** ** The crawler *)

Section CrawlFacts.
Import Crawler.

Lemma gets_emit e st : gets (emit e st) = gets st.
Proof. reflexivity. Qed.

Lemma sleeps_emit e st :
  sleeps (emit e st)
  = (sleeps st ++ match e with EvSleep ms => [ms] | _ => [] end)%list.
Proof.
  unfold sleeps, emit. simpl. rewrite flat_map_app. simpl.
  now rewrite app_nil_r.
Qed.

Lemma sleeps_count_get st : sleeps (count_get st) = sleeps st.
Proof. reflexivity. Qed.

(** When the robots check lets the URL through and the URL parses, the
    [try] block comes to the GET, which is the GET number [gets st], and
    ends the way the GET ends; nothing is slept. *)
Lemma attempt_reaches_client c url u st :
  URL_new (world c) url = Some u ->
  robotsTxtEnforcement (policyConfig c) = false
  \/ robots (world c) url = Normal true ->
  exists st',
    gets st' = S (gets st) /\ sleeps st' = sleeps st
    /\ attempt c url st
       = (match httpClient c (gets st) url with
          | Throw e => Throw e
          | Normal response => Normal (result_of url (today (world c)) response)
          end, st').
Proof.
  intros Hurl Hrobots. unfold attempt.
  destruct (robotsTxtEnforcement (policyConfig c)) eqn:Eenf.
  - destruct Hrobots as [H|H]; [discriminate H|]. rewrite H, Hurl.
    eexists. split; [|split].
    3:{ rewrite !gets_emit.
        destruct (httpClient c (gets st) url); reflexivity. }
    + reflexivity.
    + rewrite sleeps_count_get, !sleeps_emit. simpl. now rewrite !app_nil_r.
  - rewrite Hurl. eexists. split; [|split].
    3:{ rewrite !gets_emit.
        destruct (httpClient c (gets st) url); reflexivity. }
    + reflexivity.
    + rewrite sleeps_count_get, !sleeps_emit. simpl. now rewrite !app_nil_r.
Qed.

(** A URL whose GETs all fail with a retryable error, on a crawler that
    may retry at least once: however deep the calls of [crawl] and
    [handleRetry] are followed, the outermost call has not settled, one
    GET has been issued per level, and every sleep was the first delay of
    the backoff. *)
Lemma crawl_never_settles c url u :
  URL_new (world c) url = Some u ->
  robotsTxtEnforcement (policyConfig c) = false
  \/ robots (world c) url = Normal true ->
  (forall n, exists e, httpClient c n url = Throw e /\ isRetryableError e = true) ->
  1 <= retryAttempts (config c) ->
  forall depth st,
  exists st',
    crawl depth c url st = (Unsettled, st')
    /\ gets st' = (gets st + depth)%nat
    /\ sleeps st' = (sleeps st ++ repeat (getRetryDelay c 0) depth)%list.
Proof.
  intros Hurl Hrobots Hfail Hretry.
  induction depth as [|depth IH]; intros st.
  - exists st. simpl. split; [reflexivity|]. split; [lia|]. now rewrite app_nil_r.
  - destruct (attempt_reaches_client c url u st Hurl Hrobots)
      as (st1 & Hgets1 & Hsleeps1 & Hattempt).
    destruct (Hfail (gets st)) as (e & He & Hretryable).
    rewrite He in Hattempt.
    destruct (IH (emit (EvSleep (getRetryDelay c 0)) st1))
      as (st2 & Hcrawl & Hgets2 & Hsleeps2).
    exists st2. split; [|split].
    + simpl. rewrite Hattempt, Hretryable. unfold handleRetry.
      destruct (Z.to_nat (retryAttempts (config c))) as [|n] eqn:En; [lia|].
      simpl. replace (0 <? retryAttempts (config c)) with true by lia.
      now rewrite Hcrawl.
    + rewrite Hgets2, gets_emit, Hgets1. lia.
    + rewrite Hsleeps2, sleeps_emit, Hsleeps1. simpl.
      now rewrite <- app_assoc.
Qed.

End CrawlFacts.

(** C4, the code at a failing input: the configuration of the test suite
    (3 retry attempts, 1000 ms base delay) and a URL whose every GET ends
    in a connection reset.  Whatever the depth to which the calls are
    followed, [crawl] has not settled, it has issued one GET per level,
    more than the 4 that C4 allows from depth 5 on, and each of its
    sleeps lasted 1000 ms, the delay for the retry number 0. *)
Theorem persistent_failure_never_settles :
  let c := Crawler.new
             (Crawler.mkCrawlerConfig 2 5000 3 1000 "TestBot/1.0")
             (Crawler.mkPolicyConfig ∅ true 1000)
             (Crawler.mkWorld (fun _ => Normal true) URL.parse
                (fun _ _ => Crawler.Failed "ECONNRESET") "2024-02-21") in
  (forall depth,
     exists st,
       Crawler.crawl depth c "https://example.com" Crawler.start = (Crawler.Unsettled, st)
       /\ Crawler.gets st = depth
       /\ Crawler.sleeps st = repeat 1000 depth)
  /\ Crawler.gets (snd (Crawler.crawl 5 c "https://example.com" Crawler.start)) = 5%nat
  /\ Crawler.getRetryDelay c 1 = 2000.
Proof.
  intros c. split; [|split; vm_compute; reflexivity].
  intros depth.
  destruct (crawl_never_settles c "https://example.com"
              (URL.mkURL "https://example.com" "example.com" "/" "" ""))
    with (depth := depth) (st := Crawler.start) as (st & H1 & H2 & H3).
  - vm_compute. reflexivity.
  - right. reflexivity.
  - intros n. eexists. split; [reflexivity|]. reflexivity.
  - vm_compute. discriminate.
  - exists st. split; [exact H1|]. split; [exact H2|]. exact H3.
Qed.

(** A URL whose first GET ends in a connection reset and whose second GET
    is answered with 200: [crawl] returns the answer after two GETs and
    one sleep of 1000 ms. *)
Example crawl_recovers_after_one_reset :
  let c := Crawler.new
             (Crawler.mkCrawlerConfig 2 5000 3 1000 "TestBot/1.0")
             (Crawler.mkPolicyConfig ∅ true 1000)
             (Crawler.mkWorld (fun _ => Normal true) URL.parse
                (fun n _ => match n with
                            | O => Crawler.Failed "ECONNRESET"
                            | S _ => Crawler.Answered
                                       (Crawler.mkResponse 200 "OK" "<html></html>" [])
                            end)
                "2024-02-21") in
  let out := Crawler.crawl 2 c "https://example.com" Crawler.start in
  match fst out with
  | Crawler.Returned r => Crawler.statusCode r = 200
  | _ => False
  end
  /\ Crawler.gets (snd out) = 2%nat
  /\ Crawler.sleeps (snd out) = [1000].
Proof. vm_compute. repeat split; reflexivity. Qed.

(** C5 fails as it is stated: with the configuration of the test suite, a
    URL that the server answers with the status 404 makes [crawl] return
    a result with status code 404 after one GET; nothing is thrown. *)
Lemma not_found_is_returned :
  let c := Crawler.new
             (Crawler.mkCrawlerConfig 2 5000 3 1000 "TestBot/1.0")
             (Crawler.mkPolicyConfig ∅ true 1000)
             (Crawler.mkWorld (fun _ => Normal true) URL.parse
                (fun _ _ => Crawler.Answered
                              (Crawler.mkResponse 404 "Not Found" "gone" []))
                "2024-02-21") in
  Crawler.crawl 1 c "https://example.com" Crawler.start
  = (Crawler.Returned
       {| Crawler.r_url := "https://example.com";
          Crawler.content := "gone";
          Crawler.statusCode := 404;
          Crawler.r_headers := [];
          Crawler.timestamp := "2024-02-21";
          Crawler.contentType := None;
          Crawler.contentLength := None;
          Crawler.lastModified := None |},
     {| Crawler.gets := 1;
        Crawler.log := [Crawler.EvRobots "https://example.com";
                        Crawler.EvAcquire "example.com";
                        Crawler.EvGet "https://example.com"] |}).
Proof. vm_compute. reflexivity. Qed.

(** C5, amended.  A URL that passes the robots check and that the server
    answers with a status from 400 to 499: [crawl] issues exactly one GET,
    sleeps for no retry, and returns a result that carries this status,
    because the client of the crawler accepts every status below 500.
    When a client does reject the GET with an error that carries such a
    response, and whose code is none of the three that [crawl] retries
    on, [crawl] throws the error [HTTP <status>: <statusText>], again
    after exactly one GET and without a retry. *)
Theorem client_error_status_is_returned
  (config : Crawler.CrawlerConfig) (policy : Crawler.PolicyConfig) (w : Crawler.World)
  (url : string) (u : URL.t) (r : Crawler.Response) (depth : nat) (st : Crawler.Run) :
  Crawler.URL_new w url = Some u ->
  Crawler.robotsTxtEnforcement policy = false \/ Crawler.robots w url = Normal true ->
  Crawler.net w (Crawler.gets st) url = Crawler.Answered r ->
  400 <= Crawler.status r < 500 ->
  (exists st',
     Crawler.crawl (S depth) (Crawler.new config policy w) url st
     = (Crawler.Returned (Crawler.result_of url (Crawler.today w) r), st')
     /\ Crawler.statusCode (Crawler.result_of url (Crawler.today w) r) = Crawler.status r
     /\ Crawler.gets st' = S (Crawler.gets st)
     /\ Crawler.sleeps st' = Crawler.sleeps st)
  /\ (forall e,
        response e = Some (Crawler.status r, Crawler.statusText r) ->
        code e <> Some "ECONNRESET" ->
        code e <> Some "ETIMEDOUT" ->
        code e <> Some "ECONNREFUSED" ->
        exists st',
          Crawler.crawl (S depth)
            (Crawler.mkCrawler (fun _ _ => Throw e) config policy w) url st
          = (Crawler.Thrown
               (Error ("HTTP " ++ pretty (Crawler.status r) ++ ": "
                       ++ Crawler.statusText r)), st')
          /\ Crawler.gets st' = S (Crawler.gets st)
          /\ Crawler.sleeps st' = Crawler.sleeps st).
Proof.
  intros Hurl Hrobots Hnet Hstatus. split.
  - destruct (attempt_reaches_client (Crawler.new config policy w) url u st Hurl Hrobots)
      as (st' & Hgets & Hsleeps & Hattempt).
    assert (Hget : Crawler.httpClient (Crawler.new config policy w) (Crawler.gets st) url
                   = Normal r).
    { simpl. rewrite Hnet. simpl.
      replace (Crawler.status r <? 500) with true by lia. reflexivity. }
    rewrite Hget in Hattempt.
    exists st'. split; [|split; [reflexivity|split; assumption]].
    cbn [Crawler.crawl]. now rewrite Hattempt.
  - intros e Hresp Hc1 Hc2 Hc3.
    assert (Hcode : forall c, code e <> Some c -> Crawler.has_code e c = false).
    { intros c Hne. unfold Crawler.has_code. destruct (code e) as [c'|]; [|reflexivity].
      apply String.eqb_neq. congruence. }
    destruct (attempt_reaches_client
                (Crawler.mkCrawler (fun _ _ => Throw e) config policy w) url u st
                Hurl Hrobots)
      as (st' & Hgets & Hsleeps & Hattempt).
    cbn [Crawler.httpClient] in Hattempt.
    exists st'. split; [|split; assumption].
    cbn [Crawler.crawl]. rewrite Hattempt.
    unfold Crawler.isRetryableError, Crawler.normalizeError.
    rewrite (Hcode _ Hc1), (Hcode _ Hc2), (Hcode _ Hc3), Hresp. cbn [orb].
    replace (Crawler.status r >=? 500) with false by lia.
    reflexivity.
Qed.

(** C5 at work: a 404 answer is returned after one GET by the crawler as
    its constructor builds it, and thrown as [HTTP 404: Not Found] after
    one GET when the client rejects it with the code [ERR_BAD_REQUEST]. *)
Lemma client_error_status_is_returned_witness :
  let config := Crawler.mkCrawlerConfig 2 5000 3 1000 "TestBot/1.0" in
  let policy := Crawler.mkPolicyConfig ∅ true 1000 in
  let r := Crawler.mkResponse 404 "Not Found" "gone" [] in
  let w := Crawler.mkWorld (fun _ => Normal true) URL.parse
             (fun _ _ => Crawler.Answered r) "2024-02-21" in
  (exists st',
     Crawler.crawl 1 (Crawler.new config policy w) "https://example.com" Crawler.start
     = (Crawler.Returned (Crawler.result_of "https://example.com" "2024-02-21" r), st')
     /\ Crawler.gets st' = 1%nat)
  /\ (exists st',
        Crawler.crawl 1
          (Crawler.mkCrawler
             (fun _ _ => Throw (mkError (Some "ERR_BAD_REQUEST")
                                        (Some (404, "Not Found"))
                                        "Request failed with status code 404"))
             config policy w)
          "https://example.com" Crawler.start
        = (Crawler.Thrown (Error "HTTP 404: Not Found"), st')
        /\ Crawler.gets st' = 1%nat).
Proof.
  intros config policy r w.
  destruct (client_error_status_is_returned config policy w "https://example.com"
              (URL.mkURL "https://example.com" "example.com" "/" "" "")
              r 0 Crawler.start)
    as [(st1 & H1 & _ & H2 & _) H3].
  - vm_compute. reflexivity.
  - right. reflexivity.
  - reflexivity.
  - simpl. lia.
  - split.
    + exists st1. split; assumption.
    + destruct (H3 (mkError (Some "ERR_BAD_REQUEST") (Some (404, "Not Found"))
                            "Request failed with status code 404")
                  eq_refl ltac:(discriminate) ltac:(discriminate) ltac:(discriminate))
        as (st2 & H4 & H5 & _).
      exists st2. split; assumption.
Defined.

(** ** The rate limiter *)

(** [lra] with the local definitions of the context made opaque. *)
Ltac qlra := repeat match goal with x := _ |- _ => clearbody x end; lra.

Section BucketFacts.
Import RateLimiter.
Open Scope Q_scope.

Variable L : Z.
Hypothesis L_pos : (0 < L)%Z.

#[local] Abbreviation rr := (refillRate L).

Lemma L_pos_Q : 0 < inject_Z L.
Proof. change 0 with (inject_Z 0). now rewrite <- Zlt_Qlt. Qed.

Lemma rr_pos : 0 < rr.
Proof.
  unfold refillRate. apply Qlt_shift_div_l; [apply L_pos_Q|]. lra.
Qed.

Lemma rr_times_L : rr * inject_Z L == 1000.
Proof.
  unfold refillRate. field. intros H. pose proof L_pos_Q as HL. rewrite H in HL. lra.
Qed.

Lemma floor_times (x : Q) :
  inject_Z (Qfloor (x / rr)) * rr <= x /\ x < (inject_Z (Qfloor (x / rr)) + 1) * rr.
Proof.
  pose proof rr_pos as Hrr.
  pose proof (Qfloor_le (x / rr)) as Hlo.
  pose proof (Qlt_floor (x / rr)) as Hhi.
  rewrite inject_Z_plus in Hhi. change (inject_Z 1) with 1 in Hhi.
  assert (Hx : x / rr * rr == x).
  { field. intros H. rewrite H in Hrr. lra. }
  split.
  - rewrite <- Hx at 2. apply Qmult_le_compat_r; [exact Hlo | lra].
  - rewrite <- Hx at 1. apply Qmult_lt_compat_r; [exact Hrr | exact Hhi].
Qed.

Lemma floor_nonneg (x : Q) : 0 <= x -> (0 <= Qfloor (x / rr))%Z.
Proof.
  intros Hx. pose proof rr_pos as Hrr.
  change 0%Z with (Qfloor 0). apply Qfloor_resp_le.
  apply Qle_shift_div_l; [exact Hrr | lra].
Qed.

Lemma js_rem_nonneg (x : Q) :
  0 <= x -> js_rem x rr == x - rr * inject_Z (Qfloor (x / rr)).
Proof.
  intros Hx. pose proof rr_pos as Hrr. unfold js_rem, Qtrunc.
  assert (H : Qle_bool 0 (x / rr) = true).
  { apply Qle_bool_iff. apply Qle_shift_div_l; [exact Hrr | lra]. }
  rewrite H. reflexivity.
Qed.

Lemma Qmin'_le_l a b : Qmin' a b <= a.
Proof.
  unfold Qmin'. destruct (Qle_bool a b) eqn:E; [lra|].
  assert (~ a <= b) by (rewrite <- Qle_bool_iff; congruence).
  apply Qnot_le_lt in H. lra.
Qed.

Lemma Qmin'_le_r a b : Qmin' a b <= b.
Proof.
  unfold Qmin'. destruct (Qle_bool a b) eqn:E; [|lra].
  now apply Qle_bool_iff.
Qed.

Lemma Qmin'_glb a b c : c <= a -> c <= b -> c <= Qmin' a b.
Proof. intros. unfold Qmin'. now destruct (Qle_bool a b). Qed.

(** What the refill does to a bucket whose last refill is not in the
    future. *)
Lemma refill_facts (b : TokenBucket) (now : Z) :
  lastRefill b <= inject_Z now ->
  let b1 := refill L b now in
  lastRefill b1 <= inject_Z now
  /\ inject_Z now - lastRefill b1 < rr
  /\ tokens b1 <= inject_Z L
  /\ (0 <= tokens b -> 0 <= tokens b1)
  /\ tokens b1 * rr - lastRefill b1 <= tokens b * rr - lastRefill b.
Proof.
  intros Hlr b1. pose proof rr_pos as Hrr. pose proof L_pos_Q as HL.
  set (tp := inject_Z now - lastRefill b).
  assert (Htp : 0 <= tp) by (unfold tp; qlra).
  set (k := Qfloor (tp / rr)).
  destruct (floor_times tp) as [Hlo Hhi]. fold k in Hlo, Hhi.
  pose proof (floor_nonneg tp Htp) as Hk. fold k in Hk.
  assert (HkQ : 0 <= inject_Z k).
  { change 0 with (inject_Z 0). now rewrite <- Zle_Qle. }
  assert (Hlast : lastRefill b1 == lastRefill b + rr * inject_Z k).
  { change (lastRefill b1) with (inject_Z now - js_rem tp rr).
    rewrite (js_rem_nonneg tp Htp). fold k. unfold tp. ring. }
  change (tokens b1) with (Qmin' (inject_Z L) (tokens b + inject_Z k)).
  pose proof (Qmin'_le_r (inject_Z L) (tokens b + inject_Z k)) as Htok.
  pose proof (Qmin'_le_l (inject_Z L) (tokens b + inject_Z k)) as Hcap.
  assert (Hnn : 0 <= tokens b ->
                0 <= Qmin' (inject_Z L) (tokens b + inject_Z k)).
  { intros H0. apply Qmin'_glb; qlra. }
  assert (Hmul : Qmin' (inject_Z L) (tokens b + inject_Z k) * rr
                 <= (tokens b + inject_Z k) * rr).
  { apply Qmult_le_compat_r; [exact Htok | qlra]. }
  unfold tp in Hlo, Hhi. clearbody b1 k. clear tp Htp.
  repeat split; try assumption; try rewrite Hlast; qlra.
Qed.

End BucketFacts.

Section LimiterFacts.
Import RateLimiter.

Lemma acquire_once_unfold rl d clock now :
  let limit := limit_of rl d in
  let b1 := refill limit (bucket_of rl d clock) now in
  let stored := buckets (fst (getBucket rl d clock)) in
  acquire_once rl d clock now
  = if Qlt_le_dec (tokens b1) 1 then
      ({| buckets := <[d := b1]> stored;
          limits := limits rl;
          defaultLimit := defaultLimit rl |},
       Sleep (refillRate limit - (inject_Z now - lastRefill b1))%Q)
    else
      ({| buckets := <[d := {| tokens := (tokens b1 - 1)%Q;
                               lastRefill := lastRefill b1 |}]> stored;
          limits := limits rl;
          defaultLimit := defaultLimit rl |}, Acquired).
Proof.
  unfold acquire_once, getBucket, bucket_of.
  destruct (buckets rl !! d) as [b|]; reflexivity.
Qed.

Lemma getBucket_other rl d clock d' :
  d' <> d -> buckets (fst (getBucket rl d clock)) !! d' = buckets rl !! d'.
Proof.
  intros Hne. unfold getBucket.
  destruct (buckets rl !! d) as [b|]; [reflexivity|].
  cbn [fst buckets]. apply lookup_insert_ne. congruence.
Qed.

Lemma acquire_once_limits rl d clock now :
  limits (fst (acquire_once rl d clock now)) = limits rl
  /\ defaultLimit (fst (acquire_once rl d clock now)) = defaultLimit rl.
Proof.
  rewrite acquire_once_unfold. cbn zeta.
  match goal with |- context [Qlt_le_dec ?a ?b] => destruct (Qlt_le_dec a b) end;
    split; reflexivity.
Qed.

Lemma acquire_once_limit_of rl d clock now d' :
  limit_of (fst (acquire_once rl d clock now)) d' = limit_of rl d'.
Proof.
  destruct (acquire_once_limits rl d clock now) as [H1 H2].
  unfold limit_of. now rewrite H1, H2.
Qed.

Lemma acquire_once_bucket rl d clock now :
  buckets (fst (acquire_once rl d clock now)) !! d = Some (bucket_after rl d clock now).
Proof.
  rewrite acquire_once_unfold. unfold bucket_after. cbn zeta.
  match goal with |- context [Qlt_le_dec ?a ?b] => destruct (Qlt_le_dec a b) end;
    cbn [fst buckets]; apply lookup_insert_eq.
Qed.

Lemma acquire_once_other rl d clock now d' :
  d' <> d ->
  buckets (fst (acquire_once rl d clock now)) !! d' = buckets rl !! d'.
Proof.
  intros Hne. rewrite acquire_once_unfold. cbn zeta.
  match goal with |- context [Qlt_le_dec ?a ?b] => destruct (Qlt_le_dec a b) end;
    cbn [fst buckets]; rewrite lookup_insert_ne by congruence;
    now apply getBucket_other.
Qed.

Lemma acquire_once_outcome rl d clock now :
  let b1 := refill (limit_of rl d) (bucket_of rl d clock) now in
  (snd (acquire_once rl d clock now) = Acquired
   /\ (1 <= tokens b1)%Q
   /\ bucket_after rl d clock now
      = {| tokens := (tokens b1 - 1)%Q; lastRefill := lastRefill b1 |})
  \/ (is_acquired (snd (acquire_once rl d clock now)) = false
      /\ bucket_after rl d clock now = b1).
Proof.
  rewrite acquire_once_unfold. unfold bucket_after. cbn zeta.
  match goal with |- context [Qlt_le_dec ?a ?b] => destruct (Qlt_le_dec a b) end;
    cbn [snd]; auto.
Qed.

Lemma history_cons rl a rest :
  history rl (a :: rest)
  = (a, snd (acquire_once rl (a_domain a) (a_clock a) (a_now a)))
    :: history (fst (acquire_once rl (a_domain a) (a_clock a) (a_now a))) rest.
Proof.
  simpl. now destruct (acquire_once rl (a_domain a) (a_clock a) (a_now a)).
Qed.

End LimiterFacts.

Section WindowFacts.
Import RateLimiter.

Variable domain : string.
Variable L : Z.
Hypothesis L_pos : (0 < L)%Z.
Variable t0 : Z.

#[local] Abbreviation rr := (refillRate L).
#[local] Abbreviation T := (t0 + 1000)%Z.
#[local] Abbreviation counted := (RateLimiter.counted domain t0).
#[local] Abbreviation bucket_ok := (RateLimiter.bucket_ok L).

Lemma window_cons ao h :
  acquired_in_window domain t0 (ao :: h)
  = ((if counted ao then 1 else 0) + acquired_in_window domain t0 h)%nat.
Proof.
  unfold acquired_in_window. simpl.
  now destruct (RateLimiter.counted domain t0 ao).
Qed.

Lemma none_after atts : forall rl last,
  clock_monotone last atts -> (T < last)%Z ->
  acquired_in_window domain t0 (history rl atts) = 0%nat.
Proof.
  induction atts as [|a rest IH]; intros rl last Hmono Hlate; [reflexivity|].
  destruct Hmono as (H1 & H2 & H3).
  rewrite history_cons, window_cons.
  rewrite (IH _ (a_now a) H3) by lia.
  unfold RateLimiter.counted. cbn [fst snd].
  replace (a_now a <=? T)%Z with false by lia.
  now rewrite andb_false_r.
Qed.

Lemma bucket_ok_later b last last' :
  (last <= last')%Z -> bucket_ok b last -> bucket_ok b last'.
Proof.
  intros Hle (H1 & H2 & H3). rewrite Zle_Qle in Hle.
  repeat split; try assumption. lra.
Qed.

(** One run of [acquire] on the domain, seen from its bucket. *)
Lemma attempt_on_bucket rl clock now last :
  limit_of rl domain = L ->
  (forall b, buckets rl !! domain = Some b -> bucket_ok b last) ->
  (last <= clock)%Z -> (clock <= now)%Z ->
  let b1 := refill L (bucket_of rl domain clock) now in
  let b2 := bucket_after rl domain clock now in
  let n := (if is_acquired (snd (acquire_once rl domain clock now)) then 1 else 0)%Q in
  bucket_ok b2 now
  /\ (tokens b1 <= inject_Z L
      /\ inject_Z now - lastRefill b1 < rr
      /\ lastRefill b2 == lastRefill b1
      /\ n * rr + tokens b2 * rr == tokens b1 * rr)%Q
  /\ (forall b, buckets rl !! domain = Some b ->
        tokens b1 * rr - lastRefill b1 <= tokens b * rr - lastRefill b)%Q.
Proof.
  intros Hlimit Hinv Hclock Hnow b1 b2 n.
  pose proof (L_pos_Q L L_pos) as HL.
  rewrite Zle_Qle in Hclock, Hnow.
  assert (Hb0 : bucket_ok (bucket_of rl domain clock) clock).
  { unfold bucket_of. destruct (buckets rl !! domain) as [b|] eqn:E.
    - destruct (Hinv b eq_refl) as (H1 & H2 & H3).
      repeat split; try assumption. lra.
    - rewrite Hlimit. repeat split; cbn [tokens lastRefill]; lra. }
  destruct Hb0 as (H01 & H02 & H03).
  destruct (refill_facts L L_pos (bucket_of rl domain clock) now)
    as (F1 & F2 & F3 & F4 & F5); [lra|].
  specialize (F4 H01). fold b1 in F1, F2, F3, F4, F5.
  assert (Hpot : forall b, buckets rl !! domain = Some b ->
            (tokens b1 * rr - lastRefill b1 <= tokens b * rr - lastRefill b)%Q).
  { intros b E. unfold bucket_of in F5. now rewrite E in F5. }
  destruct (acquire_once_outcome rl domain clock now) as [(Ho & Htok & Hb2)|(Ho & Hb2)];
    rewrite Hlimit in *; fold b1 in Hb2; fold b2 in Hb2.
  - unfold n. rewrite Ho. cbn [is_acquired]. fold b1 in Htok.
    rewrite Hb2. cbn [tokens lastRefill].
    split; [|split; [|exact Hpot]].
    + repeat split; cbn [tokens lastRefill]; clearbody b1; lra.
    + repeat split; try assumption; try reflexivity. ring.
  - unfold n. rewrite Ho. rewrite Hb2.
    split; [|split; [|exact Hpot]].
    + repeat split; assumption.
    + repeat split; try assumption; try reflexivity. ring.
Qed.

Lemma counted_le rl a :
  a_domain a = domain ->
  (inject_Z (Z.of_nat (if counted (a, snd (acquire_once rl domain (a_clock a) (a_now a)))
                       then 1 else 0))
   <= if is_acquired (snd (acquire_once rl domain (a_clock a) (a_now a))) then 1 else 0)%Q.
Proof.
  intros Hd.
  destruct (counted _) eqn:Ec;
    destruct (is_acquired (snd (acquire_once rl domain (a_clock a) (a_now a)))) eqn:Ea;
    try (compute; discriminate).
  unfold RateLimiter.counted in Ec. cbn [fst snd] in Ec. rewrite Ea in Ec.
  rewrite andb_false_r in Ec. discriminate Ec.
Qed.

(** From a bucket on: the acquisitions counted in the window cost one
    token each, and the bucket holds [tokens b] of them and is refilled
    with one more every [rr] milliseconds after [lastRefill b]. *)
Lemma window_from_bucket atts : forall rl last b,
  limit_of rl domain = L ->
  buckets rl !! domain = Some b ->
  bucket_ok b last ->
  (lastRefill b <= inject_Z T)%Q ->
  clock_monotone last atts ->
  (inject_Z (Z.of_nat (acquired_in_window domain t0 (history rl atts))) * rr
   <= tokens b * rr + (inject_Z T - lastRefill b))%Q.
Proof.
  pose proof (rr_pos L L_pos) as Hrr.
  induction atts as [|a rest IH]; intros rl last b Hlimit Hb Hok HT Hmono.
  - destruct Hok as (H1 & H2 & H3). cbn [history].
    change (acquired_in_window domain t0 []) with 0%nat.
    change (inject_Z (Z.of_nat 0)) with 0%Q.
    assert (0 <= tokens b * rr)%Q by (apply Qmult_le_0_compat; lra).
    lra.
  - destruct Hmono as (M1 & M2 & M3).
    rewrite history_cons, window_cons.
    destruct (String.eqb (a_domain a) domain) eqn:Ed.
    + apply String.eqb_eq in Ed.
      destruct (Z_le_gt_dec (a_now a) T) as [Hin|Hout].
      * rewrite Ed.
        destruct (attempt_on_bucket rl (a_clock a) (a_now a) last Hlimit)
          as (Hok2 & (A1 & A2 & A3 & A4) & A5); try assumption.
        { intros b' E. rewrite Hb in E. now injection E as <-. }
        specialize (A5 b Hb).
        assert (HT2 : (lastRefill (bucket_after rl domain (a_clock a) (a_now a))
                       <= inject_Z T)%Q).
        { destruct Hok2 as (_ & _ & H3). rewrite Zle_Qle in Hin. lra. }
        pose proof (IH (fst (acquire_once rl domain (a_clock a) (a_now a)))
                      (a_now a) _
                      ltac:(rewrite acquire_once_limit_of; exact Hlimit)
                      (acquire_once_bucket rl domain (a_clock a) (a_now a))
                      Hok2 HT2 M3) as Hrest.
        pose proof (counted_le rl a Ed) as Hc.
        rewrite Nat2Z.inj_add, inject_Z_plus.
        set (c := inject_Z (Z.of_nat (if counted _ then 1 else 0))) in *.
        set (r := inject_Z (Z.of_nat (acquired_in_window _ _ _))) in *.
        assert (Hcr : (c * rr <= (if is_acquired
                                       (snd (acquire_once rl domain (a_clock a) (a_now a)))
                                  then 1 else 0) * rr)%Q).
        { apply Qmult_le_compat_r; [exact Hc | lra]. }
        clearbody c r. lra.
      * rewrite (none_after rest _ (a_now a) M3) by lia.
        unfold RateLimiter.counted. cbn [fst snd].
        replace (a_now a <=? T)%Z with false by lia.
        rewrite andb_false_r. cbn [Nat.add].
        change (inject_Z (Z.of_nat 0)) with 0%Q.
        destruct Hok as (H1 & H2 & H3).
        assert (0 <= tokens b * rr)%Q by (apply Qmult_le_0_compat; lra).
        lra.
    + assert (Hne : domain <> a_domain a).
      { apply String.eqb_neq in Ed. congruence. }
      unfold RateLimiter.counted at 1. cbn [fst snd]. rewrite Ed. cbn [andb Nat.add].
      apply (IH _ (a_now a)); try assumption.
      * rewrite acquire_once_limit_of. exact Hlimit.
      * rewrite acquire_once_other by exact Hne. exact Hb.
      * apply (bucket_ok_later b last); [lia | exact Hok].
Qed.

(** From a multiple of the refill interval to a number of tokens. *)
Lemma tokens_of_time (n : Z) :
  (inject_Z n * rr < 2000 + rr)%Q -> (n <= 2 * L)%Z.
Proof.
  intros H. pose proof (L_pos_Q L L_pos) as HL.
  pose proof (rr_times_L L L_pos) as Hr.
  apply (Qmult_lt_compat_r _ _ (inject_Z L) HL) in H.
  assert (H1 : (inject_Z n * rr * inject_Z L == inject_Z n * 1000)%Q).
  { rewrite <- Qmult_assoc, Hr. reflexivity. }
  assert (H2 : ((2000 + rr) * inject_Z L == 2000 * inject_Z L + 1000)%Q).
  { rewrite Qmult_plus_distr_l, Hr. reflexivity. }
  rewrite H1, H2 in H.
  assert (H3 : (inject_Z n < inject_Z (2 * L + 1))%Q).
  { rewrite inject_Z_plus, inject_Z_mult.
    change (inject_Z 2) with 2%Q. change (inject_Z 1) with 1%Q. lra. }
  rewrite <- Zlt_Qlt in H3. lia.
Qed.

(** The bound: whatever the state of the limiter, a window of one second
    sees at most [2 * L] acquisitions of the domain. *)
Lemma window_bound atts : forall rl last,
  limit_of rl domain = L ->
  (forall b, buckets rl !! domain = Some b -> bucket_ok b last) ->
  clock_monotone last atts ->
  (Z.of_nat (acquired_in_window domain t0 (history rl atts)) <= 2 * L)%Z.
Proof.
  pose proof (rr_pos L L_pos) as Hrr.
  induction atts as [|a rest IH]; intros rl last Hlimit Hinv Hmono.
  - cbn. lia.
  - destruct Hmono as (M1 & M2 & M3).
    rewrite history_cons.
    destruct (String.eqb (a_domain a) domain) eqn:Ed.
    + apply String.eqb_eq in Ed. rewrite Ed.
      destruct (attempt_on_bucket rl (a_clock a) (a_now a) last Hlimit Hinv M1 M2)
        as (Hok2 & (A1 & A2 & A3 & A4) & _).
      assert (Hlimit' : limit_of (fst (acquire_once rl domain (a_clock a) (a_now a)))
                          domain = L).
      { rewrite acquire_once_limit_of. exact Hlimit. }
      pose proof (acquire_once_bucket rl domain (a_clock a) (a_now a)) as Hb2.
      destruct (Z_lt_le_dec (a_now a) t0) as [Hbefore|Hfrom].
      { rewrite window_cons. unfold RateLimiter.counted at 1. cbn [fst snd].
        replace (t0 <=? a_now a)%Z with false by lia.
        rewrite andb_false_r. cbn [andb Nat.add].
        apply (IH _ (a_now a)); try assumption.
        intros b E. rewrite Hb2 in E. now injection E as <-. }
      destruct (Z_le_gt_dec (a_now a) T) as [Hin|Hout].
      2:{ rewrite window_cons, (none_after rest _ (a_now a) M3) by lia.
          unfold RateLimiter.counted. cbn [fst snd].
          replace (a_now a <=? T)%Z with false by lia.
          rewrite andb_false_r. cbn. lia. }
      apply tokens_of_time.
      assert (HT2 : (lastRefill (bucket_after rl domain (a_clock a) (a_now a))
                     <= inject_Z T)%Q).
      { destruct Hok2 as (_ & _ & H3). rewrite Zle_Qle in Hin. lra. }
      pose proof (window_from_bucket rest _ (a_now a) _ Hlimit' Hb2 Hok2 HT2 M3)
        as Hrest.
      pose proof (counted_le rl a Ed) as Hc.
      rewrite window_cons.
      rewrite Nat2Z.inj_add, inject_Z_plus.
      set (c := inject_Z (Z.of_nat (if counted _ then 1 else 0))) in *.
      set (r := inject_Z (Z.of_nat (acquired_in_window _ _ _))) in *.
      assert (Hcr : (c * rr <= (if is_acquired
                                     (snd (acquire_once rl domain (a_clock a) (a_now a)))
                                then 1 else 0) * rr)%Q).
      { apply Qmult_le_compat_r; [exact Hc | lra]. }
      assert (Hcap : (tokens (refill L (bucket_of rl domain (a_clock a)) (a_now a)) * rr
                      <= 1000)%Q).
      { rewrite <- (rr_times_L L L_pos). rewrite (Qmult_comm rr).
        apply Qmult_le_compat_r; [exact A1 | lra]. }
      rewrite Zle_Qle in Hfrom.
      rewrite inject_Z_plus in Hrest, HT2. change (inject_Z 1000) with 1000%Q in *.
      clearbody c r. lra.
    + assert (Hne : domain <> a_domain a).
      { apply String.eqb_neq in Ed. congruence. }
      rewrite window_cons. unfold RateLimiter.counted at 1. cbn [fst snd]. rewrite Ed.
      cbn [andb Nat.add].
      apply (IH _ (a_now a)); try assumption.
      * rewrite acquire_once_limit_of. exact Hlimit.
      * intros b E. rewrite acquire_once_other in E by exact Hne.
        apply (bucket_ok_later b last); [lia | now apply Hinv].
Qed.

End WindowFacts.

Section DomainFacts.
Import RateLimiter.

(** A run of [acquire] reads nothing but the limit and the bucket of its
    domain. *)
Lemma acquire_once_reads rl rl' d clock now :
  limits rl = limits rl' -> defaultLimit rl = defaultLimit rl' ->
  buckets rl !! d = buckets rl' !! d ->
  snd (acquire_once rl d clock now) = snd (acquire_once rl' d clock now)
  /\ bucket_after rl d clock now = bucket_after rl' d clock now.
Proof.
  intros Hl Hd Hb.
  assert (Hlimit : limit_of rl d = limit_of rl' d).
  { unfold limit_of. now rewrite Hl, Hd. }
  assert (Hof : bucket_of rl d clock = bucket_of rl' d clock).
  { unfold bucket_of. now rewrite Hb, Hlimit. }
  rewrite !acquire_once_unfold. unfold bucket_after. cbn zeta.
  rewrite Hlimit, Hof.
  match goal with |- context [Qlt_le_dec ?a ?b] => destruct (Qlt_le_dec a b) end;
    split; reflexivity.
Qed.

(** The entries of a domain in a history are the history of the runs of
    that domain alone: the runs of the other domains leave no trace in
    them. *)
Lemma history_of_domain other atts : forall rl rl',
  limits rl = limits rl' -> defaultLimit rl = defaultLimit rl' ->
  buckets rl !! other = buckets rl' !! other ->
  List.filter (fun ao => on_domain other (fst ao)) (history rl atts)
  = history rl' (List.filter (on_domain other) atts).
Proof.
  induction atts as [|a rest IH]; intros rl rl' Hl Hd Hb; [reflexivity|].
  rewrite history_cons. cbn [List.filter fst].
  destruct (acquire_once_limits rl (a_domain a) (a_clock a) (a_now a)) as [Hl1 Hd1].
  destruct (on_domain other a) eqn:E.
  - unfold on_domain in E. apply String.eqb_eq in E.
    rewrite history_cons. rewrite E.
    destruct (acquire_once_limits rl' other (a_clock a) (a_now a)) as [Hl2 Hd2].
    destruct (acquire_once_reads rl rl' other (a_clock a) (a_now a) Hl Hd Hb)
      as [Ho Hafter].
    rewrite Ho. f_equal.
    rewrite E in Hl1, Hd1.
    apply IH; [congruence | congruence |].
    now rewrite !acquire_once_bucket, Hafter.
  - unfold on_domain in E. apply String.eqb_neq in E.
    apply IH; [congruence | congruence |].
    rewrite acquire_once_other by congruence. exact Hb.
Qed.

End DomainFacts.

(** C8 fails as it is stated: with a limit of 2 requests per second, three
    runs of [acquire] for the domain, two at clock value 0 and one at
    500, all take a token: 3 acquisitions within one second. *)
Lemma three_acquisitions_within_a_second :
  let rl := RateLimiter.new {[ "a.test" := 2 ]} 1 in
  let h := RateLimiter.history rl
             [RateLimiter.mkAttempt "a.test" 0 0;
              RateLimiter.mkAttempt "a.test" 0 0;
              RateLimiter.mkAttempt "a.test" 500 500] in
  RateLimiter.limit_of rl "a.test" = 2
  /\ map snd h = [RateLimiter.Acquired; RateLimiter.Acquired; RateLimiter.Acquired]
  /\ RateLimiter.acquired_in_window "a.test" 0 h = 3%nat.
Proof. vm_compute. repeat split; reflexivity. Qed.

(** C8, amended.  On a new limiter, for a domain that is no inherited
    property name and whose limit is positive and divides 1000, and
    for whole clock readings that never go back and stay below 2^53, so
    that the code's arithmetic on doubles is the exact one: every history
    of runs of [acquire] has at most twice the limit acquisitions of the
    domain in any window of one second, because the bucket holds at most
    [limit] tokens when the window opens and gains at most [limit]
    during it.  The entries of any other domain in the history are those
    of the history of its own runs alone, so neither the acquisitions nor
    the waits of the first domain change them. *)
Theorem acquisitions_per_window_bounded
  (limits : gmap string Z) (defaultLimit : Z) (domain : string)
  (atts : list RateLimiter.attempt) (t_first t0 : Z) :
  let rl := RateLimiter.new limits defaultLimit in
  ~ In domain RateLimiter.prototype_keys ->
  0 < RateLimiter.limit_of rl domain ->
  RateLimiter.exact_arithmetic (RateLimiter.limit_of rl domain) t_first
    (RateLimiter.last_clock t_first atts) ->
  RateLimiter.clock_monotone t_first atts ->
  Z.of_nat (RateLimiter.acquired_in_window domain t0 (RateLimiter.history rl atts))
  <= 2 * RateLimiter.limit_of rl domain
  /\ (forall other,
        other <> domain ->
        ~ In other RateLimiter.prototype_keys ->
        List.filter (fun ao => RateLimiter.on_domain other (fst ao))
                    (RateLimiter.history rl atts)
        = RateLimiter.history rl (List.filter (RateLimiter.on_domain other) atts)).
Proof.
  intros rl _ Hpos _ Hmono. split.
  - apply (window_bound domain (RateLimiter.limit_of rl domain) Hpos t0 atts rl t_first);
      [reflexivity | | exact Hmono].
    intros b Hb. unfold rl in Hb. cbn in Hb. rewrite lookup_empty in Hb.
    discriminate Hb.
  - intros other _ _. now apply history_of_domain.
Qed.

(** C8 at work: with a limit of 2, runs at 0, 0, 0, 500 and 1000 ms make
    4 acquisitions in the window from 0 to 1000, which is the bound, and
    the run of another domain in between takes its token at once. *)
Lemma acquisitions_per_window_bounded_witness :
  let rl := RateLimiter.new {[ "a.test" := 2 ]} 1 in
  let atts := [RateLimiter.mkAttempt "a.test" 0 0;
               RateLimiter.mkAttempt "a.test" 0 0;
               RateLimiter.mkAttempt "a.test" 0 0;
               RateLimiter.mkAttempt "b.test" 0 0;
               RateLimiter.mkAttempt "a.test" 500 500;
               RateLimiter.mkAttempt "a.test" 1000 1000] in
  Z.of_nat (RateLimiter.acquired_in_window "a.test" 0 (RateLimiter.history rl atts))
  <= 2 * 2
  /\ RateLimiter.acquired_in_window "a.test" 0 (RateLimiter.history rl atts) = 4%nat
  /\ List.filter (fun ao => RateLimiter.on_domain "b.test" (fst ao))
                 (RateLimiter.history rl atts)
     = [(RateLimiter.mkAttempt "b.test" 0 0, RateLimiter.Acquired)].
Proof.
  intros rl atts.
  destruct (acquisitions_per_window_bounded {[ "a.test" := 2 ]} 1 "a.test" atts 0 0)
    as [H1 H2].
  - cbn. intuition discriminate.
  - vm_compute. reflexivity.
  - split; [exists 500; reflexivity|]. split; [lia|]. vm_compute. reflexivity.
  - vm_compute. repeat split; discriminate.
  - split; [exact H1|]. split; [vm_compute; reflexivity|].
    etransitivity; [apply (H2 "b.test"); [discriminate|cbn; intuition discriminate]|].
    vm_compute. reflexivity.
Defined.

(** ** The robots rules *)

Section RobotsFacts.
Import RobotsParser.

Lemma insert_by_length_In r sorted x :
  In x (insert_by_length r sorted) <-> x = r \/ In x sorted.
Proof.
  induction sorted as [|y rest IH]; simpl.
  - intuition.
  - destruct (String.length (pattern y) <=? String.length (pattern r))%nat; simpl.
    + intuition.
    + rewrite IH. intuition.
Qed.

Lemma sort_by_length_In rs x : In x (sort_by_length rs) <-> In x rs.
Proof.
  induction rs as [|r rest IH]; simpl; [reflexivity|].
  rewrite insert_by_length_In, IH. intuition.
Qed.

Lemma insert_by_length_sorted r sorted :
  StronglySorted no_longer_than sorted ->
  StronglySorted no_longer_than (insert_by_length r sorted).
Proof.
  induction sorted as [|y rest IH]; simpl; intros Hs.
  - constructor; constructor.
  - inversion Hs as [|? ? Hrest Hall]; subst.
    destruct (String.length (pattern y) <=? String.length (pattern r))%nat eqn:E.
    + apply Nat.leb_le in E. constructor; [assumption|].
      constructor; [exact E|].
      rewrite List.Forall_forall in Hall |- *.
      intros z Hz. specialize (Hall z Hz). unfold no_longer_than in *. lia.
    + apply Nat.leb_gt in E. constructor; [now apply IH|].
      rewrite List.Forall_forall in Hall |- *.
      intros z Hz. apply insert_by_length_In in Hz as [->|Hz].
      * unfold no_longer_than. lia.
      * now apply Hall.
Qed.

Lemma sort_by_length_sorted rs : StronglySorted no_longer_than (sort_by_length rs).
Proof.
  induction rs as [|r rest IH]; simpl; [constructor|].
  now apply insert_by_length_sorted.
Qed.

(** The rules that pass the filter are the rules that match. *)
Lemma filter_matching_In pathname rs matching r :
  filter_matching pathname rs = Some matching ->
  In r matching <-> In r rs /\ matchesPattern pathname (pattern r) = Some true.
Proof.
  revert matching. induction rs as [|x rest IH]; simpl; intros matching H.
  - injection H as <-. simpl. tauto.
  - destruct (matchesPattern pathname (pattern x)) as [[|]|] eqn:E;
      destruct (filter_matching pathname rest) as [l|]; try discriminate H;
      injection H as <-; specialize (IH l eq_refl); simpl.
    + rewrite IH. split.
      * intros [<-|[H1 H2]]; auto.
      * intros [[<-|H1] H2]; auto.
    + rewrite IH. split.
      * intros [H1 H2]; auto.
      * intros [[<-|H1] H2]; [congruence | auto].
Qed.

(** Among the rules whose pattern matches the path, as [matchesPattern]
    decides it, the answer of [isAllowed] is the flag of one with a
    pattern of the greatest length, and true when no rule matches. *)
Lemma isAllowed_rules_longest rs pathname matching :
  filter_matching pathname rs = Some matching ->
  match matching with
  | [] => isAllowed_rules rs pathname = Some true
  | _ :: _ =>
      exists r,
        In r rs /\ matchesPattern pathname (pattern r) = Some true
        /\ Forall (no_longer_than r) matching
        /\ isAllowed_rules rs pathname = Some (allow r)
  end.
Proof.
  intros Hf. unfold isAllowed_rules. rewrite Hf.
  destruct matching as [|m ms].
  - now destruct rs.
  - pose proof (sort_by_length_sorted (m :: ms)) as Hs.
    pose proof (sort_by_length_In (m :: ms)) as Hin.
    destruct (sort_by_length (m :: ms)) as [|r rest] eqn:E.
    + exfalso. apply (Hin m). now left.
    + exists r.
      assert (Hr : In r (m :: ms)) by (apply Hin; now left).
      apply (filter_matching_In _ _ _ r Hf) in Hr as [Hr1 Hr2].
      split; [exact Hr1|]. split; [exact Hr2|]. split.
      * inversion Hs as [|? ? _ Hall]; subst.
        rewrite List.Forall_forall in Hall |- *.
        intros z Hz. apply Hin in Hz as [<-|Hz].
        -- unfold no_longer_than. lia.
        -- now apply Hall.
      * destruct rs; [discriminate Hf | reflexivity].
Qed.

End RobotsFacts.

(** C9, the code at a failing input: the rule [Disallow: /private*secret]
    and the path [/private/x/secret].  The last of the four replacements
    of [matchesPattern] escapes the dot of the [.*] that the first one
    wrote for the [*], so the [*] of the rule stands for a run of dots:
    the pattern matches [/private...secret] but not [/private/x/secret],
    which it matches when [*] stands for any substring.  No rule is left
    after the filter and [isAllowed] answers true for a URL that the rule
    disallows. *)
Theorem star_matches_only_dots :
  let rule := RobotsParser.mkRule "/private*secret" false in
  let cache : gmap string RobotsParser.RobotsCache :=
    {[ "https://a.test" := RobotsParser.mkCache [rule] 0 0 3600000 ]} in
  RobotsParser.pattern_source "/private*secret" = "^/private\.*secret.*$"
  /\ RobotsParser.matchesPattern "/private/x/secret" "/private*secret" = Some false
  /\ RobotsParser.matchesPattern "/private...secret" "/private*secret" = Some true
  /\ RobotsParser.spec_matches "/private*secret" "/private/x/secret" = true
  /\ RobotsParser.isAllowed_rules [rule] "/private/x/secret" = Some true
  /\ RobotsParser.isAllowed URL.parse cache 1000 "https://a.test/private/x/secret"
     = Some true.
Proof. vm_compute. repeat split; reflexivity. Qed.

(** * Further properties *)

(** ** The priority queue: order of arrival, contents, capacity *)

Section QueueMore.
Context {T : Type}.
Import PriorityQueue.

Implicit Types (q : PriorityQueue.t T) (node : PriorityQueue.QueueNode T).

(** On an ordered list, the node goes behind the items that are not
    greater and ahead of the items that are. *)
Lemma splice_partition node its :
  ordered its ->
  splice node its
  = (List.filter (fun x => priority x <=? priority node) its
     ++ node :: List.filter (fun x => priority x >? priority node) its)%list.
Proof.
  unfold ordered. induction its as [|y rest IH]; intros Hs; [reflexivity|].
  inversion Hs as [|? ? Hrest Hall]; subst. simpl.
  destruct (priority y >? priority node) eqn:E.
  - replace (priority y <=? priority node) with false by lia.
    assert (Hgt : forall z, In z rest -> (priority z >? priority node) = true).
    { rewrite List.Forall_forall in Hall. intros z Hz. specialize (Hall z Hz). lia. }
    assert (H1 : List.filter (fun x => priority x <=? priority node) rest = []).
    { clear -Hgt. induction rest as [|z rest IH]; [reflexivity|]. simpl.
      replace (priority z <=? priority node) with false
        by (specialize (Hgt z (or_introl eq_refl)); lia).
      apply IH. intros w Hw. apply Hgt. now right. }
    assert (H2 : List.filter (fun x => priority x >? priority node) rest = rest).
    { clear -Hgt. induction rest as [|z rest IH]; [reflexivity|]. simpl.
      rewrite (Hgt z (or_introl eq_refl)). f_equal.
      apply IH. intros w Hw. apply Hgt. now right. }
    now rewrite H1, H2.
  - replace (priority y <=? priority node) with true by lia.
    simpl. f_equal. now apply IH.
Qed.

Lemma splice_Permutation node its : Permutation (node :: its) (splice node its).
Proof.
  induction its as [|y rest IH]; simpl; [reflexivity|].
  destruct (priority y >? priority node); [reflexivity|].
  rewrite perm_swap. now constructor.
Qed.

Lemma enqueue_with_room q d p :
  size q < maxSize q ->
  enqueue q d p
  = ({| items := splice (mkNode d p) (items q); maxSize := maxSize q |}, Normal tt).
Proof.
  intros H. unfold enqueue.
  replace (size q >=? maxSize q) with false by lia. reflexivity.
Qed.

Lemma dequeue_all_items n (its : list (QueueNode T)) m :
  (List.length its <= n)%nat ->
  dequeue_all n {| items := its; maxSize := m |} = map data its.
Proof.
  revert its. induction n as [|n IH]; intros its Hn.
  - destruct its; [reflexivity | simpl in Hn; lia].
  - destruct its as [|x rest]; [reflexivity|].
    simpl. f_equal. apply IH. simpl in Hn. lia.
Qed.

Lemma run_enqueues_size (l : list (T * Z)) : forall q,
  size q + Z.of_nat (List.length l) <= maxSize q ->
  size (run (enqueues l) q) = size q + Z.of_nat (List.length l)
  /\ Permutation (items (run (enqueues l) q))
       (map (fun dp => mkNode (fst dp) (snd dp)) l ++ items q).
Proof.
  induction l as [|[d p] rest IH]; intros q Hroom.
  - simpl. split; [lia | reflexivity].
  - simpl in Hroom. cbn [enqueues map run fold_left step fst snd].
    rewrite enqueue_with_room by lia. cbn [fst].
    set (q1 := {| items := splice (mkNode d p) (items q); maxSize := maxSize q |}).
    assert (Hsize : size q1 = size q + 1).
    { unfold size, q1. cbn [items]. rewrite splice_length. lia. }
    destruct (IH q1) as [H1 H2].
    { rewrite Hsize. cbn [maxSize q1]. lia. }
    fold (enqueues rest). fold (run (enqueues rest) q1).
    split.
    + rewrite H1, Hsize. simpl. lia.
    + rewrite H2. cbn [items q1 map fst snd].
      rewrite <- (splice_Permutation (mkNode d p) (items q)).
      symmetry. apply Permutation_middle.
Qed.

End QueueMore.

(** X1.  Among equal priorities the queue is first in, first out: in a
    queue reached by any calls from a new one, an item enqueued while
    there is room goes behind every queued item whose priority number is
    not greater than its own and ahead of every item whose number is
    greater. *)
Theorem enqueue_keeps_arrival_order
  (T : Type) (maxSize : Z) (ops : list (PriorityQueue.op T)) (d : T) (p : Z) :
  let q := PriorityQueue.run ops (PriorityQueue.new maxSize) in
  PriorityQueue.size q < maxSize ->
  PriorityQueue.items (fst (PriorityQueue.enqueue q d p))
  = (List.filter (fun x => PriorityQueue.priority x <=? p) (PriorityQueue.items q)
     ++ PriorityQueue.mkNode d p
        :: List.filter (fun x => PriorityQueue.priority x >? p) (PriorityQueue.items q))%list.
Proof.
  intros q Hroom.
  rewrite enqueue_with_room by (unfold q; now rewrite run_maxSize).
  cbn [fst PriorityQueue.items].
  apply (splice_partition (PriorityQueue.mkNode d p)).
  apply run_ordered. constructor.
Qed.

(** X1 at work: a second item of priority 2 comes out after the first. *)
Lemma enqueue_keeps_arrival_order_witness :
  PriorityQueue.getItems
    (fst (PriorityQueue.enqueue
            (PriorityQueue.run
               [PriorityQueue.Enqueue "c" 3; PriorityQueue.Enqueue "a" 2;
                PriorityQueue.Enqueue "z" 1]
               (PriorityQueue.new 5))
            "b" 2))
  = ["z"; "a"; "b"; "c"].
Proof.
  unfold PriorityQueue.getItems.
  rewrite (enqueue_keeps_arrival_order string 5
             [PriorityQueue.Enqueue "c" 3; PriorityQueue.Enqueue "a" 2;
              PriorityQueue.Enqueue "z" 1] "b" 2 ltac:(vm_compute; reflexivity)).
  reflexivity.
Defined.

(** X2.  An [enqueue] below the capacity never fails and neither loses
    nor duplicates an entry: the queue afterwards holds the new node and
    the nodes it held, and the capacity is the same. *)
Theorem enqueue_adds_exactly_one (T : Type) (q : PriorityQueue.t T) (d : T) (p : Z) :
  PriorityQueue.size q < PriorityQueue.maxSize q ->
  snd (PriorityQueue.enqueue q d p) = Normal tt
  /\ Permutation (PriorityQueue.mkNode d p :: PriorityQueue.items q)
                 (PriorityQueue.items (fst (PriorityQueue.enqueue q d p)))
  /\ PriorityQueue.size (fst (PriorityQueue.enqueue q d p)) = PriorityQueue.size q + 1
  /\ PriorityQueue.maxSize (fst (PriorityQueue.enqueue q d p)) = PriorityQueue.maxSize q.
Proof.
  intros Hroom. rewrite enqueue_with_room by exact Hroom. cbn [fst snd].
  split; [reflexivity|]. split; [apply splice_Permutation|].
  split; [|reflexivity].
  unfold PriorityQueue.size. cbn [PriorityQueue.items].
  rewrite splice_length. lia.
Qed.

Lemma enqueue_adds_exactly_one_witness :
  PriorityQueue.size
    (fst (PriorityQueue.enqueue (PriorityQueue.new 1) "a" 0)) = 1.
Proof.
  destruct (enqueue_adds_exactly_one string (PriorityQueue.new 1) "a" 0
              ltac:(vm_compute; reflexivity)) as (_ & _ & H & _).
  exact H.
Defined.

(** X3.  In a queue reached by any calls from a new one, [getItems] shows
    the data in the order in which [dequeue] will hand them out, which is
    by priority number, smallest first, and [peek] shows the first of
    them. *)
Theorem getItems_is_dequeue_order
  (T : Type) (maxSize : Z) (ops : list (PriorityQueue.op T)) :
  let q := PriorityQueue.run ops (PriorityQueue.new maxSize) in
  PriorityQueue.dequeue_all (List.length (PriorityQueue.items q)) q
  = PriorityQueue.getItems q
  /\ PriorityQueue.peek q = List.head (PriorityQueue.getItems q)
  /\ StronglySorted Z.le (map PriorityQueue.priority (PriorityQueue.items q)).
Proof.
  intros q. split; [|split].
  - destruct q as [its m]. apply dequeue_all_items. cbn. lia.
  - unfold PriorityQueue.peek, PriorityQueue.getItems.
    now destruct (PriorityQueue.items q).
  - assert (Ho : PriorityQueue.ordered (PriorityQueue.items q)).
    { apply run_ordered. constructor. }
    unfold PriorityQueue.ordered in Ho.
    induction Ho as [|x rest Hrest IH Hall]; [constructor|].
    simpl. constructor; [exact IH|].
    rewrite List.Forall_forall in Hall |- *.
    intros z Hz. apply in_map_iff in Hz as (y & <- & Hy). now apply Hall.
Qed.

(** X4.  A queue takes every item offered while there is room: from any
    queue, a run of enqueues that fits into the capacity left all
    succeed, and the queue then holds exactly the old and the new
    entries. *)
Theorem enqueues_fill_to_capacity
  (T : Type) (q : PriorityQueue.t T) (l : list (T * Z)) :
  PriorityQueue.size q + Z.of_nat (List.length l) <= PriorityQueue.maxSize q ->
  PriorityQueue.size (PriorityQueue.run (PriorityQueue.enqueues l) q)
  = PriorityQueue.size q + Z.of_nat (List.length l)
  /\ Permutation
       (PriorityQueue.items (PriorityQueue.run (PriorityQueue.enqueues l) q))
       (map (fun dp => PriorityQueue.mkNode (fst dp) (snd dp)) l
        ++ PriorityQueue.items q).
Proof. apply run_enqueues_size. Qed.

Lemma enqueues_fill_to_capacity_witness :
  PriorityQueue.size
    (PriorityQueue.run (PriorityQueue.enqueues [("a", 2); ("b", 1)])
       (PriorityQueue.clear
          (PriorityQueue.run [PriorityQueue.Enqueue "x" 0] (PriorityQueue.new 2))))
  = 2.
Proof.
  destruct (enqueues_fill_to_capacity string
              (PriorityQueue.clear
                 (PriorityQueue.run [PriorityQueue.Enqueue "x" 0] (PriorityQueue.new 2)))
              [("a", 2); ("b", 1)] ltac:(vm_compute; discriminate)) as [H _].
  exact H.
Defined.

(** ** The frontier: what every sequence of calls keeps *)

Section FrontierMore.
Variable URL_new : URL.parser.
Import UrlManager.

#[local] Abbreviation key := (normalizeUrl URL_new).

#[local] Abbreviation tidy := (UrlManager.tidy URL_new).

Lemma dequeue_queued um :
  queued (fst (dequeue um)) = List.tl (queued um)
  /\ visited (fst (dequeue um)) = visited um
  /\ config (fst (dequeue um)) = config um
  /\ PriorityQueue.maxSize (queue (fst (dequeue um))) = PriorityQueue.maxSize (queue um)
  /\ snd (dequeue um) = List.head (queued um).
Proof.
  unfold dequeue, queued, PriorityQueue.getItems, PriorityQueue.dequeue.
  destruct (PriorityQueue.items (queue um)) as [|x rest] eqn:E; cbn.
  - rewrite E. repeat split; reflexivity.
  - repeat split; reflexivity.
Qed.

Lemma enqueue_result um url p :
  consistent um ->
  snd (enqueue URL_new um url p) = Normal tt
  /\ consistent (fst (enqueue URL_new um url p))
  /\ config (fst (enqueue URL_new um url p)) = config um.
Proof.
  intros Hc. destruct (shouldEnqueue URL_new um url) eqn:E.
  - rewrite (enqueue_admitted URL_new um url p Hc E). cbn.
    repeat split; try reflexivity. exact Hc.
  - rewrite (enqueue_blocked URL_new um url p E). cbn.
    repeat split; try reflexivity. exact Hc.
Qed.

Lemma step_tidy um o : tidy um -> tidy (step URL_new um o).
Proof.
  intros (Hc & Hsize & Hnd & Hvis). destruct o as [url p| |]; cbn [step].
  - destruct (shouldEnqueue URL_new um url) eqn:E.
    + rewrite (enqueue_admitted URL_new um url p Hc E). cbn [fst].
      unfold shouldEnqueue in E. apply andb_true_iff in E as [Efresh Eroom].
      apply negb_true_iff, bool_decide_eq_false in Efresh.
      assert (Hperm : Permutation
                (key url :: queued_keys URL_new um)
                (queued_keys URL_new
                   {| queue := {| PriorityQueue.items :=
                                    PriorityQueue.splice (PriorityQueue.mkNode url p)
                                      (PriorityQueue.items (queue um));
                                  PriorityQueue.maxSize := PriorityQueue.maxSize (queue um) |};
                      visited := {[ key url ]} ∪ visited um;
                      config := config um |})).
      { unfold queued_keys, queued, PriorityQueue.getItems. cbn.
        change (key url :: map key (map PriorityQueue.data (PriorityQueue.items (queue um))))
          with (map key (map PriorityQueue.data
                  (PriorityQueue.mkNode url p :: PriorityQueue.items (queue um)))).
        do 2 apply Permutation_map. apply splice_Permutation. }
      split; [exact Hc|]. split; [|split].
      * unfold PriorityQueue.size. cbn. rewrite splice_length.
        unfold PriorityQueue.size in Eroom. lia.
      * eapply Permutation_NoDup; [exact Hperm|].
        constructor; [|exact Hnd].
        intros Hin. apply Efresh. now apply Hvis.
      * intros k Hk. cbn [visited].
        eapply Permutation_in in Hk; [|symmetry; exact Hperm].
        destruct Hk as [<-|Hk]; [set_solver|].
        specialize (Hvis k Hk). set_solver.
    + rewrite (enqueue_blocked URL_new um url p E). cbn [fst].
      repeat split; assumption.
  - destruct (dequeue_queued um) as (Hq & Hv & Hcfg & Hmax & _).
    unfold UrlManager.tidy, consistent, queued_keys. rewrite Hq, Hv, Hcfg, Hmax.
    unfold queued_keys in Hnd, Hvis.
    split; [exact Hc|]. split; [|split].
    + unfold PriorityQueue.size in *.
      assert (Hlen : List.length (queued (fst (dequeue um)))
                     = List.length (PriorityQueue.items (queue (fst (dequeue um))))).
      { unfold queued, PriorityQueue.getItems. now rewrite length_map. }
      assert (Hlen0 : List.length (queued um)
                      = List.length (PriorityQueue.items (queue um))).
      { unfold queued, PriorityQueue.getItems. now rewrite length_map. }
      rewrite <- Hlen, Hq. rewrite <- Hlen0 in Hsize.
      destruct (queued um); simpl in *; lia.
    + destruct (queued um) as [|x rest]; [constructor|].
      simpl in *. now inversion Hnd.
    + intros k Hk. apply Hvis.
      destruct (queued um) as [|x rest]; [destruct Hk|]. simpl in *. now right.
  - unfold UrlManager.tidy, consistent, clear, queued_keys, queued, PriorityQueue.getItems.
    cbn. split; [exact Hc|]. split; [|split].
    + unfold PriorityQueue.size in *. cbn.
      pose proof (Nat2Z.is_nonneg (List.length (PriorityQueue.items (queue um)))).
      lia.
    + constructor.
    + intros k [].
Qed.

Lemma run_tidy ops : forall um, tidy um -> tidy (run URL_new ops um).
Proof.
  induction ops as [|o ops IH]; intros um H; [exact H|].
  cbn. apply IH. now apply step_tidy.
Qed.

Lemma new_tidy config : 0 <= cfg_maxSize config -> tidy (UrlManager.new config).
Proof.
  intros H. unfold UrlManager.tidy, consistent, queued_keys, queued, PriorityQueue.getItems.
  cbn. repeat split; try reflexivity; try assumption.
  - constructor.
  - intros k [].
Qed.

(** The visited set only grows under [enqueue] and [dequeue]. *)
Lemma step_visited um o k :
  is_clear o = false -> k ∈ visited um -> k ∈ visited (step URL_new um o).
Proof.
  intros Hno Hk. destruct o as [url p| |]; [| |discriminate Hno]; cbn [step].
  - unfold enqueue, enqueue_begin.
    destruct (shouldEnqueue URL_new um url); [|exact Hk].
    destruct (PriorityQueue.enqueue (queue um) url p) as [q' [[]|e]]; cbn.
    + set_solver.
    + exact Hk.
  - destruct (dequeue_queued um) as (_ & Hv & _). now rewrite Hv.
Qed.

Lemma run_visited ops : forall um k,
  forallb (fun o => negb (is_clear o)) ops = true ->
  k ∈ visited um -> k ∈ visited (run URL_new ops um).
Proof.
  induction ops as [|o ops IH]; intros um k Hno Hk; [exact Hk|].
  cbn in Hno. apply andb_true_iff in Hno as [H1 H2]. apply negb_true_iff in H1.
  cbn. apply IH; [exact H2|]. now apply step_visited.
Qed.

Lemma run_config ops : forall um, config (run URL_new ops um) = config um.
Proof.
  induction ops as [|o ops IH]; intros um; [reflexivity|].
  change (run URL_new (o :: ops) um) with (run URL_new ops (step URL_new um o)).
  rewrite IH. destruct o as [url p| |]; cbn [step].
  - unfold enqueue, enqueue_begin.
    destruct (shouldEnqueue URL_new um url); [|reflexivity].
    now destruct (PriorityQueue.enqueue (queue um) url p) as [q' [[]|e]].
  - unfold dequeue. now destruct (PriorityQueue.dequeue (queue um)).
  - reflexivity.
Qed.

End FrontierMore.

(** X5.  Whatever is called on a frontier built for a capacity that is
    not negative, with whatever URL parser: no two queued payloads have
    the same key, every queued payload is marked visited, the queue
    holds at most [maxSize] payloads, and the next [enqueue] does not
    throw. *)
Theorem frontier_stays_tidy
  (URL_new : URL.parser) (config : QueueConfig) (ops : list UrlManager.op) :
  0 <= cfg_maxSize config ->
  let um := UrlManager.run URL_new ops (UrlManager.new config) in
  List.NoDup (UrlManager.queued_keys URL_new um)
  /\ Forall (fun url => UrlManager.isVisited URL_new um url = true) (UrlManager.queued um)
  /\ UrlManager.getQueueSize um <= cfg_maxSize config
  /\ (forall url p, snd (UrlManager.enqueue URL_new um url p) = Normal tt).
Proof.
  intros Hcap um.
  destruct (run_tidy URL_new ops _ (new_tidy URL_new config Hcap))
    as (Hc & Hsize & Hnd & Hvis).
  fold um in Hc, Hsize, Hnd, Hvis.
  assert (Hcfg : UrlManager.config um = config) by apply run_config.
  split; [exact Hnd|]. split; [|split].
  - rewrite List.Forall_forall. intros url Hurl.
    unfold UrlManager.isVisited. apply bool_decide_eq_true.
    apply Hvis. unfold UrlManager.queued_keys. now apply in_map.
  - unfold UrlManager.getQueueSize. now rewrite <- Hcfg.
  - intros url p. now apply enqueue_result.
Qed.

(** X5 at work: a frontier of capacity 2 after five calls. *)
Lemma frontier_stays_tidy_witness :
  let um := UrlManager.run URL.parse
              [UrlManager.Enqueue "https://x.com/a/" 2;
               UrlManager.Enqueue "https://x.com/a" 1;
               UrlManager.Enqueue "https://x.com/b" 1;
               UrlManager.Enqueue "https://x.com/c" 1;
               UrlManager.Dequeue]
              (UrlManager.new (mkQueueConfig 2 3 1000)) in
  UrlManager.getQueueSize um <= 2
  /\ UrlManager.queued um = ["https://x.com/a/"].
Proof.
  intros um.
  destruct (frontier_stays_tidy URL.parse (mkQueueConfig 2 3 1000)
              [UrlManager.Enqueue "https://x.com/a/" 2;
               UrlManager.Enqueue "https://x.com/a" 1;
               UrlManager.Enqueue "https://x.com/b" 1;
               UrlManager.Enqueue "https://x.com/c" 1;
               UrlManager.Dequeue] ltac:(cbn; lia)) as (_ & _ & H & _).
  split; [exact H | vm_compute; reflexivity].
Defined.

(** X6.  A URL stays visited when it leaves the queue: after an [enqueue]
    that queued it, whatever enqueues and dequeues follow, the URL is
    still marked visited and a further [enqueue] of it, or of any URL
    with the same key, changes nothing.  Only [clear] unmarks it. *)
Theorem visited_survives_dequeue
  (URL_new : URL.parser) (um : UrlManager.t) (url url' : string) (p p' : Z)
  (ops : list UrlManager.op) :
  UrlManager.consistent um ->
  UrlManager.shouldEnqueue URL_new um url = true ->
  forallb (fun o => negb (UrlManager.is_clear o)) ops = true ->
  UrlManager.normalizeUrl URL_new url' = UrlManager.normalizeUrl URL_new url ->
  let um' := UrlManager.run URL_new ops (fst (UrlManager.enqueue URL_new um url p)) in
  UrlManager.isVisited URL_new um' url = true
  /\ UrlManager.enqueue URL_new um' url' p' = (um', Normal tt).
Proof.
  intros Hc Hadm Hno Hkey um'.
  assert (Hin : UrlManager.normalizeUrl URL_new url ∈ UrlManager.visited um').
  { apply run_visited; [exact Hno|].
    rewrite (enqueue_admitted URL_new um url p Hc Hadm). cbn. set_solver. }
  split.
  - unfold UrlManager.isVisited. now apply bool_decide_eq_true.
  - apply enqueue_blocked. apply shouldEnqueue_visited. now rewrite Hkey.
Qed.

(** X6 at work: the URL is queued, dequeued, and then refused. *)
Lemma visited_survives_dequeue_witness :
  let um0 := UrlManager.new (mkQueueConfig 5 3 1000) in
  let um' := UrlManager.run URL.parse [UrlManager.Dequeue]
               (fst (UrlManager.enqueue URL.parse um0 "https://x.com/a" 1)) in
  UrlManager.queued um' = []
  /\ UrlManager.enqueue URL.parse um' "https://x.com/a/" 1 = (um', Normal tt).
Proof.
  intros um0 um'. split; [vm_compute; reflexivity|].
  apply (visited_survives_dequeue URL.parse um0 "https://x.com/a" "https://x.com/a/"
           1 1 [UrlManager.Dequeue]).
  - reflexivity.
  - vm_compute. reflexivity.
  - reflexivity.
  - vm_compute. reflexivity.
Defined.

(** X7.  [clear] empties the queue and forgets every visited URL, so that
    on a frontier with room for one payload any URL, visited before or
    not, is queued by the next [enqueue] and is then the only payload. *)
Theorem clear_forgets_everything
  (URL_new : URL.parser) (um : UrlManager.t) (url : string) (p : Z) :
  UrlManager.consistent um ->
  0 < cfg_maxSize (UrlManager.config um) ->
  let um' := UrlManager.clear um in
  UrlManager.getQueueSize um' = 0
  /\ (forall other, UrlManager.isVisited URL_new um' other = false)
  /\ UrlManager.queued (fst (UrlManager.enqueue URL_new um' url p)) = [url]
  /\ UrlManager.isVisited URL_new (fst (UrlManager.enqueue URL_new um' url p)) url = true.
Proof.
  intros Hc Hroom um'.
  assert (Hc' : UrlManager.consistent um') by exact Hc.
  assert (Hadm : UrlManager.shouldEnqueue URL_new um' url = true).
  { unfold UrlManager.shouldEnqueue, um', UrlManager.clear. cbn.
    rewrite bool_decide_false by set_solver.
    cbn [negb andb]. apply Z.ltb_lt. exact Hroom. }
  split; [reflexivity|]. split; [|split].
  - intros other. unfold UrlManager.isVisited, um', UrlManager.clear. cbn.
    apply bool_decide_false. set_solver.
  - rewrite (enqueue_admitted URL_new um' url p Hc' Hadm). reflexivity.
  - rewrite (enqueue_admitted URL_new um' url p Hc' Hadm).
    unfold UrlManager.isVisited. cbn. apply bool_decide_true. set_solver.
Qed.

Lemma clear_forgets_everything_witness :
  let um := fst (UrlManager.enqueue URL.parse
                   (UrlManager.new (mkQueueConfig 5 3 1000)) "https://x.com/a" 1) in
  UrlManager.queued
    (fst (UrlManager.enqueue URL.parse (UrlManager.clear um) "https://x.com/a" 7))
  = ["https://x.com/a"].
Proof.
  intros um.
  destruct (clear_forgets_everything URL.parse um "https://x.com/a" 7)
    as (_ & _ & H & _).
  - reflexivity.
  - vm_compute. reflexivity.
  - exact H.
Defined.

(** X8.  The normalization removes exactly one trailing slash: a string
    that ends in a slash loses that slash and nothing else, and the empty
    string and a string that ends in another character are left as they
    are. *)
Theorem strip_trailing_slash_removes_one :
  (forall s, UrlManager.strip_trailing_slash (s ++ "/") = s)
  /\ UrlManager.strip_trailing_slash "" = ""
  /\ (forall s c,
        c <> "/"%char ->
        UrlManager.strip_trailing_slash (s ++ String c "") = s ++ String c "").
Proof.
  split; [|split].
  - intros s. now rewrite strip_trailing_slash_snoc.
  - reflexivity.
  - intros s c Hc. rewrite strip_trailing_slash_snoc.
    apply Ascii.eqb_neq in Hc. now rewrite Hc.
Qed.

(** ** The rate limiter: buckets, waits, new limits *)

Section BucketMore.
Import RateLimiter.

Variable L : Z.
Hypothesis L_pos : (0 < L)%Z.

#[local] Abbreviation rr := (refillRate L).

(** A refill takes no token away from a bucket that is not over its
    limit. *)
Lemma refill_keeps_tokens (b : TokenBucket) (now : Z) :
  (lastRefill b <= inject_Z now)%Q -> (tokens b <= inject_Z L)%Q ->
  (tokens b <= tokens (refill L b now))%Q.
Proof.
  intros Hlr Hcap. unfold refill. cbn [tokens].
  assert (Hk : (0 <= Qfloor ((inject_Z now - lastRefill b) / rr))%Z).
  { apply (floor_nonneg L L_pos). lra. }
  rewrite Zle_Qle in Hk. change (inject_Z 0) with 0%Q in Hk.
  apply Qmin'_glb; lra.
Qed.


End BucketMore.

Section HistoryMore.
Import RateLimiter.

Lemma state_after_limits atts : forall rl d,
  limit_of (state_after rl atts) d = limit_of rl d.
Proof.
  induction atts as [|a rest IH]; intros rl d; [reflexivity|].
  cbn [state_after]. rewrite IH. apply acquire_once_limit_of.
Qed.

(** The invariant of the buckets of a domain along a history. *)
Lemma state_after_bucket_ok domain L (L_pos : 0 < L) atts : forall rl last,
  limit_of rl domain = L ->
  (forall b, buckets rl !! domain = Some b -> bucket_ok L b last) ->
  clock_monotone last atts ->
  forall b, buckets (state_after rl atts) !! domain = Some b ->
            bucket_ok L b (last_clock last atts).
Proof.
  induction atts as [|a rest IH]; intros rl last Hlimit Hinv Hmono b Hb.
  - now apply Hinv.
  - destruct Hmono as (M1 & M2 & M3). cbn [state_after last_clock] in *.
    apply (IH _ (a_now a)) in Hb; try assumption.
    + rewrite acquire_once_limit_of. exact Hlimit.
    + intros b' Hb'. destruct (String.eqb (a_domain a) domain) eqn:Ed.
      * apply String.eqb_eq in Ed. rewrite Ed in Hb'.
        rewrite acquire_once_bucket in Hb'. injection Hb' as <-.
        now destruct (attempt_on_bucket domain L L_pos rl (a_clock a) (a_now a) last
                        Hlimit Hinv M1 M2) as [H _].
      * apply String.eqb_neq in Ed.
        rewrite acquire_once_other in Hb' by congruence.
        apply (bucket_ok_later L b' last); [lia | now apply Hinv].
Qed.

Lemma clock_monotone_filter (P : attempt -> bool) atts : forall last,
  clock_monotone last atts -> clock_monotone last (List.filter P atts).
Proof.
  induction atts as [|a rest IH]; intros last Hmono; [exact I|].
  destruct Hmono as (M1 & M2 & M3). cbn [List.filter].
  destruct (P a).
  - cbn. repeat split; try assumption. now apply IH.
  - apply IH. clear IH. destruct rest as [|a' rest']; [exact I|].
    destruct M3 as (N1 & N2 & N3). cbn. repeat split; try assumption. lia.
Qed.

(** While a domain is called alone, its bucket never holds fewer tokens
    than its limit minus the number of calls. *)
Lemma burst_tokens domain L (L_pos : 0 < L) atts : forall rl last (n : Z),
  limit_of rl domain = L ->
  0 <= n ->
  (forall b, buckets rl !! domain = Some b ->
             bucket_ok L b last /\ (inject_Z L - inject_Z n <= tokens b)%Q) ->
  clock_monotone last atts ->
  Forall (fun a => a_domain a = domain) atts ->
  n + Z.of_nat (List.length atts) <= L ->
  Forall (fun ao => snd ao = Acquired) (history rl atts).
Proof.
  induction atts as [|a rest IH]; intros rl last n Hlimit Hn Hinv Hmono Hdom Hlen;
    [constructor|].
  destruct Hmono as (M1 & M2 & M3).
  pose proof (List.Forall_inv Hdom) as Ha. cbn beta in Ha.
  pose proof (List.Forall_inv_tail Hdom) as Hrest.
  rewrite history_cons. rewrite Ha.
  assert (Hinv' : forall b, buckets rl !! domain = Some b -> bucket_ok L b last).
  { intros b Hb. now apply Hinv. }
  destruct (attempt_on_bucket domain L L_pos rl (a_clock a) (a_now a) last
              Hlimit Hinv' M1 M2) as (Hok2 & (A1 & A2 & A3 & A4) & _).
  assert (HnQ : (0 <= inject_Z n)%Q).
  { change 0%Q with (inject_Z 0). now rewrite <- Zle_Qle. }
  assert (Hb0 : bucket_ok L (bucket_of rl domain (a_clock a)) (a_clock a)
                /\ (inject_Z L - inject_Z n
                    <= tokens (bucket_of rl domain (a_clock a)))%Q).
  { unfold bucket_of. destruct (buckets rl !! domain) as [b|] eqn:E.
    - destruct (Hinv b eq_refl) as [H1 H2]. split; [|exact H2].
      apply (bucket_ok_later L b last); [lia | exact H1].
    - rewrite Hlimit. pose proof (L_pos_Q L L_pos).
      split; [repeat split|]; cbn [tokens lastRefill]; lra. }
  destruct Hb0 as ((B1 & B2 & B3) & B4).
  assert (Hhave : (inject_Z L - inject_Z n
                   <= tokens (refill L (bucket_of rl domain (a_clock a)) (a_now a)))%Q).
  { pose proof (refill_keeps_tokens L L_pos (bucket_of rl domain (a_clock a)) (a_now a))
      as Hkeep.
    rewrite Zle_Qle in M2.
    assert (lastRefill (bucket_of rl domain (a_clock a)) <= inject_Z (a_now a))%Q by lra.
    specialize (Hkeep H B2). lra. }
  assert (Hroom : (1 <= inject_Z L - inject_Z n)%Q).
  { cbn [List.length] in Hlen.
    assert (Hz : (n + 1 <= L)%Z) by lia.
    rewrite Zle_Qle, inject_Z_plus in Hz. change (inject_Z 1) with 1%Q in Hz. lra. }
  destruct (acquire_once_outcome rl domain (a_clock a) (a_now a))
    as [(Ho & Htok & Hb2)|(Ho & Hb2)]; rewrite Hlimit in *.
  - constructor; [exact Ho|].
    apply (IH _ (a_now a) (n + 1)); try assumption.
    + rewrite acquire_once_limit_of. exact Hlimit.
    + lia.
    + intros b Hb. rewrite acquire_once_bucket in Hb. injection Hb as <-.
      split; [exact Hok2|]. rewrite Hb2. cbn [tokens].
      rewrite inject_Z_plus. change (inject_Z 1) with 1%Q. lra.
    + cbn [List.length] in Hlen. lia.
  - exfalso.
    assert (Hlow : (tokens (refill L (bucket_of rl domain (a_clock a)) (a_now a)) < 1)%Q).
    { revert Ho. rewrite acquire_once_unfold. cbn zeta. rewrite Hlimit.
      destruct (Qlt_le_dec _ 1) as [Hlt|Hge]; [intros _; exact Hlt|].
      cbn. discriminate. }
    lra.
Qed.

Lemma history_firstn (k : nat) : forall atts rl,
  firstn k (history rl atts) = history rl (firstn k atts).
Proof.
  induction k as [|k IH]; intros atts rl; [reflexivity|].
  destruct atts as [|a rest]; [reflexivity|].
  rewrite history_cons. cbn [firstn]. rewrite history_cons.
  f_equal. apply IH.
Qed.

End HistoryMore.

(** X9.  On a new limiter and with a clock that never goes back, after
    any history of runs of [acquire] the bucket of a domain whose limit
    is positive holds at least 0 and at most [limit] tokens, and its last
    refill is not later than the clock. *)
Theorem bucket_stays_within_limit
  (limits : gmap string Z) (defaultLimit : Z) (domain : string)
  (atts : list RateLimiter.attempt) (t_first : Z) (b : RateLimiter.TokenBucket) :
  let rl := RateLimiter.new limits defaultLimit in
  0 < RateLimiter.limit_of rl domain ->
  RateLimiter.clock_monotone t_first atts ->
  RateLimiter.buckets (RateLimiter.state_after rl atts) !! domain = Some b ->
  (0 <= RateLimiter.tokens b
   /\ RateLimiter.tokens b <= inject_Z (RateLimiter.limit_of rl domain)
   /\ RateLimiter.lastRefill b
      <= inject_Z (RateLimiter.last_clock t_first atts))%Q.
Proof.
  intros rl Hpos Hmono Hb.
  apply (state_after_bucket_ok domain (RateLimiter.limit_of rl domain) Hpos
           atts rl t_first); try assumption; [reflexivity|].
  intros b' Hb'. unfold rl in Hb'. cbn in Hb'. rewrite lookup_empty in Hb'.
  discriminate Hb'.
Qed.

(** X9 at work: limit 2, three runs. *)
Lemma bucket_stays_within_limit_witness :
  let rl := RateLimiter.new {[ "a.test" := 2 ]} 1 in
  let atts := [RateLimiter.mkAttempt "a.test" 0 0;
               RateLimiter.mkAttempt "a.test" 0 0;
               RateLimiter.mkAttempt "a.test" 700 700] in
  exists b,
    RateLimiter.buckets (RateLimiter.state_after rl atts) !! "a.test" = Some b
    /\ (0 <= RateLimiter.tokens b /\ RateLimiter.tokens b <= 2)%Q.
Proof.
  intros rl atts.
  destruct (RateLimiter.buckets (RateLimiter.state_after rl atts) !! "a.test")
    as [b|] eqn:E.
  - exists b. split; [reflexivity|].
    destruct (bucket_stays_within_limit {[ "a.test" := 2 ]} 1 "a.test" atts 0 b)
      as (H1 & H2 & _).
    + vm_compute. reflexivity.
    + vm_compute. repeat split; discriminate.
    + exact E.
    + split; [exact H1 | exact H2].
  - vm_compute in E. discriminate E.
Defined.



(** X11.  [updateLimit] starts the domain afresh: with a new limit of at
    least 1, the next run of [acquire] for the domain takes a token at
    once, however empty its bucket was, and the limit in force is the new
    one; the buckets and limits of the other domains are as before. *)
Theorem updateLimit_starts_afresh
  (rl : RateLimiter.t) (domain : string) (limit clock now : Z) :
  1 <= limit ->
  clock <= now ->
  let rl' := RateLimiter.updateLimit rl domain limit in
  RateLimiter.limit_of rl' domain = limit
  /\ snd (RateLimiter.acquire_once rl' domain clock now) = RateLimiter.Acquired
  /\ (forall other,
        other <> domain ->
        RateLimiter.buckets rl' !! other = RateLimiter.buckets rl !! other
        /\ RateLimiter.limit_of rl' other = RateLimiter.limit_of rl other).
Proof.
  intros Hlimit Hnow rl'.
  assert (Hl : RateLimiter.limit_of rl' domain = limit).
  { unfold RateLimiter.limit_of, rl', RateLimiter.updateLimit. cbn.
    rewrite lookup_insert_eq. replace (limit =? 0) with false by lia. reflexivity. }
  split; [exact Hl|]. split.
  - assert (Hfresh : RateLimiter.bucket_of rl' domain clock
                     = {| RateLimiter.tokens := inject_Z limit;
                          RateLimiter.lastRefill := inject_Z clock |}).
    { unfold RateLimiter.bucket_of. rewrite Hl.
      unfold rl', RateLimiter.updateLimit. cbn. now rewrite lookup_delete_eq. }
    assert (Hpos : 0 < limit) by lia.
    assert (HL : (1 <= inject_Z limit)%Q).
    { change 1%Q with (inject_Z 1). now rewrite <- Zle_Qle. }
    pose proof (refill_keeps_tokens limit Hpos
                  {| RateLimiter.tokens := inject_Z limit;
                     RateLimiter.lastRefill := inject_Z clock |} now) as Hkeep.
    cbn [RateLimiter.tokens RateLimiter.lastRefill] in Hkeep.
    rewrite Zle_Qle in Hnow.
    specialize (Hkeep Hnow ltac:(lra)).
    rewrite acquire_once_unfold. cbn zeta. rewrite Hl, Hfresh.
    destruct (Qlt_le_dec _ 1) as [Hlt|Hge]; [|reflexivity].
    exfalso. lra.
  - intros other Hne. unfold rl', RateLimiter.updateLimit, RateLimiter.limit_of. cbn.
    rewrite lookup_delete_ne by congruence.
    rewrite lookup_insert_ne by congruence. split; reflexivity.
Qed.

Lemma updateLimit_starts_afresh_witness :
  let rl := RateLimiter.state_after (RateLimiter.new {[ "a.test" := 1 ]} 1)
              [RateLimiter.mkAttempt "a.test" 0 0] in
  RateLimiter.is_acquired (snd (RateLimiter.acquire_once rl "a.test" 0 0)) = false
  /\ snd (RateLimiter.acquire_once (RateLimiter.updateLimit rl "a.test" 1) "a.test" 0 0)
     = RateLimiter.Acquired.
Proof.
  intros rl. split; [vm_compute; reflexivity|].
  destruct (updateLimit_starts_afresh rl "a.test" 1 0 0) as (_ & H & _); [lia|lia|].
  exact H.
Defined.

(** X12.  The bucket starts full: on a new limiter and with a clock that
    never goes back, the first [limit] runs of [acquire] for a domain all
    take a token, whenever they come and whatever is called for other
    domains in between. *)
Theorem first_limit_calls_never_wait
  (limits : gmap string Z) (defaultLimit : Z) (domain : string)
  (atts : list RateLimiter.attempt) (t_first : Z) :
  let rl := RateLimiter.new limits defaultLimit in
  0 < RateLimiter.limit_of rl domain ->
  RateLimiter.clock_monotone t_first atts ->
  Forall (fun ao => snd ao = RateLimiter.Acquired)
    (firstn (Z.to_nat (RateLimiter.limit_of rl domain))
       (List.filter (fun ao => RateLimiter.on_domain domain (fst ao))
          (RateLimiter.history rl atts))).
Proof.
  intros rl Hpos Hmono.
  rewrite (history_of_domain domain atts rl rl eq_refl eq_refl eq_refl).
  set (own := List.filter (RateLimiter.on_domain domain) atts).
  assert (Hown : Forall (fun a => RateLimiter.a_domain a = domain) own).
  { rewrite List.Forall_forall. intros a Ha. apply filter_In in Ha as [_ Ha].
    now apply String.eqb_eq in Ha. }
  assert (Hmono' : RateLimiter.clock_monotone t_first own).
  { now apply clock_monotone_filter. }
  clearbody own.
  set (L := RateLimiter.limit_of rl domain) in *.
  rewrite history_firstn.
  apply (burst_tokens domain L Hpos (firstn (Z.to_nat L) own) rl t_first 0);
    try reflexivity.
  - intros b Hb. unfold rl in Hb. cbn in Hb. rewrite lookup_empty in Hb.
    discriminate Hb.
  - clear -Hmono'. revert t_first own Hmono'.
    induction (Z.to_nat L) as [|k IH]; intros t_first own Hmono'; [exact I|].
    destruct own as [|a rest]; [exact I|].
    destruct Hmono' as (M1 & M2 & M3). cbn. repeat split; try assumption.
    now apply IH.
  - rewrite List.Forall_forall in Hown |- *. intros a Ha.
    apply Hown. rewrite <- (firstn_skipn (Z.to_nat L) own).
    apply in_or_app. now left.
  - pose proof (firstn_le_length (Z.to_nat L) own). lia.
Qed.

(** X12 at work: limit 2, calls for two domains at the same instant. *)
Lemma first_limit_calls_never_wait_witness :
  let rl := RateLimiter.new {[ "a.test" := 2 ]} 1 in
  let atts := [RateLimiter.mkAttempt "a.test" 5 5;
               RateLimiter.mkAttempt "b.test" 5 5;
               RateLimiter.mkAttempt "a.test" 5 5;
               RateLimiter.mkAttempt "a.test" 5 5] in
  Forall (fun ao => snd ao = RateLimiter.Acquired)
    (firstn 2
       (List.filter (fun ao => RateLimiter.on_domain "a.test" (fst ao))
          (RateLimiter.history rl atts)))
  /\ map (fun ao => RateLimiter.is_acquired (snd ao)) (RateLimiter.history rl atts)
     = [true; true; true; false].
Proof.
  intros rl atts. split; [|vm_compute; reflexivity].
  replace 2%nat with (Z.to_nat (RateLimiter.limit_of rl "a.test"))
    by (vm_compute; reflexivity).
  apply (first_limit_calls_never_wait {[ "a.test" := 2 ]} 1 "a.test" atts 0).
  - vm_compute. reflexivity.
  - vm_compute. repeat split; discriminate.
Defined.

(** ** Robots rules: patterns without a star *)

Section LiteralPatterns.

Import RobotsParser.

Local Ltac each_char c :=
  destruct c as [[] [] [] [] [] [] [] []].

(** The three replacements after the star's, as one function. *)
Local Abbreviation escapes p :=
  (replace_all "." "\." (replace_all "$" "\$" (replace_all "?" "\?" (replace_all "*" ".*" p)))).

Lemma escapes_cons (c : ascii) (p : string) :
  is_literal c = true ->
  escapes (String c p) =
  if Ascii.eqb c "." || Ascii.eqb c "?" || Ascii.eqb c "$"
  then String "\" (String c (escapes p))
  else String c (escapes p).
Proof.
  each_char c; intros H; try discriminate H; reflexivity.
Qed.

Lemma compile_fuel_default (fuel : nat) (c : ascii) (s : string) :
  Ascii.eqb c "^" = false -> Ascii.eqb c "$" = false ->
  RegExp.compile_fuel (S fuel) (String c s) =
  match RegExp.read_atom (String c s) with
  | None => None
  | Some (a, String "*" rest) =>
      option_map (cons (RegExp.Many a)) (RegExp.compile_fuel fuel rest)
  | Some (a, rest) =>
      option_map (cons (RegExp.One a)) (RegExp.compile_fuel fuel rest)
  end.
Proof.
  each_char c; intros H1 H2; try discriminate H1; try discriminate H2; reflexivity.
Qed.

Lemma compile_fuel_one (fuel : nat) (a : RegExp.atom) (h : ascii) (t : string) :
  Ascii.eqb h "*" = false ->
  match Some (a, String h t) with
  | None => None
  | Some (a, String "*" rest) =>
      option_map (cons (RegExp.Many a)) (RegExp.compile_fuel fuel rest)
  | Some (a, rest) =>
      option_map (cons (RegExp.One a)) (RegExp.compile_fuel fuel rest)
  end = option_map (cons (RegExp.One a)) (RegExp.compile_fuel fuel (String h t)).
Proof.
  each_char h; intros H; try discriminate H; reflexivity.
Qed.

Lemma read_atom_escaped (c : ascii) (s : string) :
  Ascii.eqb c "." || Ascii.eqb c "?" || Ascii.eqb c "$" = true ->
  RegExp.read_atom (String "\" (String c s)) = Some (RegExp.Lit c, s).
Proof.
  each_char c; intros H; try discriminate H; reflexivity.
Qed.

Lemma read_atom_plain (c : ascii) (s : string) :
  is_literal c = true ->
  Ascii.eqb c "." || Ascii.eqb c "?" || Ascii.eqb c "$" = false ->
  RegExp.read_atom (String c s) = Some (RegExp.Lit c, s).
Proof.
  each_char c; intros H1 H2; try discriminate H1; try discriminate H2; reflexivity.
Qed.

Lemma literal_not_assertion (c : ascii) :
  is_literal c = true ->
  Ascii.eqb c "." || Ascii.eqb c "?" || Ascii.eqb c "$" = false ->
  Ascii.eqb c "^" = false /\ Ascii.eqb c "$" = false /\ Ascii.eqb c "*" = false.
Proof.
  each_char c; intros H1 H2; try discriminate H1; try discriminate H2; repeat split.
Qed.

(** The text after a character of the pattern never starts with a
    star. *)
Lemma escapes_head (p : string) :
  URL.all_chars is_literal p = true ->
  exists h t, escapes p ++ ".*$" = String h t /\ Ascii.eqb h "*" = false.
Proof.
  destruct p as [|c p]; intros H.
  - exists "."%char, "*$". split; reflexivity.
  - cbn [URL.all_chars] in H. apply andb_prop in H as [Hc _].
    rewrite (escapes_cons c p Hc).
    destruct (Ascii.eqb c "." || Ascii.eqb c "?" || Ascii.eqb c "$") eqn:E.
    + eexists _, _. split; [reflexivity|reflexivity].
    + eexists _, _. split; [reflexivity|].
      apply (literal_not_assertion c Hc E).
Qed.

(** The pattern compiles to one piece for each of its characters, then
    [.*] and the end of the input. *)
Lemma compile_fuel_literal (p : string) :
  URL.all_chars is_literal p = true ->
  forall fuel, (String.length (escapes p ++ ".*$") <= fuel)%nat ->
  RegExp.compile_fuel fuel (escapes p ++ ".*$") =
  Some (List.map (fun c => RegExp.One (RegExp.Lit c)) (list_ascii_of_string p)
        ++ [RegExp.Many RegExp.Dot; RegExp.Eol])%list.
Proof.
  induction p as [|c p IH]; intros H fuel Hfuel.
  - change (3 <= fuel)%nat in Hfuel.
    destruct fuel as [|[|[|fuel]]]; try lia. reflexivity.
  - cbn [URL.all_chars] in H. apply andb_prop in H as [Hc Hp].
    destruct (escapes_head p Hp) as (h & t & Eh & Hh).
    specialize (IH Hp).
    rewrite (escapes_cons c p Hc) in *.
    destruct (Ascii.eqb c "." || Ascii.eqb c "?" || Ascii.eqb c "$") eqn:E.
    + change (String "\" (String c (escapes p)) ++ ".*$")
        with (String "\" (String c (escapes p ++ ".*$"))) in *.
      cbn [String.length] in Hfuel.
      destruct fuel as [|fuel]; [lia|].
      rewrite compile_fuel_default by reflexivity.
      rewrite read_atom_escaped by exact E.
      rewrite Eh, compile_fuel_one by exact Hh.
      rewrite <- Eh, IH by lia. reflexivity.
    + change (String c (escapes p) ++ ".*$")
        with (String c (escapes p ++ ".*$")) in *.
      cbn [String.length] in Hfuel.
      destruct fuel as [|fuel]; [lia|].
      destruct (literal_not_assertion c Hc E) as (N1 & N2 & _).
      rewrite compile_fuel_default by assumption.
      rewrite read_atom_plain by assumption.
      rewrite Eh, compile_fuel_one by exact Hh.
      rewrite <- Eh, IH by lia. reflexivity.
Qed.

Lemma compile_literal (p : string) :
  URL.all_chars is_literal p = true ->
  RegExp.compile (pattern_source p) =
  Some (RegExp.Bol :: List.map (fun c => RegExp.One (RegExp.Lit c)) (list_ascii_of_string p)
        ++ [RegExp.Many RegExp.Dot; RegExp.Eol])%list.
Proof.
  intros H. unfold RegExp.compile, pattern_source.
  change ("^" ++ escapes p ++ ".*$") with (String "^" (escapes p ++ ".*$")).
  cbn [String.length RegExp.compile_fuel].
  rewrite (compile_fuel_literal p H) by lia. reflexivity.
Qed.

(** [.*$] matches what holds no line terminator. *)
Lemma match_rest (bol : bool) (s : string) :
  RegExp.match_here [RegExp.Many RegExp.Dot; RegExp.Eol] bol s =
  URL.all_chars (fun c => negb (RegExp.is_line_terminator c)) s.
Proof.
  revert bol. induction s as [|c s IH]; intros bol.
  - reflexivity.
  - specialize (IH false). cbn in IH |- *. rewrite IH. reflexivity.
Qed.

Lemma match_literal (p : string) : forall (bol : bool) (path : string),
  RegExp.match_here
    (List.map (fun c => RegExp.One (RegExp.Lit c)) (list_ascii_of_string p)
     ++ [RegExp.Many RegExp.Dot; RegExp.Eol])%list bol path =
  starts_with p path.
Proof.
  induction p as [|c p IH]; intros bol path.
  - cbn [list_ascii_of_string List.map app]. rewrite match_rest. reflexivity.
  - cbn [list_ascii_of_string List.map app RegExp.match_here].
    unfold starts_with. cbn [after_prefix].
    destruct path as [|d path]; [reflexivity|].
    cbn [RegExp.atom_matches]. destruct (Ascii.eqb c d); cbn [andb].
    + apply IH.
    + reflexivity.
Qed.

(** A pattern that starts with [^] matches nowhere but at the start. *)
Lemma match_later_anchored (r : RegExp.t) (s : string) :
  RegExp.match_later (RegExp.Bol :: r) s = false.
Proof. induction s as [|c s IH]; cbn; [reflexivity|exact IH]. Qed.

End LiteralPatterns.

(** X13. A rule's pattern without a star, and without a character that
    the regular expression would read as an operator, matches a path
    exactly when the path starts with the pattern and has no line
    terminator after it: [.], [?] and [$] in the pattern stand for
    themselves. *)
Theorem literal_pattern_is_prefix (pattern path : string) :
  URL.all_chars RobotsParser.is_literal pattern = true ->
  RobotsParser.matchesPattern path pattern
  = Some (RobotsParser.starts_with pattern path).
Proof.
  intros H. unfold RobotsParser.matchesPattern.
  rewrite (compile_literal pattern H).
  unfold RegExp.test. rewrite match_later_anchored, orb_false_r.
  cbn [RegExp.match_here andb]. rewrite match_literal. reflexivity.
Qed.

Lemma literal_pattern_is_prefix_witness :
  RobotsParser.matchesPattern "/a.b/page?x=1" "/a.b/page?" = Some true.
Proof.
  etransitivity; [apply literal_pattern_is_prefix; reflexivity|].
  reflexivity.
Defined.

(** ** The robots file: fetching, caching, reading *)

Section RobotsFile.

Import RobotsParser.

Lemma getRules_insert (cache : gmap string RobotsCache) (d : string)
  (e : RobotsCache) (now : Z) :
  getRules (<[d := e]> cache) now d
  = if now <? expires e then Some (rules e) else None.
Proof. unfold getRules. rewrite lookup_insert_eq. reflexivity. Qed.

(** *** Trimming *)

Lemma trim_end_head (c : ascii) (s : string) :
  is_space c = false -> exists r, trim_end (String c s) = String c r.
Proof.
  intros H. cbn [trim_end]. destruct (trim_end s).
  - rewrite H. eauto.
  - eauto.
Qed.

Lemma trim_start_head (s : string) :
  trim_start s = EmptyString
  \/ exists c r, trim_start s = String c r /\ is_space c = false.
Proof.
  induction s as [|c s IH]; [left; reflexivity|].
  cbn [trim_start]. destruct (is_space c) eqn:E; [exact IH|].
  right. eauto.
Qed.

Lemma trim_end_idem (s : string) : trim_end (trim_end s) = trim_end s.
Proof.
  induction s as [|c s IH]; [reflexivity|].
  cbn [trim_end]. destruct (trim_end s) as [|d r] eqn:E.
  - destruct (is_space c) eqn:Ec; [reflexivity|].
    cbn [trim_end]. rewrite Ec. reflexivity.
  - cbn [trim_end] in IH |- *.
    destruct (trim_end r) as [|d' r'] eqn:Er.
    + destruct (is_space d) eqn:Ed; [discriminate IH|].
      injection IH as <-. reflexivity.
    + rewrite IH. reflexivity.
Qed.

Lemma trim_idem (s : string) : trim (trim s) = trim s.
Proof.
  unfold trim. destruct (trim_start_head s) as [E | (c & r & E & Hc)]; rewrite E.
  - reflexivity.
  - destruct (trim_end_head c r Hc) as [r' Er]. rewrite Er.
    cbn [trim_start]. rewrite Hc, <- Er. apply trim_end_idem.
Qed.

(** *** The loop over the lines *)

Lemma parse_lines_quiet (userAgent : string) (lines : list string) :
  forall st : parsing,
  agent_in_scope userAgent st = false ->
  List.Forall (fun line => names_agent userAgent line = false) lines ->
  p_rules (fold_left (parse_line userAgent) lines st) = p_rules st
  /\ p_crawlDelay (fold_left (parse_line userAgent) lines st) = p_crawlDelay st.
Proof.
  induction lines as [|line lines IH]; intros st Hst Hl; [split; reflexivity|].
  pose proof (List.Forall_inv Hl) as H1.
  pose proof (List.Forall_inv_tail Hl) as H2.
  cbn [fold_left].
  assert (Hstep : agent_in_scope userAgent (parse_line userAgent st line) = false
                  /\ p_rules (parse_line userAgent st line) = p_rules st
                  /\ p_crawlDelay (parse_line userAgent st line) = p_crawlDelay st).
  { unfold names_agent in H1. unfold parse_line.
    set (value := trim (join ":" (tl (split_on ":" line)))) in *.
    set (field := hd "" (split_on ":" line)) in *.
    cbv zeta in H1 |- *.
    destruct (String.eqb field "" || String.eqb value ""); [auto|].
    destruct (String.eqb (trim (toLowerCase field)) "user-agent").
    - cbn [andb] in H1. unfold agent_in_scope.
      cbn [currentUserAgent p_rules p_crawlDelay]. auto.
    - rewrite Hst. auto. }
  destruct Hstep as (S1 & S2 & S3).
  destruct (IH _ S1 H2) as [I1 I2]. rewrite I1, I2. tauto.
Qed.

Lemma parse_line_well_formed (userAgent : string) (st : parsing) (line : string) :
  List.Forall well_formed (p_rules st) ->
  List.Forall well_formed (p_rules (parse_line userAgent st line)).
Proof.
  intros H. unfold parse_line.
  destruct (String.eqb (hd "" (split_on ":" line)) "") eqn:Ef; [exact H|].
  destruct (String.eqb (trim (join ":" (tl (split_on ":" line)))) "") eqn:Ev;
    [exact H|].
  cbn [orb].
  assert (Hv : well_formed {| pattern := trim (join ":" (tl (split_on ":" line)));
                              allow := true |}
               /\ well_formed {| pattern := trim (join ":" (tl (split_on ":" line)));
                              allow := false |}).
  { unfold well_formed. cbn [pattern].
    apply String.eqb_neq in Ev. rewrite trim_idem. tauto. }
  destruct (String.eqb _ "user-agent"); [exact H|].
  destruct (agent_in_scope userAgent st); [|exact H].
  destruct (String.eqb _ "allow").
  { cbn [p_rules]. apply List.Forall_app. split; [exact H|].
    constructor; [tauto|constructor]. }
  destruct (String.eqb _ "disallow").
  { cbn [p_rules]. apply List.Forall_app. split; [exact H|].
    constructor; [tauto|constructor]. }
  destruct (String.eqb _ "crawl-delay"); exact H.
Qed.

Lemma parse_lines_well_formed (userAgent : string) (lines : list string) :
  forall st : parsing,
  List.Forall well_formed (p_rules st) ->
  List.Forall well_formed (p_rules (fold_left (parse_line userAgent) lines st)).
Proof.
  induction lines as [|line lines IH]; intros st H; [exact H|].
  cbn [fold_left]. apply IH, parse_line_well_formed, H.
Qed.

(** *** Cutting a line *)

Lemma split_on_nonempty (sep : ascii) (s : string) : split_on sep s <> [].
Proof.
  destruct s as [|c s]; cbn [split_on]; [discriminate|].
  destruct (Ascii.eqb c sep); [discriminate|].
  destruct (split_on sep s); discriminate.
Qed.

Lemma join_split_on (c : ascii) (s : string) :
  join (String c EmptyString) (split_on c s) = s.
Proof.
  induction s as [|x s IH]; [reflexivity|].
  cbn [split_on]. destruct (Ascii.eqb x c) eqn:E.
  - apply Ascii.eqb_eq in E. subst x.
    pose proof (split_on_nonempty c s) as N.
    destruct (split_on c s) as [|p ps]; [contradiction|].
    change (join (String c "") ("" :: p :: ps))
      with (String c (join (String c "") (p :: ps))).
    rewrite IH. reflexivity.
  - pose proof (split_on_nonempty c s) as N.
    destruct (split_on c s) as [|p ps]; [contradiction|].
    destruct ps as [|q ps].
    + cbn [join] in IH |- *. rewrite IH. reflexivity.
    + change (join (String c "") (String x p :: q :: ps))
        with (String x (join (String c "") (p :: q :: ps))).
      rewrite IH. reflexivity.
Qed.

Lemma split_on_field (c : ascii) (field rest : string) :
  URL.all_chars (fun x => negb (Ascii.eqb x c)) field = true ->
  split_on c (field ++ String c rest) = field :: split_on c rest.
Proof.
  induction field as [|x field IH]; intros H.
  - change ("" ++ String c rest) with (String c rest).
    cbn [split_on]. rewrite Ascii.eqb_refl. reflexivity.
  - cbn [URL.all_chars] in H. apply andb_prop in H as [Hx Hf].
    apply negb_true_iff in Hx.
    change (String x field ++ String c rest) with (String x (field ++ String c rest)).
    cbn [split_on]. rewrite Hx, (IH Hf). reflexivity.
Qed.

End RobotsFile.

(** X14. When the robots file of an origin cannot be fetched the crawler
    is let through: [isAllowed] answers true, the empty rule set is cached
    for the origin alone, every URL of the origin is allowed from the cache
    for the hour that follows, the rules are fetched again once the hour is
    over, and the crawl delay read from the cache stays 0 whatever the
    time. *)
Theorem unreachable_robots_allows_all (URL_new : URL.parser) (userAgent : string)
  (cache : gmap string RobotsParser.RobotsCache) (now : Z) (url : string) (u : URL.t) :
  URL_new url = Some u ->
  RobotsParser.getRules cache now (URL.origin u) = None ->
  exists cache',
    RobotsParser.isAllowed_or_fetch URL_new userAgent cache now url None
      = Some (cache', true)
    /\ (forall now' url' u',
          URL_new url' = Some u' -> URL.origin u' = URL.origin u ->
          now' < now + 3600000 ->
          RobotsParser.isAllowed URL_new cache' now' url' = Some true)
    /\ (forall now', now + 3600000 <= now' ->
          RobotsParser.getRules cache' now' (URL.origin u) = None)
    /\ (forall now' response,
          RobotsParser.getCrawlDelay userAgent cache' now' (URL.origin u) response
          = Some (cache', 0))
    /\ (forall d, d <> URL.origin u -> cache' !! d = cache !! d).
Proof.
  intros Hu Hg.
  exists (<[URL.origin u := RobotsParser.permissive now]> cache).
  split; [|split; [|split; [|split]]].
  - unfold RobotsParser.isAllowed_or_fetch, RobotsParser.getRules_or_fetch.
    rewrite Hu, Hg. reflexivity.
  - intros now' url' u' Hu' Ho Hn. unfold RobotsParser.isAllowed.
    rewrite Hu', Ho, getRules_insert.
    cbn [RobotsParser.permissive RobotsParser.expires RobotsParser.rules].
    unfold RobotsParser.cacheExpiration.
    destruct (Z.ltb_spec now' (now + 3600000)); [reflexivity|lia].
  - intros now' Hn. rewrite getRules_insert.
    cbn [RobotsParser.permissive RobotsParser.expires].
    unfold RobotsParser.cacheExpiration.
    destruct (Z.ltb_spec now' (now + 3600000)); [lia|reflexivity].
  - intros now' response. unfold RobotsParser.getCrawlDelay.
    rewrite lookup_insert_eq. reflexivity.
  - intros d Hd. apply lookup_insert_ne. congruence.
Qed.

Lemma unreachable_robots_allows_all_witness :
  exists cache',
    RobotsParser.isAllowed_or_fetch URL.parse "Bot" ∅ 1000 "https://a.test/x" None
      = Some (cache', true)
    /\ RobotsParser.isAllowed URL.parse cache' 3600999 "https://a.test/y" = Some true
    /\ RobotsParser.getRules cache' 3601000 "https://a.test" = None.
Proof.
  destruct (unreachable_robots_allows_all URL.parse "Bot" ∅ 1000 "https://a.test/x"
              {| URL.origin := "https://a.test"; URL.hostname := "a.test";
                 URL.pathname := "/x"; URL.search := ""; URL.hash := "" |})
    as (cache' & H1 & H2 & H3 & _).
  - vm_compute. reflexivity.
  - reflexivity.
  - exists cache'. split; [exact H1|]. split.
    + eapply H2; [vm_compute; reflexivity|reflexivity|lia].
    + apply (H3 3601000). lia.
Defined.

(** X16. A robots file in which no [User-agent] line names the crawler's
    agent or [*] restricts nothing: whatever else it holds, no rule and no
    crawl delay are read from it, and every URL of the origin is
    allowed. *)
Theorem rules_of_other_agents_are_ignored (URL_new : URL.parser) (userAgent : string)
  (cache : gmap string RobotsParser.RobotsCache) (now : Z) (url data : string)
  (u : URL.t) :
  URL_new url = Some u ->
  RobotsParser.getRules cache now (URL.origin u) = None ->
  List.Forall (fun line => RobotsParser.names_agent userAgent line = false)
              (RobotsParser.split_on "010" data) ->
  RobotsParser.p_rules (RobotsParser.parse_robots userAgent data) = []
  /\ RobotsParser.p_crawlDelay (RobotsParser.parse_robots userAgent data) = Some 0
  /\ RobotsParser.isAllowed_or_fetch URL_new userAgent cache now url (Some data)
     = Some (<[URL.origin u := RobotsParser.permissive now]> cache, true).
Proof.
  intros Hu Hg Hl.
  destruct (parse_lines_quiet userAgent _ RobotsParser.parsing_start
              eq_refl Hl) as [Hr Hd].
  fold (RobotsParser.parse_robots userAgent data) in Hr, Hd.
  cbn [RobotsParser.parsing_start RobotsParser.p_rules RobotsParser.p_crawlDelay]
    in Hr, Hd.
  split; [exact Hr|]. split; [exact Hd|].
  unfold RobotsParser.isAllowed_or_fetch, RobotsParser.getRules_or_fetch,
    RobotsParser.fetchRobotsTxt.
  rewrite Hu, Hg, Hd, Hr. reflexivity.
Qed.

Lemma rules_of_other_agents_are_ignored_witness :
  RobotsParser.isAllowed_or_fetch URL.parse "Bot" ∅ 1000 "https://a.test/x"
    (Some ("User-agent: Other" ++ String "010" "Disallow: /"))
  = Some (<["https://a.test" := RobotsParser.permissive 1000]> ∅, true).
Proof.
  refine (proj2 (proj2 (rules_of_other_agents_are_ignored URL.parse "Bot" ∅ 1000
                   "https://a.test/x" _
                   {| URL.origin := "https://a.test"; URL.hostname := "a.test";
                      URL.pathname := "/x"; URL.search := ""; URL.hash := "" |}
                   _ _ _))).
  - vm_compute. reflexivity.
  - reflexivity.
  - repeat constructor.
Defined.

(** X17. Every rule read from a robots file has a pattern that is not
    empty and carries no white space at either end: a [Disallow:] with
    nothing after it adds no rule. *)
Theorem parsed_patterns_are_trimmed (userAgent data : string) :
  List.Forall RobotsParser.well_formed
    (RobotsParser.p_rules (RobotsParser.parse_robots userAgent data)).
Proof.
  unfold RobotsParser.parse_robots.
  apply parse_lines_well_formed. constructor.
Qed.

(** X18. A line is cut at its first colon only.  With the crawler's agent
    in scope, a line whose text before the first colon reads [allow] or
    [disallow] (in any case, white space around it) adds as the last rule
    the whole text after that colon, trimmed, further colons included;
    the rules read before, the delay and the agent stay. *)
Theorem rule_value_is_rest_of_line (userAgent : string) (st : RobotsParser.parsing)
  (field rest : string) (b : bool) :
  RobotsParser.agent_in_scope userAgent st = true ->
  URL.all_chars (fun x => negb (Ascii.eqb x ":")) field = true ->
  RobotsParser.trim (RobotsParser.toLowerCase field)
  = (if b then "allow" else "disallow") ->
  RobotsParser.trim rest <> "" ->
  RobotsParser.parse_line userAgent st (field ++ String ":" rest)
  = {| RobotsParser.p_rules :=
         (RobotsParser.p_rules st
          ++ [{| RobotsParser.pattern := RobotsParser.trim rest;
                 RobotsParser.allow := b |}])%list;
       RobotsParser.p_crawlDelay := RobotsParser.p_crawlDelay st;
       RobotsParser.currentUserAgent := RobotsParser.currentUserAgent st |}.
Proof.
  intros Hs Hf Hn Hr. unfold RobotsParser.parse_line.
  rewrite (split_on_field ":" field rest Hf).
  cbn [List.hd List.tl]. rewrite (join_split_on ":" rest).
  assert (Ef : String.eqb field "" = false).
  { destruct field; [|reflexivity]. destruct b; discriminate Hn. }
  apply String.eqb_neq in Hr. rewrite Ef, Hr, Hn, Hs.
  destruct b; reflexivity.
Qed.

Lemma rule_value_is_rest_of_line_witness :
  RobotsParser.parse_line "Bot"
    {| RobotsParser.p_rules := []; RobotsParser.p_crawlDelay := Some 0;
       RobotsParser.currentUserAgent := Some "*" |}
    "Disallow : /a:b "
  = {| RobotsParser.p_rules :=
         [{| RobotsParser.pattern := "/a:b"; RobotsParser.allow := false |}];
       RobotsParser.p_crawlDelay := Some 0;
       RobotsParser.currentUserAgent := Some "*" |}.
Proof.
  apply (rule_value_is_rest_of_line "Bot"
           {| RobotsParser.p_rules := []; RobotsParser.p_crawlDelay := Some 0;
              RobotsParser.currentUserAgent := Some "*" |}
           "Disallow " " /a:b " false).
  - reflexivity.
  - reflexivity.
  - reflexivity.
  - discriminate.
Defined.

(** ** The crawler: what a call costs and how it ends *)

Section CrawlMore.
Import Crawler.

Lemma normalizeError_response e : response (normalizeError e) = None.
Proof.
  unfold normalizeError. destruct (response e) as [[s t]|] eqn:E; [reflexivity|exact E].
Qed.


(** What the loop of [handleRetry] throws. *)
Lemma handleRetry_loop_thrown c crawl_ url :
  (forall st e st', crawl_ url st = (Thrown e, st') -> response e = None) ->
  forall n retryCount lastError st e st',
  handleRetry_loop c crawl_ n retryCount lastError url st = (Thrown e, st') ->
  response e = None.
Proof.
  intros Hcrawl.
  induction n as [|n IH]; intros retryCount lastError st e st' H.
  - cbn [handleRetry_loop] in H. injection H as <- _. apply normalizeError_response.
  - cbn [handleRetry_loop] in H.
    destruct (retryCount <? retryAttempts (config c)).
    + destruct (crawl_ url (emit (EvSleep (getRetryDelay c retryCount)) st))
        as [[r|err|] st2] eqn:E.
      * discriminate H.
      * eapply IH, H.
      * discriminate H.
    + injection H as <- _. apply normalizeError_response.
Qed.

End CrawlMore.

(** X19. The delay before a retry, for a base delay that is not negative:
    it never exceeds 30000 ms, it does not shrink from one retry count to
    the next, and it doubles from a count to the next until it reaches
    the cap. *)
Theorem retry_delay_doubles_to_cap (c : Crawler.t) (n m : Z) :
  0 <= Crawler.retryDelay (Crawler.config c) ->
  0 <= n <= m ->
  0 <= Crawler.getRetryDelay c n <= Crawler.getRetryDelay c m
  /\ Crawler.getRetryDelay c m <= 30000
  /\ Crawler.getRetryDelay c 0 = Z.min (Crawler.retryDelay (Crawler.config c)) 30000
  /\ Crawler.getRetryDelay c (n + 1) = Z.min (2 * Crawler.getRetryDelay c n) 30000.
Proof.
  intros Hd Hnm. unfold Crawler.getRetryDelay.
  set (d := Crawler.retryDelay (Crawler.config c)) in *.
  assert (Hpow : 0 < 2 ^ n <= 2 ^ m).
  { split; [apply Z.pow_pos_nonneg; lia|apply Z.pow_le_mono_r; lia]. }
  assert (Hsucc : 2 ^ (n + 1) = 2 * 2 ^ n).
  { rewrite Z.pow_add_r by lia. change (2 ^ 1) with 2. lia. }
  rewrite Hsucc. change (2 ^ 0) with 1.
  assert (H1 : 0 <= d * 2 ^ n) by nia.
  assert (H2 : d * 2 ^ n <= d * 2 ^ m) by nia.
  replace (d * (2 * 2 ^ n)) with (2 * (d * 2 ^ n)) by lia.
  lia.
Qed.

Lemma retry_delay_doubles_to_cap_witness :
  let c := Crawler.new
             (Crawler.mkCrawlerConfig 2 5000 10 1000 "TestBot/1.0")
             (Crawler.mkPolicyConfig ∅ true 1000)
             (Crawler.mkWorld (fun _ => Normal true) URL.parse
                (fun _ _ => Crawler.Failed "ECONNRESET") "2024-02-21") in
  0 <= Crawler.getRetryDelay c 4 <= Crawler.getRetryDelay c 5
  /\ Crawler.getRetryDelay c 5 <= 30000
  /\ Crawler.getRetryDelay c 0 = Z.min 1000 30000
  /\ Crawler.getRetryDelay c (4 + 1) = Z.min (2 * Crawler.getRetryDelay c 4) 30000.
Proof.
  intros c. apply (retry_delay_doubles_to_cap c 4 5).
  - vm_compute. discriminate.
  - lia.
Defined.

(** X20. With the robots check on, a URL that the robots rules forbid is
    never requested: [crawl] throws [URL not allowed by robots.txt] right
    after the check, without passing through the rate limiter, without a
    GET, without a sleep and without a retry, whatever the number of retry
    attempts. *)
Theorem disallowed_url_is_never_requested (c : Crawler.t) (url : string)
  (st : Crawler.Run) (depth : nat) :
  Crawler.robotsTxtEnforcement (Crawler.policyConfig c) = true ->
  Crawler.robots (Crawler.world c) url = Normal false ->
  Crawler.crawl (S depth) c url st
  = (Crawler.Thrown (Error "URL not allowed by robots.txt"),
     Crawler.emit (Crawler.EvRobots url) st).
Proof.
  intros He Hr. cbn [Crawler.crawl]. unfold Crawler.attempt. rewrite He, Hr.
  reflexivity.
Qed.

Lemma disallowed_url_is_never_requested_witness :
  let c := Crawler.new
             (Crawler.mkCrawlerConfig 2 5000 3 1000 "TestBot/1.0")
             (Crawler.mkPolicyConfig ∅ true 1000)
             (Crawler.mkWorld (fun _ => Normal false) URL.parse
                (fun _ _ => Crawler.Failed "ECONNRESET") "2024-02-21") in
  Crawler.crawl 1 c "https://example.com/private" Crawler.start
  = (Crawler.Thrown (Error "URL not allowed by robots.txt"),
     Crawler.emit (Crawler.EvRobots "https://example.com/private") Crawler.start).
Proof.
  intros c. apply (disallowed_url_is_never_requested c); reflexivity.
Defined.



(** X22. A URL whose first [k] GETs fail with a retryable error and whose
    next GET is accepted, on a crawler that may retry at least once:
    [crawl] returns the accepted response after [k + 1] GETs, whatever
    [k] is next to the number of retry attempts, and each of the [k]
    sleeps in between lasts the delay of the retry number 0. *)
Theorem crawl_recovers_after_any_failures (c : Crawler.t) (url : string) (u : URL.t)
  (response : Crawler.Response) (k extra : nat) (st : Crawler.Run) :
  Crawler.URL_new (Crawler.world c) url = Some u ->
  Crawler.robotsTxtEnforcement (Crawler.policyConfig c) = false
  \/ Crawler.robots (Crawler.world c) url = Normal true ->
  1 <= Crawler.retryAttempts (Crawler.config c) ->
  (forall n, (n < k)%nat ->
     exists e, Crawler.httpClient c (Crawler.gets st + n) url = Throw e
               /\ Crawler.isRetryableError e = true) ->
  Crawler.httpClient c (Crawler.gets st + k) url = Normal response ->
  exists st',
    Crawler.crawl (S k + extra) c url st
    = (Crawler.Returned
         (Crawler.result_of url (Crawler.today (Crawler.world c)) response), st')
    /\ Crawler.gets st' = (Crawler.gets st + S k)%nat
    /\ Crawler.sleeps st'
       = (Crawler.sleeps st ++ repeat (Crawler.getRetryDelay c 0) k)%list.
Proof.
  intros Hurl Hrobots Hretry. revert st.
  induction k as [|k IH]; intros st Hfail Hok.
  - destruct (attempt_reaches_client c url u st Hurl Hrobots)
      as (st1 & Hg & Hs & Ha).
    rewrite Nat.add_0_r in Hok. rewrite Hok in Ha.
    exists st1. cbn [Nat.add Crawler.crawl]. rewrite Ha.
    split; [reflexivity|]. split; [lia|]. cbn [repeat]. now rewrite app_nil_r.
  - destruct (attempt_reaches_client c url u st Hurl Hrobots)
      as (st1 & Hg & Hs & Ha).
    destruct (Hfail O ltac:(lia)) as (e & He & Hre).
    rewrite Nat.add_0_r in He. rewrite He in Ha.
    destruct (IH (Crawler.emit (Crawler.EvSleep (Crawler.getRetryDelay c 0)) st1))
      as (st2 & Hc & Hg2 & Hs2).
    + intros n Hn. rewrite gets_emit, Hg.
      replace (S (Crawler.gets st) + n)%nat with (Crawler.gets st + S n)%nat by lia.
      apply Hfail. lia.
    + rewrite gets_emit, Hg.
      replace (S (Crawler.gets st) + k)%nat with (Crawler.gets st + S k)%nat by lia.
      exact Hok.
    + exists st2. split; [|split].
      * change (S (S k) + extra)%nat with (S (S k + extra)).
        cbn [Crawler.crawl]. rewrite Ha, Hre. unfold Crawler.handleRetry.
        destruct (Z.to_nat (Crawler.retryAttempts (Crawler.config c))) as [|n] eqn:En;
          [lia|].
        cbn [Crawler.handleRetry_loop].
        replace (0 <? Crawler.retryAttempts (Crawler.config c)) with true by lia.
        rewrite Hc. reflexivity.
      * rewrite Hg2, gets_emit, Hg. lia.
      * rewrite Hs2, sleeps_emit, Hs. cbn [repeat].
        rewrite <- app_assoc. reflexivity.
Qed.

Lemma crawl_recovers_after_any_failures_witness :
  let c := Crawler.new
             (Crawler.mkCrawlerConfig 2 5000 1 1000 "TestBot/1.0")
             (Crawler.mkPolicyConfig ∅ true 1000)
             (Crawler.mkWorld (fun _ => Normal true) URL.parse
                (fun n _ => if (n <? 3)%nat then Crawler.Failed "ETIMEDOUT"
                            else Crawler.Answered
                                   (Crawler.mkResponse 200 "OK" "<html></html>" []))
                "2024-02-21") in
  exists st',
    Crawler.crawl 4 c "https://example.com" Crawler.start
    = (Crawler.Returned
         (Crawler.result_of "https://example.com" "2024-02-21"
            (Crawler.mkResponse 200 "OK" "<html></html>" [])), st')
    /\ Crawler.gets st' = 4%nat
    /\ Crawler.sleeps st' = [1000; 1000; 1000].
Proof.
  intros c.
  apply (crawl_recovers_after_any_failures c "https://example.com"
           (URL.mkURL "https://example.com" "example.com" "/" "" "")
           (Crawler.mkResponse 200 "OK" "<html></html>" []) 3 0 Crawler.start).
  - vm_compute. reflexivity.
  - right. reflexivity.
  - vm_compute. discriminate.
  - intros n Hn. exists {| code := Some "ETIMEDOUT"; response := None;
                           message := "ETIMEDOUT" |}.
    split; [|reflexivity].
    destruct n as [|[|[|n]]]; [reflexivity|reflexivity|reflexivity|lia].
  - reflexivity.
Defined.

(** X23. Whatever [crawl] throws has been through [normalizeError]: the
    error carries no response of the server any more, be it thrown by the
    [try] block or at the end of the retry loop. *)
Theorem crawl_throws_normalized_errors (depth : nat) (c : Crawler.t) (url : string)
  (st st' : Crawler.Run) (e : JsError) :
  Crawler.crawl depth c url st = (Crawler.Thrown e, st') ->
  response e = None.
Proof.
  revert st st' e. induction depth as [|depth IH]; intros st st' e H.
  - discriminate H.
  - cbn [Crawler.crawl] in H.
    destruct (Crawler.attempt c url st) as [[r|err] st1]; [discriminate H|].
    destruct (Crawler.isRetryableError err).
    + unfold Crawler.handleRetry in H.
      eapply handleRetry_loop_thrown; [|exact H].
      intros st0 e0 st0' H0. eapply IH, H0.
    + injection H as <- _. apply normalizeError_response.
Qed.

Lemma crawl_throws_normalized_errors_witness :
  let c := {| Crawler.httpClient := fun _ _ =>
                Throw {| code := None; response := Some (404, "Not Found");
                         message := "Request failed with status code 404" |};
              Crawler.config := Crawler.mkCrawlerConfig 2 5000 3 1000 "TestBot/1.0";
              Crawler.policyConfig := Crawler.mkPolicyConfig ∅ false 1000;
              Crawler.world := Crawler.mkWorld (fun _ => Normal true) URL.parse
                                 (fun _ _ => Crawler.Failed "ECONNRESET") "2024-02-21" |} in
  exists e st',
    Crawler.crawl 1 c "https://example.com" Crawler.start = (Crawler.Thrown e, st')
    /\ message e = "HTTP 404: Not Found"
    /\ response e = None.
Proof.
  intros c. eexists _, _. split; [vm_compute; reflexivity|].
  split; [reflexivity|].
  eapply (crawl_throws_normalized_errors 1 c "https://example.com" Crawler.start).
  vm_compute. reflexivity.
Defined.

(** ** The job manager: starting a job, the loop, pausing *)

Section JobMore.
Variable URL_new : URL.parser.
Import JobManager.

#[local] Abbreviation key := (UrlManager.normalizeUrl URL_new).

Lemma splice_behind {T} (d : T) (p : Z) (its : list (PriorityQueue.QueueNode T)) :
  List.Forall (fun x => PriorityQueue.priority x <= p) its ->
  PriorityQueue.splice (PriorityQueue.mkNode d p) its
  = (its ++ [PriorityQueue.mkNode d p])%list.
Proof.
  induction its as [|x rest IH]; intros H; [reflexivity|].
  pose proof (List.Forall_inv H) as Hx. pose proof (List.Forall_inv_tail H) as Hr.
  cbn beta in Hx.
  cbn [PriorityQueue.splice PriorityQueue.priority app].
  replace (PriorityQueue.priority x >? p) with false by lia.
  rewrite (IH Hr). reflexivity.
Qed.

(** The first halves of the calls of [enqueue] that [startJob] makes:
    none of them marks its URL visited, so every URL that was not visited
    before goes into the queue while there is room. *)
Lemma enqueue_all_begin_all (p : Z) (ts : list CrawlTask) : forall um,
  UrlManager.consistent um ->
  List.Forall (fun t => t_priority t = p) ts ->
  (forall t, In t ts -> key (t_url t) ∉ UrlManager.visited um) ->
  PriorityQueue.size (UrlManager.queue um) + Z.of_nat (List.length ts)
  <= cfg_maxSize (UrlManager.config um) ->
  List.Forall (fun x => PriorityQueue.priority x <= p)
              (PriorityQueue.items (UrlManager.queue um)) ->
  enqueue_all_begin URL_new um ts
  = ({| UrlManager.queue :=
          {| PriorityQueue.items :=
               (PriorityQueue.items (UrlManager.queue um)
                ++ map (fun t => PriorityQueue.mkNode (t_url t) p) ts)%list;
             PriorityQueue.maxSize := PriorityQueue.maxSize (UrlManager.queue um) |};
        UrlManager.visited := UrlManager.visited um;
        UrlManager.config := UrlManager.config um |},
     map (fun t => (t_url t, Some (Normal tt))) ts).
Proof.
  induction ts as [|t ts IH]; intros um Hc Hp Hfresh Hroom Hprio.
  - cbn [enqueue_all_begin map]. rewrite app_nil_r.
    destruct um as [[its m] v cfg]. reflexivity.
  - pose proof (List.Forall_inv Hp) as Hpt.
    pose proof (List.Forall_inv_tail Hp) as Hps.
    cbn beta in Hpt. cbn [List.length] in Hroom.
    cbn [enqueue_all_begin]. unfold UrlManager.enqueue_begin.
    assert (Hs : UrlManager.shouldEnqueue URL_new um (t_url t) = true).
    { unfold UrlManager.shouldEnqueue. apply andb_true_iff. split.
      - apply negb_true_iff, bool_decide_eq_false. apply Hfresh. now left.
      - lia. }
    rewrite Hs, enqueue_with_room by (rewrite Hc; lia).
    rewrite Hpt, splice_behind by exact Hprio.
    rewrite IH.
    + cbn [UrlManager.queue UrlManager.visited UrlManager.config
           PriorityQueue.items PriorityQueue.maxSize map].
      rewrite <- app_assoc. reflexivity.
    + exact Hc.
    + exact Hps.
    + intros t' Ht'. cbn [UrlManager.visited]. apply Hfresh. now right.
    + cbn [UrlManager.queue UrlManager.config]. unfold PriorityQueue.size in *.
      cbn [PriorityQueue.items]. rewrite length_app. cbn [List.length]. lia.
    + cbn [UrlManager.queue PriorityQueue.items]. apply List.Forall_app. split.
      * exact Hprio.
      * constructor; [cbn; lia|constructor].
Qed.

(** The second halves: the URLs are marked visited, the queue stays. *)
Lemma enqueue_all_end_all (ts : list CrawlTask) : forall um,
  snd (enqueue_all_end URL_new um (map (fun t => (t_url t, Some (Normal tt))) ts))
  = Normal tt
  /\ UrlManager.queue
       (fst (enqueue_all_end URL_new um
               (map (fun t => (t_url t, Some (Normal tt))) ts)))
     = UrlManager.queue um
  /\ UrlManager.config
       (fst (enqueue_all_end URL_new um
               (map (fun t => (t_url t, Some (Normal tt))) ts)))
     = UrlManager.config um
  /\ (forall k,
        k ∈ UrlManager.visited
              (fst (enqueue_all_end URL_new um
                      (map (fun t => (t_url t, Some (Normal tt))) ts)))
        <-> In k (map (fun t => key (t_url t)) ts) \/ k ∈ UrlManager.visited um).
Proof.
  induction ts as [|t ts IH]; intros um.
  - cbn. repeat split; try reflexivity; tauto.
  - cbn [map enqueue_all_end UrlManager.enqueue_end].
    set (um1 := {| UrlManager.queue := UrlManager.queue um;
                   UrlManager.visited := {[ key (t_url t) ]} ∪ UrlManager.visited um;
                   UrlManager.config := UrlManager.config um |}).
    destruct (IH um1) as (H1 & H2 & H3 & H4).
    destruct (enqueue_all_end URL_new um1
                (map (fun t => (t_url t, Some (Normal tt))) ts)) as [um2 c2].
    cbn [fst snd] in *. split; [exact H1|]. split; [exact H2|]. split; [exact H3|].
    intros k. rewrite H4. cbn [UrlManager.visited um1 In].
    rewrite elem_of_union, elem_of_singleton. intuition congruence.
Qed.

Lemma make_tasks_priority taskId urls p now : forall i,
  List.Forall (fun t => t_priority t = p) (make_tasks taskId i urls p now).
Proof.
  induction urls as [|u urls IH]; intros i; cbn [make_tasks]; constructor.
  - reflexivity.
  - apply IH.
Qed.

Lemma make_tasks_urls taskId urls p now : forall i,
  map t_url (make_tasks taskId i urls p now) = urls.
Proof.
  induction urls as [|u urls IH]; intros i; cbn [make_tasks map]; [reflexivity|].
  now rewrite IH.
Qed.

Lemma make_tasks_length taskId urls p now : forall i,
  List.length (make_tasks taskId i urls p now) = List.length urls.
Proof.
  induction urls as [|u urls IH]; intros i; cbn [make_tasks List.length]; [reflexivity|].
  now rewrite IH.
Qed.

Lemma make_tasks_lookup taskId urls p now : forall i n url,
  urls !! n = Some url ->
  make_tasks taskId i urls p now !! n
  = Some {| t_id := taskId (i + n)%nat; t_url := url; t_priority := p;
            retryCount := 0; maxRetries := 3; t_status := TaskPending;
            t_timestamp := now |}.
Proof.
  induction urls as [|u urls IH]; intros i n url H; [discriminate H|].
  destruct n as [|n]; cbn [make_tasks].
  - injection H as <-. rewrite Nat.add_0_r. reflexivity.
  - change (urls !! n = Some url) in H.
    replace (i + S n)%nat with (S i + n)%nat by lia.
    exact (IH (S i) n url H).
Qed.






Lemma map_set_same_value {V} (k : string) (v : V) m :
  map_get k m = Some v -> map_set k v m = m.
Proof.
  induction m as [|[k' v'] m IH]; intros H; [discriminate H|].
  cbn [map_get map_set] in *.
  destruct (String.eqb k' k) eqn:E.
  - apply String.eqb_eq in E. injection H as ->. subst. reflexivity.
  - now rewrite IH.
Qed.

Lemma map_set_twice {V} (k : string) (v1 v2 : V) m :
  map_set k v2 (map_set k v1 m) = map_set k v2 m.
Proof.
  induction m as [|[k' v'] m IH]; cbn [map_set].
  - now rewrite String.eqb_refl.
  - destruct (String.eqb k' k) eqn:E; cbn [map_set].
    + now rewrite String.eqb_refl.
    + now rewrite E, IH.
Qed.

End JobMore.

(** X25. [startJob] hands all its URLs to the frontier before any of
    them is marked visited.  While the loop is running, so that
    [startJob] does not start it, with no turn of the loop in between,
    and on a frontier with room for the
    list, none of whose URLs was visited before and whose queued items do
    not come behind the job's priority: every URL of the list is queued,
    in the order of the list and behind what was queued, two URLs with
    the same key included; all are visited afterwards, and the job is
    stored as running with one pending task per URL. *)
Theorem startJob_queues_every_url (URL_new : URL.parser) (jm : JobManager.t)
  (jobId : string) (taskId : nat -> string) (now : string) (urls : list string)
  (priority : Z) :
  JobManager.isRunning jm = true ->
  UrlManager.consistent (JobManager.urlManager jm) ->
  (forall url, In url urls ->
     UrlManager.isVisited URL_new (JobManager.urlManager jm) url = false) ->
  UrlManager.getQueueSize (JobManager.urlManager jm) + Z.of_nat (List.length urls)
  <= cfg_maxSize (UrlManager.config (JobManager.urlManager jm)) ->
  List.Forall (fun x => PriorityQueue.priority x <= priority)
    (PriorityQueue.items (UrlManager.queue (JobManager.urlManager jm))) ->
  let out := JobManager.startJob URL_new jm jobId taskId now urls priority in
  snd out = Normal jobId
  /\ UrlManager.queued (JobManager.urlManager (fst out))
     = (UrlManager.queued (JobManager.urlManager jm) ++ urls)%list
  /\ (forall url, In url urls ->
        UrlManager.isVisited URL_new (JobManager.urlManager (fst out)) url = true)
  /\ JobManager.isRunning (fst out) = true
  /\ JobManager.getJobStatus (fst out) jobId
     = Some {| JobManager.j_id := jobId;
               JobManager.tasks := seq (List.length (JobManager.heap jm))
                                       (List.length urls);
               JobManager.completedTasks := 0;
               JobManager.failedTasks := 0;
               JobManager.startTime := now;
               JobManager.endTime := None;
               JobManager.j_status := JobManager.JobRunning |}
  /\ (forall n url, urls !! n = Some url ->
        JobManager.task_at (fst out) (List.length (JobManager.heap jm) + n)
        = Some {| JobManager.t_id := taskId n;
                  JobManager.t_url := url;
                  JobManager.t_priority := priority;
                  JobManager.retryCount := 0;
                  JobManager.maxRetries := 3;
                  JobManager.t_status := JobManager.TaskPending;
                  JobManager.t_timestamp := now |}).
Proof.
  intros _ Hc Hfresh Hroom Hprio out. subst out.
  unfold JobManager.startJob. cbv zeta.
  cbn [JobManager.urlManager JobManager.with_jobs JobManager.with_heap].
  set (ts := JobManager.make_tasks taskId 0 urls priority now).
  assert (Hurls : map JobManager.t_url ts = urls) by apply make_tasks_urls.
  assert (Hlen : List.length ts = List.length urls) by apply make_tasks_length.
  rewrite (enqueue_all_begin_all URL_new priority ts (JobManager.urlManager jm) Hc).
  2:{ apply make_tasks_priority. }
  2:{ intros t Ht. specialize (Hfresh (JobManager.t_url t)).
      unfold UrlManager.isVisited in Hfresh.
      eapply bool_decide_eq_false_1, Hfresh.
      rewrite <- Hurls. apply in_map, Ht. }
  2:{ rewrite Hlen. exact Hroom. }
  2:{ exact Hprio. }
  set (um1 := {| UrlManager.queue := _; UrlManager.visited := _;
                 UrlManager.config := _ |}).
  destruct (enqueue_all_end_all URL_new ts um1) as (E1 & E2 & E3 & E4).
  destruct (JobManager.enqueue_all_end URL_new um1
              (map (fun t => (JobManager.t_url t, Some (Normal tt))) ts))
    as [um2 c2].
  cbn [fst snd] in E1, E2, E3, E4. subst c2.
  assert (Hout : forall jm2 : JobManager.t,
            JobManager.isRunning
              (if JobManager.isRunning jm2 then jm2 else JobManager.startProcessing jm2)
            = true
            /\ JobManager.urlManager
                 (if JobManager.isRunning jm2 then jm2 else JobManager.startProcessing jm2)
               = JobManager.urlManager jm2
            /\ JobManager.activeJobs
                 (if JobManager.isRunning jm2 then jm2 else JobManager.startProcessing jm2)
               = JobManager.activeJobs jm2
            /\ JobManager.heap
                 (if JobManager.isRunning jm2 then jm2 else JobManager.startProcessing jm2)
               = JobManager.heap jm2).
  { intros jm2. destruct (JobManager.isRunning jm2) eqn:E; repeat split; assumption. }
  cbn [fst snd].
  match goal with
  | |- context [if JobManager.isRunning ?j then _ else _] =>
      destruct (Hout j) as (O1 & O2 & O3 & O4)
  end.
  split; [reflexivity|]. split; [|split; [|split; [|split]]].
  - rewrite O2. cbn [JobManager.urlManager JobManager.with_urlManager].
    unfold UrlManager.queued, PriorityQueue.getItems. rewrite E2.
    cbn [um1 UrlManager.queue PriorityQueue.items].
    rewrite map_app, map_map. cbn [PriorityQueue.data].
    change (map (fun x => JobManager.t_url x) ts) with (map JobManager.t_url ts).
    rewrite Hurls. reflexivity.
  - intros url Hurl. rewrite O2.
    cbn [JobManager.urlManager JobManager.with_urlManager].
    unfold UrlManager.isVisited. apply bool_decide_eq_true, E4. left.
    rewrite <- Hurls in Hurl. apply in_map_iff in Hurl as (t & <- & Ht).
    apply in_map_iff. exists t. split; [reflexivity|exact Ht].
  - exact O1.
  - unfold JobManager.getJobStatus. rewrite O3.
    cbn [JobManager.activeJobs JobManager.with_urlManager JobManager.with_jobs].
    rewrite map_get_set_same, Hlen. reflexivity.
  - intros n url Hn. unfold JobManager.task_at. rewrite O4.
    cbn [JobManager.heap JobManager.with_urlManager JobManager.with_jobs
         JobManager.with_heap].
    rewrite lookup_app_r by lia.
    replace (List.length (JobManager.heap jm) + n - List.length (JobManager.heap jm))%nat
      with n by lia.
    apply (make_tasks_lookup taskId urls priority now 0 n url Hn).
Qed.

Lemma startJob_queues_every_url_witness :
  let jm0 := JobManager.new (UrlManager.new (mkQueueConfig 100 3 1000)) in
  let jm1 := fst (JobManager.startJob URL.parse jm0 "job-1" (fun _ => "task-1") "t0"
                    ["https://b.test"] 1) in
  let jm := fst (JobManager.loop_turn jm1) in
  let out := JobManager.startJob URL.parse jm "job-2" (fun _ => "task") "t1"
               ["https://a.test/x"; "https://a.test/x/"; "https://a.test/x"] 1 in
  snd (JobManager.loop_turn jm1) = JobManager.InFlight 0
  /\ snd out = Normal "job-2"
  /\ UrlManager.queued (JobManager.urlManager (fst out))
     = ["https://a.test/x"; "https://a.test/x/"; "https://a.test/x"].
Proof.
  intros jm0 jm1 jm out. split; [vm_compute; reflexivity|].
  destruct (startJob_queues_every_url URL.parse jm "job-2" (fun _ => "task") "t1"
              ["https://a.test/x"; "https://a.test/x/"; "https://a.test/x"] 1)
    as (H1 & H2 & _).
  - vm_compute. reflexivity.
  - reflexivity.
  - intros url [<-|[<-|[<-|[]]]]; vm_compute; reflexivity.
  - vm_compute. discriminate.
  - vm_compute. constructor.
  - split; [exact H1|]. etransitivity; [exact H2|]. vm_compute. reflexivity.
Defined.



(** X27. While the loop is running, pausing a running job and
    resuming it gives the manager back as it was: the same job table,
    heap, frontier and loop.  What shows is the two events [jobPaused]
    and [jobResumed]. *)
Theorem pause_then_resume_restores (jm : JobManager.t) (jobId : string)
  (job : JobManager.JobStatus) :
  JobManager.isRunning jm = true ->
  JobManager.getJobStatus jm jobId = Some job ->
  JobManager.j_status job = JobManager.JobRunning ->
  JobManager.resumeJob (JobManager.pauseJob jm jobId) jobId
  = {| JobManager.urlManager := JobManager.urlManager jm;
       JobManager.activeJobs := JobManager.activeJobs jm;
       JobManager.heap := JobManager.heap jm;
       JobManager.isRunning := JobManager.isRunning jm;
       JobManager.emitted :=
         (JobManager.emitted jm
          ++ [JobManager.jobPaused jobId; JobManager.jobResumed jobId])%list |}.
Proof.
  intros Hrun Hget Hs. destruct jm as [um jobs h r ev].
  cbn [JobManager.isRunning] in Hrun. subst r.
  unfold JobManager.getJobStatus in Hget. cbn [JobManager.activeJobs] in Hget.
  assert (Hjob : JobManager.set_job_status
                   (JobManager.set_job_status job JobManager.JobPaused)
                   JobManager.JobRunning = job).
  { destruct job. cbn in Hs |- *. now subst. }
  unfold JobManager.pauseJob. cbn [JobManager.activeJobs].
  rewrite Hget, Hs. cbn [JobManager.job_state_eqb].
  unfold JobManager.resumeJob, JobManager.emit, JobManager.with_jobs.
  cbn [JobManager.urlManager JobManager.activeJobs JobManager.heap
       JobManager.isRunning JobManager.emitted].
  rewrite map_get_set_same.
  change (JobManager.job_state_eqb
            (JobManager.j_status (JobManager.set_job_status job JobManager.JobPaused))
            JobManager.JobPaused) with true.
  cbv iota zeta.
  rewrite map_set_twice, Hjob, (map_set_same_value jobId job jobs Hget).
  cbn [JobManager.urlManager JobManager.activeJobs JobManager.heap
       JobManager.isRunning JobManager.emitted].
  rewrite <- app_assoc. reflexivity.
Qed.

Lemma pause_then_resume_restores_witness :
  let jm0 := JobManager.new (UrlManager.new (mkQueueConfig 100 3 1000)) in
  let jm1 := fst (JobManager.startJob URL.parse jm0 "job-1" (fun _ => "task-1") "t0"
                    ["https://a.test"] 1) in
  let jm := fst (JobManager.loop_turn jm1) in
  snd (JobManager.loop_turn jm1) = JobManager.InFlight 0
  /\ JobManager.resumeJob (JobManager.pauseJob jm "job-1") "job-1"
     = {| JobManager.urlManager := JobManager.urlManager jm;
          JobManager.activeJobs := JobManager.activeJobs jm;
          JobManager.heap := JobManager.heap jm;
          JobManager.isRunning := JobManager.isRunning jm;
          JobManager.emitted :=
            (JobManager.emitted jm
             ++ [JobManager.jobPaused "job-1"; JobManager.jobResumed "job-1"])%list |}.
Proof.
  intros jm0 jm1 jm. split; [vm_compute; reflexivity|].
  destruct (JobManager.getJobStatus jm "job-1") as [job|] eqn:E.
  - apply (pause_then_resume_restores jm "job-1" job).
    + vm_compute. reflexivity.
    + exact E.
    + vm_compute in E. injection E as <-. reflexivity.
  - vm_compute in E. discriminate E.
Defined.



(** ** The parser: keys, validation, array selectors *)

Section ParserFacts.
Import Parser.

Context {Doc Selection : Type}.
Variable select : Doc -> string -> completion Selection.
Variable count : Selection -> nat.
Variable text : Selection -> string.
Variable texts : Selection -> list string.
Variable attr : Selection -> option string -> value.

#[local] Abbreviation extract_ := (extract Doc Selection select count text texts attr).

(** The keys of the record that the loop of [extractData] builds. *)
Lemma extractData_keys (doc : Doc) (entries : list (string * string)) :
  forall (result : gmap string value) (key : string),
  is_Some (fold_left (fun result kv => assign result (fst kv) (extract_ doc (snd kv)))
                     entries result !! key)
  <-> (In key (map fst entries) /\ key <> "__proto__") \/ is_Some (result !! key).
Proof.
  induction entries as [|[k sel] entries IH]; intros result key.
  - cbn. tauto.
  - cbn [fold_left map In fst snd]. rewrite IH. unfold assign.
    destruct (String.eqb k "__proto__") eqn:Ek.
    + apply String.eqb_eq in Ek. subst k. intuition congruence.
    + apply String.eqb_neq in Ek.
      destruct (decide (k = key)) as [->|Hne].
      * rewrite lookup_insert_eq. split; [intros _; left; split; [now left|exact Ek]|].
        intros _. right. eauto.
      * rewrite lookup_insert_ne by exact Hne. intuition congruence.
Qed.

Lemma drop_brackets_cons (c : ascii) (s : string) :
  String.eqb (String c s) "[]" = false ->
  drop_brackets (String c s) = String c (drop_brackets s).
Proof.
  destruct c as [[] [] [] [] [] [] [] []]; try reflexivity.
  destruct s as [|d s]; [reflexivity|].
  destruct d as [[] [] [] [] [] [] [] []]; try reflexivity.
  destruct s as [|e s]; [discriminate|reflexivity].
Qed.

(** The replacement takes away the two brackets that [endsWith] saw. *)
Lemma drop_brackets_endsWith (s : string) :
  endsWith s "[]" = true -> s = drop_brackets s ++ "[]".
Proof.
  induction s as [|c s IH]; intros H; [discriminate H|].
  cbn [endsWith] in H.
  destruct (String.eqb (String c s) "[]") eqn:E.
  - apply String.eqb_eq in E. rewrite E. reflexivity.
  - cbn [orb] in H. rewrite (drop_brackets_cons c s E).
    change (String c (drop_brackets s) ++ "[]")
      with (String c (drop_brackets s ++ "[]")).
    f_equal. apply IH, H.
Qed.

Lemma trimmed_texts (l : list string) :
  List.Forall (fun t => t <> EmptyString /\ RobotsParser.trim t = t)
    (List.filter (fun t => (0 <? String.length t)%nat) (List.map RobotsParser.trim l)).
Proof.
  induction l as [|t l IH]; [constructor|].
  cbn [List.map List.filter].
  destruct (0 <? String.length (RobotsParser.trim t))%nat eqn:E; [|exact IH].
  constructor; [|exact IH]. split.
  - intros Ht. rewrite Ht in E. discriminate E.
  - apply trim_idem.
Qed.

End ParserFacts.

(** X29. The record that [parse] returns has as its keys exactly the
    keys of the configured selectors other than [__proto__], whatever
    the document holds and whatever the library rejects.  So the
    validation of the output fails for one reason only, a configuration
    in which no selector has a key other than [__proto__], and then
    [parse] throws [Validation failed: Empty data]. *)
Theorem parse_keeps_every_key (Doc Selection : Type)
  (load : string -> completion Doc)
  (select : Doc -> string -> completion Selection)
  (count : Selection -> nat) (text : Selection -> string)
  (texts : Selection -> list string)
  (attr : Selection -> option string -> Parser.value)
  (config : Parser.ParserConfig) (startTime endTime : Z) (now html : string)
  (doc : Doc) :
  load html = Normal doc ->
  let d := Parser.extractData Doc Selection select count text texts attr doc
             (Parser.selectors config) in
  (forall key, is_Some (d !! key)
               <-> In key (map fst (Parser.selectors config)) /\ key <> "__proto__")
  /\ Parser.parse Doc Selection load select count text texts attr
       config startTime endTime now html
     = if Parser.validateOutput config
          && forallb (fun kv => String.eqb (fst kv) "__proto__") (Parser.selectors config)
       then Throw (Error "Validation failed: Empty data")
       else Normal {| Parser.data := d;
                      Parser.r_selectors := Parser.selectors config;
                      Parser.r_timestamp := now;
                      Parser.processingTime := endTime - startTime;
                      Parser.r_encoding := Parser.encoding config;
                      Parser.contentLength := Z.of_nat (String.length html) |}.
Proof.
  intros Hload d.
  assert (Hkeys : forall key,
            is_Some (d !! key)
            <-> In key (map fst (Parser.selectors config)) /\ key <> "__proto__").
  { intros key. unfold d, Parser.extractData. rewrite extractData_keys.
    rewrite lookup_empty. split; [intros [H|H]; [exact H|]|intros H; now left].
    destruct H as [x Hx]. discriminate Hx. }
  split; [exact Hkeys|].
  unfold Parser.parse. rewrite Hload. fold d.
  destruct (Parser.validateOutput config); [|reflexivity].
  cbn [andb]. unfold Parser.validate.
  destruct (forallb (fun kv => String.eqb (fst kv) "__proto__") (Parser.selectors config))
    eqn:Ef.
  - assert (Hd : d = ∅).
    { apply map_eq. intros key. rewrite lookup_empty.
      destruct (d !! key) eqn:E; [|reflexivity].
      exfalso. destruct (proj1 (Hkeys key) ltac:(eauto)) as [Hin Hne].
      apply in_map_iff in Hin as ([k sel] & <- & Hkv).
      rewrite forallb_forall in Ef. specialize (Ef _ Hkv).
      apply String.eqb_eq in Ef. exact (Hne Ef). }
    rewrite Hd, map_size_empty. reflexivity.
  - destruct (size d =? 0)%nat eqn:E; [|reflexivity].
    apply Nat.eqb_eq, map_size_empty_iff in E.
    assert (Hex : exists kv, In kv (Parser.selectors config)
                             /\ String.eqb (fst kv) "__proto__" = false).
    { clear -Ef. induction (Parser.selectors config) as [|kv l IH]; [discriminate Ef|].
      cbn [forallb] in Ef. destruct (String.eqb (fst kv) "__proto__") eqn:Ek.
      - destruct (IH Ef) as (kv' & Hin & Hk). exists kv'. split; [now right|exact Hk].
      - exists kv. split; [now left|exact Ek]. }
    destruct Hex as ([k sel] & Hin & Hk). apply String.eqb_neq in Hk.
    destruct (proj2 (Hkeys k)) as [x Hx].
    { split; [|exact Hk]. apply in_map_iff. exists (k, sel). split; [reflexivity|exact Hin]. }
    rewrite E, lookup_empty in Hx. discriminate Hx.
Qed.

Lemma parse_keeps_every_key_witness :
  let select := fun (_ : unit) (selector : string) =>
                  if String.eqb selector "h1" then Normal ["Title"]
                  else if String.eqb selector "p" then Normal []
                  else Throw (Error "Unmatched selector") in
  let run := Parser.parse unit (list string) (fun _ => Normal tt) select
               (@List.length string) (fun els => String.concat "" els)
               (fun els => els) (fun _ _ => Parser.Null) in
  option_map (fun r => map_to_list (Parser.data r))
    (match run (Parser.mkParserConfig
                  [("title", "h1"); ("body", "p"); ("items", "p[]"); ("bad", "a[");
                   ("__proto__", "h1")]
                  1000 "utf-8" true) 0 5 "t" "<h1>Title</h1>" with
     | Normal r => Some r
     | Throw _ => None
     end)
  = Some (map_to_list (<["title" := Parser.Str "Title"]>
                         (<["body" := Parser.Null]>
                            (<["items" := Parser.Arr []]>
                               (<["bad" := Parser.Null]> ∅)))))
  /\ run (Parser.mkParserConfig [("__proto__", "h1")] 1000 "utf-8" true)
         0 5 "t" "<h1>Title</h1>"
     = Throw (Error "Validation failed: Empty data").
Proof.
  intros select run. split.
  - unfold run.
    rewrite (proj2 (parse_keeps_every_key unit (list string) (fun _ => Normal tt) select
                      (@List.length string) (fun els => String.concat "" els)
                      (fun els => els) (fun _ _ => Parser.Null)
                      (Parser.mkParserConfig
                         [("title", "h1"); ("body", "p"); ("items", "p[]"); ("bad", "a[");
                          ("__proto__", "h1")]
                         1000 "utf-8" true) 0 5 "t" "<h1>Title</h1>" tt eq_refl)).
    vm_compute. reflexivity.
  - unfold run.
    rewrite (proj2 (parse_keeps_every_key unit (list string) (fun _ => Normal tt) select
                      (@List.length string) (fun els => String.concat "" els)
                      (fun els => els) (fun _ _ => Parser.Null)
                      (Parser.mkParserConfig [("__proto__", "h1")] 1000 "utf-8" true)
                      0 5 "t" "<h1>Title</h1>" tt eq_refl)).
    reflexivity.
Defined.

(** X30. A selector that ends in [[]] is read as an array selector,
    also when it holds an [@].  The elements are selected with the
    selector less exactly these two brackets, and when the library accepts
    it the value is an array, empty when nothing is selected, of the
    trimmed texts of the elements in their order, those that are empty
    after trimming left out: no text of the array is empty or has white
    space at either end. *)
Theorem array_selector_gives_clean_texts (Doc Selection : Type)
  (select : Doc -> string -> completion Selection)
  (count : Selection -> nat) (text : Selection -> string)
  (texts : Selection -> list string)
  (attr : Selection -> option string -> Parser.value)
  (doc : Doc) (selector : string) (els : Selection) :
  Parser.isArraySelector selector = true ->
  select doc (Parser.drop_brackets selector) = Normal els ->
  selector = Parser.drop_brackets selector ++ "[]"
  /\ Parser.extract Doc Selection select count text texts attr doc selector
     = Parser.Arr (List.filter (fun t => (0 <? String.length t)%nat)
                               (List.map RobotsParser.trim (texts els)))
  /\ List.Forall (fun t => t <> EmptyString /\ RobotsParser.trim t = t)
       (List.filter (fun t => (0 <? String.length t)%nat)
                    (List.map RobotsParser.trim (texts els))).
Proof.
  intros Ha Hs. split; [|split].
  - apply drop_brackets_endsWith, Ha.
  - unfold Parser.extract. rewrite Ha. unfold Parser.extractArray.
    rewrite Hs. reflexivity.
  - apply trimmed_texts.
Qed.

Lemma array_selector_gives_clean_texts_witness :
  Parser.extract unit (list string)
    (fun _ selector => if String.eqb selector "a@href" then Normal [" x "; "  "; "y"]
                       else Throw (Error "Unmatched selector"))
    (@List.length string) (fun els => String.concat "" els) (fun els => els)
    (fun _ _ => Parser.Null) tt "a@href[]"
  = Parser.Arr ["x"; "y"].
Proof.
  etransitivity.
  - apply (array_selector_gives_clean_texts unit (list string) _ _ _ _ _ tt "a@href[]"
             [" x "; "  "; "y"]); reflexivity.
  - reflexivity.
Defined.
